(** * bcrush: CRUSH-format packer and depacker, embedded in Rocq

    The development follows the C sources: [crush_internal.h] (constants),
    [crush.c] (bit writer, cost model, level dispatch), [crush_leparse.h]
    (levels 5-7), [crush_btparse.h] (levels 8-10) and [crush_depack.c]
    (bit reader, depacker).

    Machine integers are [Z] with the wrap-around of the C type written out
    ([u32], [ulong]); [unsigned long] is taken to be 64 bits wide.  Byte
    buffers are [list byte]; the scratch buffer [workmem] is a store of
    words indexed by word address, see [workmem]. *)

From Stdlib Require Import ZArith List Lia Bool.
From Stdlib.Strings Require Import Byte.
From stdpp Require Import base option gmap.
Import ListNotations.
Local Open Scope Z_scope.

(** ** Machine integers and bytes *)

Definition u32 (x : Z) : Z := x mod 2 ^ 32.
Definition ulong (x : Z) : Z := x mod 2 ^ 64.

Definition UINT32_MAX : Z := 2 ^ 32 - 1.
Definition ULONG_MAX : Z := 2 ^ 64 - 1.

(** [CRUSH_ERROR] is [(unsigned long) (-1)]. *)
Definition CRUSH_ERROR : Z := ULONG_MAX.

(** The value of an [unsigned char]. *)
Definition byte_val (b : byte) : Z := Z.of_N (Byte.to_N b).

(** Conversion to [unsigned char]: the low-order 8 bits. *)
Definition byte_of (z : Z) : byte :=
  match Byte.of_N (Z.to_N (z mod 256)) with
  | Some b => b
  | None => x00
  end.

(** [in[i]] for a source buffer; indices are always in range in the code
    below (see the access lemmas), the default is never observed. *)
Definition byte_at (buf : list byte) (i : Z) : Z :=
  byte_val (nth (Z.to_nat i) buf x00).

(** ** Constants of crush_internal.h and crush.c *)

Definition W_BITS : Z := 21.
Definition W_SIZE : Z := Z.shiftl 1 W_BITS.
Definition SLOT_BITS : Z := 4.
Definition NUM_SLOTS : Z := Z.shiftl 1 SLOT_BITS.

Definition A_BITS : Z := 2.
Definition B_BITS : Z := 2.
Definition C_BITS : Z := 2.
Definition D_BITS : Z := 3.
Definition E_BITS : Z := 5.
Definition F_BITS : Z := 9.
Definition A : Z := Z.shiftl 1 A_BITS.
Definition B : Z := Z.shiftl 1 B_BITS + A.
Definition C : Z := Z.shiftl 1 C_BITS + B.
Definition D : Z := Z.shiftl 1 D_BITS + C.
Definition E : Z := Z.shiftl 1 E_BITS + D.
Definition F : Z := Z.shiftl 1 F_BITS + E.
Definition MIN_MATCH : Z := 3.
Definition MAX_MATCH : Z := (F - 1) + MIN_MATCH.

(** bcrush.c: the largest block the command-line tool hands to the packer. *)
Definition BLOCK_SIZE : Z := 64 * 1024 * 1024.

Definition CRUSH_HASH_BITS : Z := 17.
Definition LOOKUP_SIZE : Z := Z.shiftl 1 CRUSH_HASH_BITS.
Definition NO_MATCH_POS : Z := u32 (-1).

(** ** The bit writer of crush.c *)

(** [lbw_out] holds the bytes stored through [next_out] so far, in order:
    [next_out - dst] is its length. *)
Record lsb_bitwriter := mk_lbw {
  lbw_out : list byte;
  lbw_tag : Z;
  lbw_msb : Z
}.

Definition lbw_init : lsb_bitwriter :=
  {| lbw_out := []; lbw_tag := 0; lbw_msb := 0 |}.

(** One round of [*lbw->next_out++ = lbw->tag; lbw->tag >>= 8;
    lbw->msb -= 8]. *)
Definition lbw_emit_byte (lbw : lsb_bitwriter) : lsb_bitwriter :=
  {| lbw_out := lbw_out lbw ++ [byte_of (lbw_tag lbw)];
     lbw_tag := Z.shiftr (lbw_tag lbw) 8;
     lbw_msb := lbw_msb lbw - 8 |}.

(** [while (lbw->msb > 0)]: every round lowers [msb] by 8, so [msb] rounds
    are enough. *)
Fixpoint lbw_finalize_loop (fuel : nat) (lbw : lsb_bitwriter) : lsb_bitwriter :=
  match fuel with
  | O => lbw
  | S fuel' =>
      if 0 <? lbw_msb lbw then lbw_finalize_loop fuel' (lbw_emit_byte lbw)
      else lbw
  end.

Definition lbw_finalize (lbw : lsb_bitwriter) : list byte :=
  lbw_out (lbw_finalize_loop (Z.to_nat (lbw_msb lbw)) lbw).

(** [while (lbw->msb > 32 - num)]. *)
Fixpoint lbw_flush_loop (fuel : nat) (lbw : lsb_bitwriter) (num : Z) : lsb_bitwriter :=
  match fuel with
  | O => lbw
  | S fuel' =>
      if 32 - num <? lbw_msb lbw then lbw_flush_loop fuel' (lbw_emit_byte lbw) num
      else lbw
  end.

Definition lbw_flush (lbw : lsb_bitwriter) (num : Z) : lsb_bitwriter :=
  lbw_flush_loop (Z.to_nat (lbw_msb lbw)) lbw num.

(** [lbw->tag |= bits << lbw->msb; lbw->msb += num], on [uint32_t].  The
    two [assert]s that stand before it hold wherever the packers call it,
    see [lbw_putbits_asserts]. *)
Definition lbw_putbits_no_flush (lbw : lsb_bitwriter) (bits num : Z) : lsb_bitwriter :=
  {| lbw_out := lbw_out lbw;
     lbw_tag := Z.lor (lbw_tag lbw) (u32 (Z.shiftl (u32 bits) (lbw_msb lbw)));
     lbw_msb := lbw_msb lbw + num |}.

Definition lbw_putbits (lbw : lsb_bitwriter) (bits num : Z) : lsb_bitwriter :=
  lbw_putbits_no_flush (lbw_flush lbw num) bits num.

(** ** crush_log2, crush_hash3_bits, crush_match_cost, crush_max_packed_size *)

(** The portable branch of [crush_log2]: [while (n >>= 1) ++bits]. *)
Fixpoint crush_log2_loop (fuel : nat) (n bits : Z) : Z :=
  match fuel with
  | O => bits
  | S fuel' =>
      let n' := Z.shiftr n 1 in
      if n' =? 0 then bits else crush_log2_loop fuel' n' (bits + 1)
  end.

Definition crush_log2 (n : Z) : Z := crush_log2_loop 64 n 0.

Definition crush_hash3_bits (p : list byte) (i : Z) (bits : Z) : Z :=
  let val := Z.lor (Z.lor (byte_at p i) (Z.shiftl (byte_at p (i + 1)) 8))
                   (Z.shiftl (byte_at p (i + 2)) 16) in
  Z.shiftr (u32 (val * 2654435761)) (32 - bits).

Definition crush_match_cost (pos len : Z) : Z :=
  let cost := 1 in
  let l := ulong (len - MIN_MATCH) in
  let cost :=
    if l <? A then cost + (1 + A_BITS)
    else if l <? B then cost + (2 + B_BITS)
    else if l <? C then cost + (3 + C_BITS)
    else if l <? D then cost + (4 + D_BITS)
    else if l <? E then cost + (5 + E_BITS)
    else cost + (5 + F_BITS) in
  let cost := cost + SLOT_BITS in
  if Z.shiftl 2 (W_BITS - NUM_SLOTS) <=? pos then cost + crush_log2 pos
  else cost + (W_BITS - (NUM_SLOTS - 1)).

Definition crush_max_packed_size (src_size : Z) : Z :=
  ulong (src_size + src_size / 8 + 64).

(** ** Phase 3 of the packers: writing one token *)

(** A token of the CRUSH stream: a literal byte, or a match of [len] bytes
    found [offs] bytes back. *)
Inductive token :=
  | Literal (b : byte)
  | Match (len offs : Z).

(** [lbw_putbits(&lbw, (uint32_t) in[i] << 1, 9)]. *)
Definition put_literal (lbw : lsb_bitwriter) (b : byte) : lsb_bitwriter :=
  lbw_putbits lbw (u32 (Z.shiftl (byte_val b) 1)) 9.

(** The tag bit and the length code; [mlen] is the match length. *)
Definition put_match_len (lbw : lsb_bitwriter) (mlen : Z) : lsb_bitwriter :=
  let lbw := lbw_putbits lbw 1 1 in
  let l := ulong (mlen - MIN_MATCH) in
  if l <? A then lbw_putbits (lbw_putbits lbw 1 1) l A_BITS
  else if l <? B then lbw_putbits (lbw_putbits lbw (Z.shiftl 1 1) 2) (l - A) B_BITS
  else if l <? C then lbw_putbits (lbw_putbits lbw (Z.shiftl 1 2) 3) (l - B) C_BITS
  else if l <? D then lbw_putbits (lbw_putbits lbw (Z.shiftl 1 3) 4) (l - C) D_BITS
  else if l <? E then lbw_putbits (lbw_putbits lbw (Z.shiftl 1 4) 5) (l - D) E_BITS
  else lbw_putbits (lbw_putbits lbw 0 5) (l - E) F_BITS.

(** crush_leparse.h: [while (offs >= (2UL << mlog)) ++mlog]. *)
Fixpoint le_mlog_loop (fuel : nat) (offs mlog : Z) : Z :=
  match fuel with
  | O => mlog
  | S fuel' =>
      if ulong (Z.shiftl 2 mlog) <=? offs then le_mlog_loop fuel' offs (mlog + 1)
      else mlog
  end.

(** The offset code of crush_leparse.h; [offs] is the offset minus one. *)
Definition put_offs_le (lbw : lsb_bitwriter) (offs : Z) : lsb_bitwriter :=
  let mlog := le_mlog_loop 64 offs (W_BITS - NUM_SLOTS) in
  let lbw := lbw_putbits lbw (mlog - (W_BITS - NUM_SLOTS)) SLOT_BITS in
  if W_BITS - NUM_SLOTS <? mlog then lbw_putbits lbw (offs - Z.shiftl 1 mlog) mlog
  else lbw_putbits lbw offs (W_BITS - (NUM_SLOTS - 1)).

(** The offset code of crush_btparse.h. *)
Definition put_offs_bt (lbw : lsb_bitwriter) (offs : Z) : lsb_bitwriter :=
  if Z.shiftl 2 (W_BITS - NUM_SLOTS) <=? offs then
    let mlog := crush_log2 offs in
    let lbw := lbw_putbits lbw (mlog - (W_BITS - NUM_SLOTS)) SLOT_BITS in
    lbw_putbits lbw (offs - Z.shiftl 1 mlog) mlog
  else
    let lbw := lbw_putbits lbw 0 SLOT_BITS in
    lbw_putbits lbw offs (W_BITS - (NUM_SLOTS - 1)).

(** The two packers write a match token with the same length code and
    their own offset code. *)
Inductive parser := LEparse | BTparse.

Definition put_offs (p : parser) : lsb_bitwriter -> Z -> lsb_bitwriter :=
  match p with LEparse => put_offs_le | BTparse => put_offs_bt end.

Definition put_match (p : parser) (lbw : lsb_bitwriter) (mlen offs : Z) : lsb_bitwriter :=
  put_offs p (put_match_len lbw mlen) offs.

Definition put_token (p : parser) (lbw : lsb_bitwriter) (t : token) : lsb_bitwriter :=
  match t with
  | Literal b => put_literal lbw b
  | Match len offs => put_match p lbw len (offs - 1)
  end.

(** ** The bit reader of crush_depack.c *)

(** [lbr_src] is what is left of the packed buffer after the read pointer.
    The C code is given no length for it; reading past the end of the list
    gives [None]. *)
Record lsb_bitreader := mk_lbr {
  lbr_src : list byte;
  lbr_tag : Z;
  lbr_msb : Z
}.

Definition lbr_init (src : list byte) : lsb_bitreader :=
  {| lbr_src := src; lbr_tag := 0; lbr_msb := 0 |}.

(** [while (lbr->msb < num)]: every round adds 8 to [msb]. *)
Fixpoint lbr_refill_loop (fuel : nat) (lbr : lsb_bitreader) (num : Z) : option lsb_bitreader :=
  match fuel with
  | O => Some lbr
  | S fuel' =>
      if lbr_msb lbr <? num then
        match lbr_src lbr with
        | [] => None
        | b :: rest =>
            lbr_refill_loop fuel'
              {| lbr_src := rest;
                 lbr_tag := Z.lor (lbr_tag lbr) (u32 (Z.shiftl (byte_val b) (lbr_msb lbr)));
                 lbr_msb := lbr_msb lbr + 8 |} num
        end
      else Some lbr
  end.

Definition lbr_refill (lbr : lsb_bitreader) (num : Z) : option lsb_bitreader :=
  lbr_refill_loop (Z.to_nat num) lbr num.

Definition lbr_getbits_no_refill (lbr : lsb_bitreader) (num : Z) : Z * lsb_bitreader :=
  let bits := u32 (Z.land (lbr_tag lbr) (Z.shiftl 1 num - 1)) in
  (bits, {| lbr_src := lbr_src lbr;
            lbr_tag := Z.shiftr (lbr_tag lbr) num;
            lbr_msb := lbr_msb lbr - num |}).

Definition lbr_getbits (lbr : lsb_bitreader) (num : Z) : option (Z * lsb_bitreader) :=
  lbr' ← lbr_refill lbr num; Some (lbr_getbits_no_refill lbr' num).

(** ** crush_depack *)

(** The length code as the depacker reads it: the value is the match
    length minus [MIN_MATCH]. *)
Definition get_match_len (lbr : lsb_bitreader) : option (Z * lsb_bitreader) :=
  '(b, lbr) ← lbr_getbits lbr 1;
  if negb (b =? 0) then lbr_getbits lbr A_BITS else
  '(b, lbr) ← lbr_getbits lbr 1;
  if negb (b =? 0) then '(x, lbr) ← lbr_getbits lbr B_BITS; Some (x + A, lbr) else
  '(b, lbr) ← lbr_getbits lbr 1;
  if negb (b =? 0) then '(x, lbr) ← lbr_getbits lbr C_BITS; Some (x + B, lbr) else
  '(b, lbr) ← lbr_getbits lbr 1;
  if negb (b =? 0) then '(x, lbr) ← lbr_getbits lbr D_BITS; Some (x + C, lbr) else
  '(b, lbr) ← lbr_getbits lbr 1;
  if negb (b =? 0) then '(x, lbr) ← lbr_getbits lbr E_BITS; Some (x + D, lbr) else
  '(x, lbr) ← lbr_getbits lbr F_BITS; Some (x + E, lbr).

(** The offset code as the depacker reads it, up to [++offs]. *)
Definition get_match_offs (lbr : lsb_bitreader) : option (Z * lsb_bitreader) :=
  '(s, lbr) ← lbr_getbits lbr SLOT_BITS;
  let mlog := s + (W_BITS - NUM_SLOTS) in
  '(offs, lbr) ←
    (if W_BITS - NUM_SLOTS <? mlog
     then '(x, lbr) ← lbr_getbits lbr mlog; Some (u32 (x + Z.shiftl 1 mlog), lbr)
     else lbr_getbits lbr (W_BITS - (NUM_SLOTS - 1)));
  Some (offs + 1, lbr).

(** The token-reading steps of one round of the main loop. *)
Definition get_token (lbr : lsb_bitreader) : option (token * lsb_bitreader) :=
  '(b, lbr) ← lbr_getbits lbr 1;
  if negb (b =? 0) then
    '(l, lbr) ← get_match_len lbr;
    '(offs, lbr) ← get_match_offs lbr;
    Some (Match (l + MIN_MATCH) offs, lbr)
  else
    '(x, lbr) ← lbr_getbits lbr 8;
    Some (Literal (byte_of x), lbr).

(** [out[dst_size++] = out[mpos++]], [n] times; [out] is the part of [dst]
    written so far, so [dst_size] is its length. *)
Fixpoint copy_match (n : nat) (out : list byte) (mpos : Z) : list byte :=
  match n with
  | O => out
  | S n' => copy_match n' (out ++ [nth (Z.to_nat mpos) out x00]) (mpos + 1)
  end.

(** What a call of [crush_depack] does. *)
Inductive depack_result :=
  | Depacked (out : list byte)
      (** the loop ended; [dst] holds [out], the return value is its length *)
  | DepackError (out : list byte)
      (** [return CRUSH_ERROR], with [out] written to [dst] before *)
  | DepackOverread (out : list byte).
      (** the reader ran past the end of the packed bytes it was given *)

Fixpoint depack_loop (fuel : nat) (lbr : lsb_bitreader) (out : list byte)
    (depacked_size : Z) : depack_result :=
  match fuel with
  | O => Depacked out
  | S fuel' =>
      let dst_size := Z.of_nat (length out) in
      if dst_size <? depacked_size then
        match get_token lbr with
        | None => DepackOverread out
        | Some (Literal b, lbr) => depack_loop fuel' lbr (out ++ [b]) depacked_size
        | Some (Match len offs, lbr) =>
            if dst_size <? offs then DepackError out
            else
              let mpos := dst_size - offs in
              depack_loop fuel' lbr (copy_match (Z.to_nat len) out mpos) depacked_size
        end
      else Depacked out
  end.

(** Every round of the main loop stores at least one byte, so
    [depacked_size] rounds are enough. *)
Definition crush_depack (src : list byte) (depacked_size : Z) : depack_result :=
  depack_loop (Z.to_nat depacked_size) (lbr_init src) [] depacked_size.

(** The value [crush_depack] returns. *)
Definition depack_return (r : depack_result) : option Z :=
  match r with
  | Depacked out => Some (Z.of_nat (length out))
  | DepackError _ => Some CRUSH_ERROR
  | DepackOverread _ => None
  end.

(** The bytes [crush_depack] has stored to [dst]. *)
Definition depack_written (r : depack_result) : list byte :=
  match r with
  | Depacked out | DepackError out | DepackOverread out => out
  end.

(** ** The scratch buffer [workmem] *)

(** The words of [workmem], addressed by word index from its start.
    [wm_cells] holds the words this call has stored; a word not stored yet
    still has the value [wm_init] it had when the call began.  [wm_stale]
    is a ghost log of the addresses that were loaded before any store to
    them; no operation reads it. *)
Record workmem := mk_wm {
  wm_cells : gmap Z Z;
  wm_init : Z -> Z;
  wm_stale : list Z
}.

(** A call that begins with the buffer contents [init]. *)
Definition wm_start (init : Z -> Z) : workmem :=
  {| wm_cells := ∅; wm_init := init; wm_stale := [] |}.

(** Code over [workmem]: [None] when an [assert] fails or when a loop
    does not end within the bound on its rounds. *)
Definition M (T : Type) : Type := workmem -> option (T * workmem).

Definition ret {T} (x : T) : M T := fun w => Some (x, w).

Definition bind {T U} (m : M T) (k : T -> M U) : M U :=
  fun w => match m w with
           | Some (x, w') => k x w'
           | None => None
           end.

Definition abort {T} : M T := fun _ => None.

Definition assert_ (b : bool) : M unit :=
  fun w => if b then Some (tt, w) else None.

Definition load (a : Z) : M Z :=
  fun w => match wm_cells w !! a with
           | Some v => Some (v, w)
           | None =>
               Some (wm_init w a,
                     {| wm_cells := wm_cells w; wm_init := wm_init w;
                        wm_stale := a :: wm_stale w |})
           end.

Definition store (a v : Z) : M unit :=
  fun w => Some (tt, {| wm_cells := <[a := v]> (wm_cells w);
                        wm_init := wm_init w; wm_stale := wm_stale w |}).

Declare Scope wm_scope.
Delimit Scope wm_scope with wm.
Notation "x <- y ;; z" := (bind y (fun x => z))
  (at level 20, y at level 99, z at level 200, only parsing) : wm_scope.
Notation "' pat <- y ;; z" := (bind y (fun x => match x with pat => z end))
  (at level 20, pat pattern, y at level 99, z at level 200, only parsing) : wm_scope.
Notation "y ;; z" := (bind y (fun _ => z))
  (at level 100, z at level 200, only parsing, right associativity) : wm_scope.
Local Open Scope wm_scope.

(** [for (i = first; ...; ++i) body(i)], [n] rounds. *)
Fixpoint for_loop (n : nat) (i : Z) (body : Z -> M unit) : M unit :=
  match n with
  | O => ret tt
  | S n' => body i ;; for_loop n' (i + 1) body
  end.

(** [while (len < len_limit && in[pos + len] == in[cur + len]) ++len]. *)
Fixpoint match_len_loop (fuel : nat) (inp : list byte) (pos cur len len_limit : Z) : Z :=
  match fuel with
  | O => len
  | S fuel' =>
      if (len <? len_limit) && (byte_at inp (pos + len) =? byte_at inp (cur + len))
      then match_len_loop fuel' inp pos cur (len + 1) len_limit
      else len
  end.

Definition find_match_len (inp : list byte) (pos cur len len_limit : Z) : Z :=
  match_len_loop (Z.to_nat (len_limit - len)) inp pos cur len len_limit.

(** [for (i = 0; i < src_size; ++i) lbw_putbits(&lbw, in[i] << 1, 9)], the
    path for [src_size < 4]. *)
Definition put_literals (lbw : lsb_bitwriter) (inp : list byte) : lsb_bitwriter :=
  fold_left put_literal inp lbw.

(** ** crush_leparse.h: levels 5 to 7 *)

Section leparse.
Variable inp : list byte.
Variables max_depth accept_len : Z.

Let src_size : Z := Z.of_nat (length inp).

(** The arrays laid over [workmem], as word offsets. *)
Definition le_prev : Z := 0.
Definition le_mpos : Z := le_prev + src_size.
Definition le_mlen : Z := le_mpos + src_size.
Definition le_cost : Z := le_prev.
Definition le_lookup : Z := le_mpos.

Definition le_last_match_pos : Z := if 3 <? src_size then src_size - 3 else 0.

(** The width of the hash in phase 1. *)
Definition le_hash_bits : Z :=
  if ulong (2 * src_size) <? LOOKUP_SIZE then CRUSH_HASH_BITS
  else crush_log2 src_size.

(** Phase 1: build the hash chains. *)
Definition le_init_lookup (bits : Z) : M unit :=
  for_loop (Z.to_nat (ulong (Z.shiftl 1 bits))) 0
    (fun i => store (le_lookup + i) NO_MATCH_POS).

Definition le_build_chains (bits : Z) : M unit :=
  if 0 <? le_last_match_pos then
    for_loop (Z.to_nat (le_last_match_pos + 1)) 0
      (fun i =>
         let hash := crush_hash3_bits inp i bits in
         v <- load (le_lookup + hash) ;;
         store (le_prev + i) v ;;
         store (le_lookup + hash) i)
  else ret tt.

(** [for (i = max_len + 1; i <= len; ++i)]: the cheapest length. *)
Fixpoint le_min_cost (n : nat) (cur pos i : Z) (min_cost min_cost_len : Z) : M (Z * Z) :=
  match n with
  | O => ret (min_cost, min_cost_len)
  | S n' =>
      let match_cost := crush_match_cost (ulong (ulong (cur - pos) - 1)) i in
      c <- load (le_cost + (cur + i)) ;;
      assert_ (match_cost <? ulong (ULONG_MAX - c)) ;;
      let cost_here := ulong (match_cost + c) in
      if cost_here <? min_cost
      then le_min_cost n' cur pos (i + 1) cost_here i
      else le_min_cost n' cur pos (i + 1) min_cost min_cost_len
  end.

(** The [do ... while] of the left extension; gives the new [cur]. *)
Fixpoint le_left_extend (fuel : nat) (cur pos min_cost_len : Z) : M Z :=
  match fuel with
  | O => abort
  | S fuel' =>
      let cur := ulong (cur - 1) in
      let pos := ulong (pos - 1) in
      let min_cost_len := ulong (min_cost_len + 1) in
      let match_cost := crush_match_cost (ulong (ulong (cur - pos) - 1)) min_cost_len in
      c <- load (le_cost + (cur + min_cost_len)) ;;
      assert_ (match_cost <? ulong (ULONG_MAX - c)) ;;
      let cost_here := ulong (match_cost + c) in
      store (le_cost + cur) cost_here ;;
      store (le_mpos + cur) pos ;;
      store (le_mlen + cur) min_cost_len ;;
      if (0 <? pos) && (byte_at inp (pos - 1) =? byte_at inp (cur - 1))
         && (min_cost_len <? MAX_MATCH)
      then le_left_extend fuel' cur pos min_cost_len
      else ret cur
  end.

(** The walk along the chain of [prev] matches; gives the value of
    [cur] when the walk ends. *)
Fixpoint le_chain (fuel : nat) (num_chain cur pos max_len len_limit : Z) : M Z :=
  match fuel with
  | O => abort
  | S fuel' =>
      if pos =? NO_MATCH_POS then ret cur
      else if num_chain =? 0 then ret cur
      else
        let num_chain := ulong (num_chain - 1) in
        if W_SIZE <? ulong (cur - pos) then ret cur
        else
          let len :=
            if (max_len <? len_limit)
               && (byte_at inp (pos + max_len) =? byte_at inp (cur + max_len))
            then find_match_len inp pos cur 0 len_limit
            else 0 in
          if max_len <? len then
            ' (min_cost, min_cost_len) <-
              le_min_cost (Z.to_nat (len - max_len)) cur pos (max_len + 1)
                ULONG_MAX (MIN_MATCH - 1) ;;
            let max_len := len in
            c <- load (le_cost + cur) ;;
            if min_cost <? c then
              store (le_cost + cur) min_cost ;;
              store (le_mpos + cur) pos ;;
              store (le_mlen + cur) min_cost_len ;;
              if (0 <? pos) && (byte_at inp (pos - 1) =? byte_at inp (cur - 1))
                 && (min_cost_len <? MAX_MATCH)
              then le_left_extend (Z.to_nat pos) cur pos min_cost_len
              else if (accept_len <=? len) || (len =? len_limit) then ret cur
              else
                pos' <- load (le_prev + pos) ;;
                le_chain fuel' num_chain cur pos' max_len len_limit
            else if (accept_len <=? len) || (len =? len_limit) then ret cur
            else
              pos' <- load (le_prev + pos) ;;
              le_chain fuel' num_chain cur pos' max_len len_limit
          else if (accept_len <=? len) || (len =? len_limit) then ret cur
          else
            pos' <- load (le_prev + pos) ;;
            le_chain fuel' num_chain cur pos' max_len len_limit
  end.

(** One round of the loop of phase 2, at position [cur]; gives the value
    of [cur] at the end of the round, before [--cur]. *)
Definition le_position (cur : Z) : M Z :=
  pos <- load (le_prev + cur) ;;
  assert_ ((pos =? NO_MATCH_POS) || (pos <? cur)) ;;
  c <- load (le_cost + (cur + 1)) ;;
  store (le_cost + cur) (ulong (c + 9)) ;;
  store (le_mlen + cur) 1 ;;
  let max_len := MIN_MATCH - 1 in
  let len_limit :=
    if MAX_MATCH <? src_size - cur then MAX_MATCH else src_size - cur in
  le_chain (S (Z.to_nat max_depth)) max_depth cur pos max_len len_limit.

(** Phase 2: [for (cur = last_match_pos; cur > 0; --cur)]. *)
Fixpoint le_parse (fuel : nat) (cur : Z) : M unit :=
  match fuel with
  | O => if 0 <? cur then abort else ret tt
  | S fuel' =>
      if 0 <? cur then
        cur' <- le_position cur ;;
        le_parse fuel' (cur' - 1)
      else ret tt
  end.

(** Phase 3: [for (i = 0; i < src_size; i += mlen[i])].  Next to the
    bit writer the model keeps the list of the tokens written so far (a
    ghost: the code has no such list). *)
Fixpoint le_emit (fuel : nat) (i : Z) (lbw : lsb_bitwriter) (toks : list token)
    : M (lsb_bitwriter * list token) :=
  match fuel with
  | O => if i <? src_size then abort else ret (lbw, toks)
  | S fuel' =>
      if i <? src_size then
        ml <- load (le_mlen + i) ;;
        ' (lbw', t) <-
          (if ml =? 1 then
             let b := nth (Z.to_nat i) inp x00 in
             ret (put_literal lbw b, Literal b)
           else
             mp <- load (le_mpos + i) ;;
             let offs := ulong (ulong (i - mp) - 1) in
             ret (put_match LEparse lbw ml offs, Match ml (offs + 1))) ;;
        le_emit fuel' (ulong (i + ml)) lbw' (toks ++ [t])
      else ret (lbw, toks)
  end.

(** The bytes stored to [dst] (the return value is their number), and
    the tokens they were written from. *)
Definition crush_pack_leparse : M (list byte * list token) :=
  if src_size =? 0 then ret ([], [])
  else if src_size <? 4 then
    ret (lbw_finalize (put_literals lbw_init inp), map Literal inp)
  else
    let bits := le_hash_bits in
    le_init_lookup bits ;;
    le_build_chains bits ;;
    store (le_mlen + (src_size - 2)) 1 ;;
    store (le_mlen + (src_size - 1)) 1 ;;
    store (le_cost + (src_size - 2)) 18 ;;
    store (le_cost + (src_size - 1)) 9 ;;
    store (le_cost + src_size) 0 ;;
    le_parse (Z.to_nat le_last_match_pos) le_last_match_pos ;;
    store (le_mpos + 0) 0 ;;
    store (le_mlen + 0) 1 ;;
    ' (lbw, toks) <- le_emit (Z.to_nat src_size) 0 lbw_init [] ;;
    ret (lbw_finalize lbw, toks).
End leparse.

(** ** crush_btparse.h: levels 8 to 10 *)

Section btparse.
Variable inp : list byte.
Variables max_depth accept_len : Z.

Let src_size : Z := Z.of_nat (length inp).

(** The arrays laid over [workmem], as offsets in [uint32_t] words. *)
Definition bt_cost : Z := 0.
Definition bt_mpos : Z := bt_cost + src_size + 1.
Definition bt_mlen : Z := bt_mpos + src_size + 1.
Definition bt_nodes : Z := bt_mlen + src_size + 1.
Definition bt_lookup : Z := bt_nodes + 2 * src_size.

Definition bt_last_match_pos : Z := if 3 <? src_size then src_size - 3 else 0.

Definition bt_init_lookup : M unit :=
  for_loop (Z.to_nat LOOKUP_SIZE) 0 (fun i => store (bt_lookup + i) NO_MATCH_POS).

(** [for (i = 0; i <= src_size; ++i) { cost[i] = UINT32_MAX; mlen[i] = 1; }] *)
Definition bt_init_cost : M unit :=
  for_loop (Z.to_nat (src_size + 1)) 0
    (fun i => store (bt_cost + i) UINT32_MAX ;; store (bt_mlen + i) 1).

(** [if (cost[cur + 1] > cost[cur] + 9) { ... }], on [uint32_t]. *)
Definition bt_literal (cur : Z) : M unit :=
  c1 <- load (bt_cost + (cur + 1)) ;;
  c0 <- load (bt_cost + cur) ;;
  if u32 (c0 + 9) <? c1 then
    store (bt_cost + (cur + 1)) (u32 (c0 + 9)) ;;
    store (bt_mlen + (cur + 1)) 1
  else ret tt.

(** [for (i = max_len + 1; i <= len; ++i)]: the matches from [cur] to
    [pos] of every new length. *)
Fixpoint bt_update_costs (n : nat) (cur pos i : Z) : M unit :=
  match n with
  | O => ret tt
  | S n' =>
      let match_cost := crush_match_cost (ulong (ulong (cur - pos) - 1)) i in
      c <- load (bt_cost + cur) ;;
      assert_ (match_cost <? u32 (UINT32_MAX - c)) ;;
      let cost_there := ulong (c + match_cost) in
      ci <- load (bt_cost + (cur + i)) ;;
      (if cost_there <? ci then
         store (bt_cost + (cur + i)) (u32 cost_there) ;;
         store (bt_mpos + (cur + i)) (u32 (ulong (ulong (cur - pos) - 1))) ;;
         store (bt_mlen + (cur + i)) (u32 i)
       else ret tt) ;;
      bt_update_costs n' cur pos (i + 1)
  end.

(** The descent in the tree of [pos], re-rooting it at [cur]; [lt_node]
    and [gt_node] are word addresses in [workmem].  Gives the value of
    [next_match_cur] when the descent ends. *)
Fixpoint bt_walk (fuel : nat) (num_chain cur pos lt_node gt_node lt_len gt_len
    max_len next_match_cur len_limit : Z) : M Z :=
  match fuel with
  | O => abort
  | S fuel' =>
      if (pos =? NO_MATCH_POS) || (W_SIZE <? ulong (cur - pos)) || (num_chain =? 0)
      then
        store lt_node NO_MATCH_POS ;;
        store gt_node NO_MATCH_POS ;;
        ret next_match_cur
      else
        let num_chain := ulong (num_chain - 1) in
        let len := if lt_len <? gt_len then lt_len else gt_len in
        let len := find_match_len inp pos cur len len_limit in
        ' (max_len, next_match_cur) <-
          (if (cur =? next_match_cur) && (max_len <? len) then
             bt_update_costs (Z.to_nat (len - max_len)) cur pos (max_len + 1) ;;
             ret (len, if accept_len <=? len then ulong (cur + len) else next_match_cur)
           else ret (max_len, next_match_cur)) ;;
        if (accept_len <=? len) || (len =? len_limit) then
          l <- load (bt_nodes + 2 * pos) ;;
          store lt_node l ;;
          g <- load (bt_nodes + (2 * pos + 1)) ;;
          store gt_node g ;;
          ret next_match_cur
        else if byte_at inp (pos + len) <? byte_at inp (cur + len) then
          store lt_node pos ;;
          let lt_node := bt_nodes + (2 * pos + 1) in
          p <- load lt_node ;;
          assert_ ((p =? NO_MATCH_POS) || (p <? pos)) ;;
          bt_walk fuel' num_chain cur p lt_node gt_node len gt_len
            max_len next_match_cur len_limit
        else
          store gt_node pos ;;
          let gt_node := bt_nodes + 2 * pos in
          p <- load gt_node ;;
          assert_ ((p =? NO_MATCH_POS) || (p <? pos)) ;;
          bt_walk fuel' num_chain cur p lt_node gt_node lt_len len
            max_len next_match_cur len_limit
  end.

(** One round of the loop of phase 1, at position [cur]; gives the new
    [next_match_cur]. *)
Definition bt_position (cur next_match_cur : Z) : M Z :=
  bt_literal cur ;;
  let next_match_cur := if next_match_cur <? cur then cur else next_match_cur in
  let max_len := MIN_MATCH - 1 in
  let hash := crush_hash3_bits inp cur CRUSH_HASH_BITS in
  pos <- load (bt_lookup + hash) ;;
  store (bt_lookup + hash) (u32 cur) ;;
  let lt_node := bt_nodes + 2 * cur in
  let gt_node := bt_nodes + (2 * cur + 1) in
  assert_ ((pos =? NO_MATCH_POS) || (pos <? cur)) ;;
  let len_left := if MAX_MATCH <? src_size - cur then MAX_MATCH else src_size - cur in
  let len_limit :=
    if cur =? next_match_cur then len_left
    else if accept_len <? len_left then accept_len else len_left in
  bt_walk (S (Z.to_nat cur)) max_depth cur pos lt_node gt_node 0 0
    max_len next_match_cur len_limit.

(** Phase 1: [for (cur = 0; cur <= last_match_pos; ++cur)]. *)
Fixpoint bt_parse (n : nat) (cur next_match_cur : Z) : M unit :=
  match n with
  | O => ret tt
  | S n' =>
      nmc <- bt_position cur next_match_cur ;;
      bt_parse n' (cur + 1) nmc
  end.

(** [for (cur = last_match_pos + 1; cur < src_size; ++cur)]. *)
Definition bt_tail_literals : M unit :=
  for_loop (Z.to_nat (src_size - (bt_last_match_pos + 1))) (bt_last_match_pos + 1)
    bt_literal.

(** Phase 2: [for (cur = src_size; cur > 0; cur -= mlen[cur], --next_token)];
    gives the final [next_token]. *)
Fixpoint bt_gather (fuel : nat) (cur next_token : Z) : M Z :=
  match fuel with
  | O => if 0 <? cur then abort else ret next_token
  | S fuel' =>
      if 0 <? cur then
        ml <- load (bt_mlen + cur) ;;
        store (bt_mlen + next_token) ml ;;
        mp <- load (bt_mpos + cur) ;;
        store (bt_mpos + next_token) mp ;;
        ml' <- load (bt_mlen + cur) ;;
        bt_gather fuel' (ulong (cur - ml')) (ulong (next_token - 1))
      else ret next_token
  end.

(** Phase 3: [for (i = next_token + 1; i <= src_size; cur += mlen[i++])],
    with the ghost list of the tokens written so far. *)
Fixpoint bt_emit (n : nat) (i cur : Z) (lbw : lsb_bitwriter) (toks : list token)
    : M (lsb_bitwriter * list token) :=
  match n with
  | O => ret (lbw, toks)
  | S n' =>
      ml <- load (bt_mlen + i) ;;
      ' (lbw', t) <-
        (if ml =? 1 then
           let b := nth (Z.to_nat cur) inp x00 in
           ret (put_literal lbw b, Literal b)
         else
           offs <- load (bt_mpos + i) ;;
           ret (put_match BTparse lbw ml offs, Match ml (offs + 1))) ;;
      bt_emit n' (i + 1) (ulong (cur + ml)) lbw' (toks ++ [t])
  end.

(** The bytes stored to [dst] (the return value is their number), and
    the tokens they were written from. *)
Definition crush_pack_btparse : M (list byte * list token) :=
  if src_size =? 0 then ret ([], [])
  else if src_size <? 4 then
    ret (lbw_finalize (put_literals lbw_init inp), map Literal inp)
  else
    bt_init_lookup ;;
    bt_init_cost ;;
    store (bt_cost + 0) 0 ;;
    bt_parse (Z.to_nat (bt_last_match_pos + 1)) 0 0 ;;
    bt_tail_literals ;;
    next_token <- bt_gather (Z.to_nat src_size) src_size src_size ;;
    ' (lbw, toks) <-
      bt_emit (Z.to_nat (src_size - next_token)) (next_token + 1) 0 lbw_init [] ;;
    ret (lbw_finalize lbw, toks).
End btparse.

(** ** crush_pack_level *)

(** What a call of [crush_pack_level] returns: the packed bytes stored to
    [dst] (the return value is their number) with the tokens they were
    written from, or [CRUSH_ERROR]. *)
Inductive pack_result :=
  | Packed (dst : list byte) (toks : list token)
  | PackError.

Definition pack_return (r : pack_result) : Z :=
  match r with
  | Packed dst _ => Z.of_nat (length dst)
  | PackError => CRUSH_ERROR
  end.

Definition packed (m : M (list byte * list token)) : M pack_result :=
  r <- m ;; ret (Packed (fst r) (snd r)).

Definition crush_pack_level (inp : list byte) (level : Z) : M pack_result :=
  match level with
  | 5 => packed (crush_pack_leparse inp 1 16)
  | 6 => packed (crush_pack_leparse inp 8 32)
  | 7 => packed (crush_pack_leparse inp 64 64)
  | 8 => packed (crush_pack_btparse inp 16 96)
  | 9 => packed (crush_pack_btparse inp 32 224)
  | 10 => packed (crush_pack_btparse inp ULONG_MAX ULONG_MAX)
  | _ => ret PackError
  end.

(** [crush_leparse_workmem_size] and [crush_btparse_workmem_size], in
    bytes. *)
Definition crush_leparse_workmem_size (src_size : Z) : Z :=
  ulong ((if LOOKUP_SIZE <? ulong (2 * src_size) then ulong (3 * src_size)
          else ulong (src_size + LOOKUP_SIZE)) * 8).

Definition crush_btparse_workmem_size (src_size : Z) : Z :=
  ulong ((5 * src_size + 3 + LOOKUP_SIZE) * 4).

Close Scope wm_scope.

(** * Bit-level facts *)

Lemma byte_val_range b : 0 <= byte_val b < 256.
Proof.
  unfold byte_val. pose proof (Byte.to_N_bounded b). lia.
Qed.

Lemma byte_of_val b : byte_of (byte_val b) = b.
Proof.
  unfold byte_of. pose proof (byte_val_range b) as Hr.
  rewrite Z.mod_small by lia. unfold byte_val.
  rewrite N2Z.id, Byte.of_to_N. reflexivity.
Qed.

Lemma byte_val_of z : byte_val (byte_of z) = z mod 256.
Proof.
  unfold byte_of, byte_val.
  pose proof (Z.mod_pos_bound z 256 ltac:(lia)) as Hr.
  destruct (Byte.of_N (Z.to_N (z mod 256))) as [b|] eqn:Hb.
  - apply Byte.to_of_N in Hb. rewrite Hb. lia.
  - apply Byte.of_N_None_iff in Hb. lia.
Qed.

Lemma shiftl_pow2 a n : 0 <= n -> Z.shiftl a n = a * 2 ^ n.
Proof. apply Z.shiftl_mul_pow2. Qed.

Lemma shiftr_pow2 a n : 0 <= n -> Z.shiftr a n = a / 2 ^ n.
Proof. apply Z.shiftr_div_pow2. Qed.

Lemma land_mask a n : 0 <= n -> Z.land a (Z.shiftl 1 n - 1) = a mod 2 ^ n.
Proof.
  intros Hn. rewrite shiftl_pow2 by lia. rewrite Z.mul_1_l.
  rewrite <- Z.land_ones by lia. rewrite Z.ones_equiv. reflexivity.
Qed.

Lemma land_disjoint a b k :
  0 <= k -> 0 <= a < 2 ^ k -> Z.land a (b * 2 ^ k) = 0.
Proof.
  intros Hk Ha. apply Z.bits_inj'. intros n Hn.
  rewrite Z.land_spec, Z.bits_0.
  destruct (Z.lt_ge_cases n k) as [Hlt|Hge].
  - rewrite Z.mul_pow2_bits_low by lia. apply andb_false_r.
  - rewrite <- (Z.mod_small a (2 ^ k)) by lia.
    rewrite Z.mod_pow2_bits_high by lia. reflexivity.
Qed.

Lemma lor_shifted a b k :
  0 <= k -> 0 <= a < 2 ^ k -> Z.lor a (b * 2 ^ k) = a + b * 2 ^ k.
Proof.
  intros Hk Ha. pose proof (Z.add_lor_land a (b * 2 ^ k)) as H.
  rewrite land_disjoint in H by lia. lia.
Qed.

Lemma pow2_gt0 n : 0 <= n -> 0 < 2 ^ n.
Proof. intros. apply Z.pow_pos_nonneg; lia. Qed.

Lemma pow2_split n m : 0 <= n -> 0 <= m -> 2 ^ (n + m) = 2 ^ n * 2 ^ m.
Proof. intros. apply Z.pow_add_r; lia. Qed.

Lemma pow2_mono n m : 0 <= n <= m -> 2 ^ n <= 2 ^ m.
Proof. intros. apply Z.pow_le_mono_r; lia. Qed.

Lemma low_part v n R : 0 <= n -> 0 <= v < 2 ^ n -> (v + 2 ^ n * R) mod 2 ^ n = v.
Proof.
  intros Hn Hv. rewrite Z.mul_comm, Z.mod_add by lia. apply Z.mod_small; lia.
Qed.

Lemma high_part v n R : 0 <= n -> 0 <= v < 2 ^ n -> (v + 2 ^ n * R) / 2 ^ n = R.
Proof.
  intros Hn Hv. rewrite Z.mul_comm, Z.div_add by lia.
  rewrite Z.div_small by lia. lia.
Qed.

(** * Little-endian value of a byte string *)

Fixpoint le_val (l : list byte) : Z :=
  match l with
  | [] => 0
  | b :: l' => byte_val b + 256 * le_val l'
  end.

Lemma le_val_nonneg l : 0 <= le_val l.
Proof.
  induction l as [|b l IH]; simpl; [lia|]. pose proof (byte_val_range b). lia.
Qed.

Lemma le_val_app l1 l2 :
  le_val (l1 ++ l2) = le_val l1 + 2 ^ (8 * Z.of_nat (length l1)) * le_val l2.
Proof.
  induction l1 as [|b l1 IH]; simpl length; simpl app; simpl le_val.
  - simpl. lia.
  - rewrite IH. replace (8 * Z.of_nat (S (length l1))) with (8 + 8 * Z.of_nat (length l1)) by lia.
    rewrite pow2_split by lia. change (2 ^ 8) with 256. ring.
Qed.

Lemma le_val_bound l : le_val l < 2 ^ (8 * Z.of_nat (length l)).
Proof.
  induction l as [|b l IH]; simpl length; simpl le_val.
  - simpl. lia.
  - replace (8 * Z.of_nat (S (length l))) with (8 + 8 * Z.of_nat (length l)) by lia.
    rewrite pow2_split by lia. change (2 ^ 8) with 256.
    pose proof (byte_val_range b). lia.
Qed.

Lemma le_val_inj l1 l2 :
  length l1 = length l2 -> le_val l1 = le_val l2 -> l1 = l2.
Proof.
  revert l2. induction l1 as [|a l1 IH]; intros [|b l2] Hlen Hv; simpl in *; try discriminate.
  - reflexivity.
  - pose proof (byte_val_range a). pose proof (byte_val_range b).
    assert (byte_val a = byte_val b) by lia.
    assert (le_val l1 = le_val l2) by lia.
    f_equal.
    + rewrite <- (byte_of_val a), <- (byte_of_val b). congruence.
    + apply IH; congruence.
Qed.

(** * The bit writer as an append-only bit string *)

(** The bits written so far, as a number (bit [i] of the stream is bit [i]
    of the number), and how many they are. *)
Definition wval (w : lsb_bitwriter) : Z :=
  le_val (lbw_out w) + 2 ^ (8 * Z.of_nat (length (lbw_out w))) * lbw_tag w.

Definition wbits (w : lsb_bitwriter) : Z :=
  8 * Z.of_nat (length (lbw_out w)) + lbw_msb w.

Definition lbw_ok (w : lsb_bitwriter) : Prop :=
  0 <= lbw_msb w <= 32 /\ 0 <= lbw_tag w < 2 ^ lbw_msb w.

Lemma lbw_init_ok : lbw_ok lbw_init.
Proof. unfold lbw_ok, lbw_init; simpl. lia. Qed.

Lemma lbw_emit_byte_val w : 0 <= lbw_tag w -> wval (lbw_emit_byte w) = wval w.
Proof.
  intros Ht. unfold wval, lbw_emit_byte; simpl.
  rewrite le_val_app, length_app. simpl length. simpl le_val.
  rewrite byte_val_of, shiftr_pow2 by lia.
  replace (8 * Z.of_nat (length (lbw_out w) + 1)) with (8 * Z.of_nat (length (lbw_out w)) + 8) by lia.
  rewrite pow2_split by lia. change (2 ^ 8) with 256.
  pose proof (Z.div_mod (lbw_tag w) 256 ltac:(lia)). nia.
Qed.

Lemma lbw_emit_byte_bits w : wbits (lbw_emit_byte w) = wbits w.
Proof.
  unfold wbits, lbw_emit_byte; simpl. rewrite length_app. simpl. lia.
Qed.

Lemma lbw_emit_byte_ok w : lbw_ok w -> 8 <= lbw_msb w -> lbw_ok (lbw_emit_byte w).
Proof.
  intros [Hm Ht] H8. unfold lbw_ok, lbw_emit_byte; simpl.
  rewrite shiftr_pow2 by lia. split; [lia|]. split.
  - apply Z.div_pos; lia.
  - apply Z.div_lt_upper_bound; [lia|].
    change 256 with (2 ^ 8). rewrite <- pow2_split by lia.
    replace (8 + (lbw_msb w - 8)) with (lbw_msb w) by lia. lia.
Qed.

Lemma lbw_flush_loop_spec fuel w num :
  lbw_ok w -> 0 <= num <= 24 -> (Z.to_nat (lbw_msb w) <= fuel)%nat ->
  lbw_ok (lbw_flush_loop fuel w num) /\
  lbw_msb (lbw_flush_loop fuel w num) <= 32 - num /\
  wval (lbw_flush_loop fuel w num) = wval w /\
  wbits (lbw_flush_loop fuel w num) = wbits w.
Proof.
  revert w. induction fuel as [|fuel IH]; intros w Hok Hnum Hfuel; simpl.
  - split; [exact Hok|]. destruct Hok as [Hm Ht]. lia.
  - destruct (32 - num <? lbw_msb w) eqn:Hc.
    + apply Z.ltb_lt in Hc.
      assert (Hok' : lbw_ok (lbw_emit_byte w)) by (apply lbw_emit_byte_ok; [assumption|lia]).
      destruct (IH (lbw_emit_byte w) Hok' Hnum) as (H1 & H2 & H3 & H4).
      { simpl. lia. }
      split; [exact H1|]. split; [exact H2|]. split.
      * rewrite H3. apply lbw_emit_byte_val. destruct Hok; lia.
      * rewrite H4. apply lbw_emit_byte_bits.
    + apply Z.ltb_ge in Hc. split; [exact Hok|]. lia.
Qed.

Lemma lbw_putbits_spec w bits num :
  lbw_ok w -> 0 <= num <= 24 -> 0 <= bits < 2 ^ num ->
  lbw_ok (lbw_putbits w bits num) /\
  wval (lbw_putbits w bits num) = wval w + 2 ^ wbits w * bits /\
  wbits (lbw_putbits w bits num) = wbits w + num.
Proof.
  intros Hok Hnum Hbits.
  destruct (lbw_flush_loop_spec (Z.to_nat (lbw_msb w)) w num Hok Hnum (le_n _))
    as ([Hm Ht] & Hle & Hv & Hb).
  unfold lbw_putbits, lbw_flush.
  set (f := lbw_flush_loop _ w num) in *.
  assert (Hb32 : bits < 2 ^ 32).
  { pose proof (pow2_mono num 32 ltac:(lia)). lia. }
  assert (Hsh : u32 (Z.shiftl (u32 bits) (lbw_msb f)) = bits * 2 ^ lbw_msb f).
  { unfold u32. rewrite (Z.mod_small bits) by lia. rewrite shiftl_pow2 by lia.
    apply Z.mod_small. split; [apply Z.mul_nonneg_nonneg; lia|].
    pose proof (pow2_mono (num + lbw_msb f) 32 ltac:(lia)) as Hp.
    rewrite pow2_split in Hp by lia.
    pose proof (pow2_gt0 (lbw_msb f) ltac:(lia)). nia. }
  unfold lbw_ok, wval, wbits, lbw_putbits_no_flush; simpl.
  rewrite Hsh, lor_shifted by lia.
  unfold wval, wbits in Hv, Hb. rewrite <- Hv, <- Hb.
  pose proof (pow2_gt0 (lbw_msb f) ltac:(lia)).
  repeat split; try lia.
  - rewrite (Z.add_comm (lbw_msb f)), pow2_split by lia. nia.
  - rewrite pow2_split by lia. ring.
Qed.

(** The [assert]s of [lbw_flush] and [lbw_putbits_no_flush]:
    [lbw->msb >= 0] after the flush, [num <= 32 - lbw->msb] and
    [(bits & (~0ULL << num)) == 0]. *)
Lemma lbw_putbits_asserts w bits num :
  lbw_ok w -> 0 <= num <= 24 -> 0 <= bits < 2 ^ num ->
  0 <= lbw_msb (lbw_flush w num) /\ num <= 32 - lbw_msb (lbw_flush w num) /\
  Z.land bits (Z.shiftl (-1) num) = 0.
Proof.
  intros Hok Hnum Hbits.
  destruct (lbw_flush_loop_spec (Z.to_nat (lbw_msb w)) w num Hok Hnum (le_n _))
    as ([Hm Ht] & Hle & _).
  unfold lbw_flush. split; [lia|]. split; [lia|].
  apply Z.bits_inj'. intros i Hi.
  rewrite Z.land_spec, Z.bits_0, Z.shiftl_spec by lia.
  destruct (Z.lt_ge_cases i num) as [Hlt|Hge].
  - rewrite (Z.testbit_neg_r (-1)) by lia. apply andb_false_r.
  - replace (Z.testbit bits i) with false; [reflexivity|].
    symmetry. apply Z.testbit_false; [lia|].
    pose proof (pow2_mono num i ltac:(lia)).
    rewrite Z.div_small by lia. reflexivity.
Qed.

Lemma lbw_finalize_loop_spec fuel w :
  0 <= lbw_tag w -> (lbw_msb w <= 0 -> lbw_tag w = 0) ->
  lbw_tag w < 2 ^ Z.max 0 (lbw_msb w) ->
  (Z.to_nat (lbw_msb w) <= fuel)%nat ->
  le_val (lbw_out (lbw_finalize_loop fuel w)) = wval w /\
  Z.of_nat (length (lbw_out (lbw_finalize_loop fuel w))) =
    Z.of_nat (length (lbw_out w)) + (Z.max 0 (lbw_msb w) + 7) / 8.
Proof.
  revert w. induction fuel as [|fuel IH]; intros w Ht H0 Hlt Hfuel; simpl.
  - assert (lbw_msb w <= 0) by lia. unfold wval. rewrite H0 by lia.
    rewrite Z.max_l by lia. Z.div_mod_to_equations; lia.
  - destruct (0 <? lbw_msb w) eqn:Hc.
    + apply Z.ltb_lt in Hc.
      rewrite Z.max_r in Hlt by lia.
      assert (Hdiv : 0 <= lbw_tag w / 256) by (apply Z.div_pos; lia).
      destruct (IH (lbw_emit_byte w)) as (H1 & H2).
      * simpl. rewrite shiftr_pow2 by lia. exact Hdiv.
      * simpl. rewrite shiftr_pow2 by lia. intros Hle.
        apply Z.div_small. split; [lia|].
        pose proof (pow2_mono (lbw_msb w) 8 ltac:(lia)). change (2 ^ 8) with 256 in *. lia.
      * simpl. rewrite shiftr_pow2 by lia.
        apply Z.div_lt_upper_bound; [lia|]. change (2 ^ 8) with 256.
        destruct (Z.le_gt_cases (lbw_msb w) 8).
        -- rewrite Z.max_l by lia. simpl.
           pose proof (pow2_mono (lbw_msb w) 8 ltac:(lia)). change (2 ^ 8) with 256 in *. lia.
        -- rewrite Z.max_r by lia. change 256 with (2 ^ 8). rewrite <- pow2_split by lia.
           replace (8 + (lbw_msb w - 8)) with (lbw_msb w) by lia. lia.
      * simpl. lia.
      * rewrite H1, H2. split; [apply lbw_emit_byte_val; lia|].
        simpl. rewrite length_app. simpl length.
        rewrite (Z.max_r 0 (lbw_msb w)) by lia.
        destruct (Z.le_gt_cases (lbw_msb w) 8).
        -- rewrite Z.max_l by lia.
           simpl. Z.div_mod_to_equations; lia.
        -- rewrite Z.max_r by lia.
           simpl. Z.div_mod_to_equations; lia.
    + apply Z.ltb_ge in Hc. unfold wval. rewrite H0 by lia.
      rewrite Z.max_l by lia. Z.div_mod_to_equations; lia.
Qed.

Lemma lbw_finalize_spec w :
  lbw_ok w ->
  le_val (lbw_finalize w) = wval w /\
  Z.of_nat (length (lbw_finalize w)) = (wbits w + 7) / 8.
Proof.
  intros [Hm Ht]. unfold lbw_finalize.
  destruct (lbw_finalize_loop_spec (Z.to_nat (lbw_msb w)) w) as (H1 & H2); try lia.
  - intros Hle. assert (lbw_msb w = 0) by lia.
    replace (lbw_msb w) with 0 in Ht by lia. simpl in Ht. lia.
  - rewrite Z.max_r by lia. lia.
  - split; [exact H1|]. rewrite H2. rewrite Z.max_r by lia. unfold wbits.
    replace (8 * Z.of_nat (length (lbw_out w)) + lbw_msb w + 7)
      with (lbw_msb w + 7 + Z.of_nat (length (lbw_out w)) * 8) by lia.
    rewrite Z.div_add by lia. lia.
Qed.

(** * Strings of bit fields *)

(** A token is written as a few bit fields [(value, width)].  [sval fs R]
    is the bit string that starts with the fields [fs], first field lowest,
    and goes on with the bit string [R]. *)
Fixpoint sval (fs : list (Z * Z)) (R : Z) : Z :=
  match fs with
  | [] => R
  | f :: fs' => fst f + 2 ^ snd f * sval fs' R
  end.

Fixpoint fwidth (fs : list (Z * Z)) : Z :=
  match fs with
  | [] => 0
  | f :: fs' => snd f + fwidth fs'
  end.

Definition field_ok (f : Z * Z) : Prop :=
  1 <= snd f <= 24 /\ 0 <= fst f < 2 ^ snd f.

Definition put_fields (w : lsb_bitwriter) (fs : list (Z * Z)) : lsb_bitwriter :=
  fold_left (fun w f => lbw_putbits w (fst f) (snd f)) fs w.

Lemma fwidth_nonneg fs : Forall field_ok fs -> 0 <= fwidth fs.
Proof.
  induction 1 as [|f fs [Hf _] _ IH]; simpl; lia.
Qed.

Lemma fwidth_app fs1 fs2 : fwidth (fs1 ++ fs2) = fwidth fs1 + fwidth fs2.
Proof. induction fs1 as [|f fs1 IH]; simpl; lia. Qed.

Lemma sval_app fs1 fs2 R : sval (fs1 ++ fs2) R = sval fs1 (sval fs2 R).
Proof. induction fs1 as [|f fs1 IH]; simpl; congruence. Qed.

Lemma sval_tail fs R :
  Forall field_ok fs -> sval fs R = sval fs 0 + 2 ^ fwidth fs * R.
Proof.
  induction 1 as [|f fs [Hf _] Hfs IH]; simpl.
  - lia.
  - rewrite IH. pose proof (fwidth_nonneg fs Hfs).
    rewrite pow2_split by lia. ring.
Qed.

Lemma sval_nonneg fs R : Forall field_ok fs -> 0 <= R -> 0 <= sval fs R.
Proof.
  induction 1 as [|f fs [Hf Hv] _ IH]; simpl; intros HR; [lia|].
  pose proof (pow2_gt0 (snd f) ltac:(lia)). specialize (IH HR). nia.
Qed.

Lemma sval_bound fs : Forall field_ok fs -> 0 <= sval fs 0 < 2 ^ fwidth fs.
Proof.
  induction 1 as [|f fs [Hf Hv] Hfs IH]; simpl; [lia|].
  pose proof (fwidth_nonneg fs Hfs).
  rewrite pow2_split by lia.
  pose proof (pow2_gt0 (snd f) ltac:(lia)). nia.
Qed.

Lemma put_fields_app w fs1 fs2 :
  put_fields w (fs1 ++ fs2) = put_fields (put_fields w fs1) fs2.
Proof. apply fold_left_app. Qed.

Lemma put_fields_spec fs : forall w,
  lbw_ok w -> Forall field_ok fs ->
  lbw_ok (put_fields w fs) /\
  wval (put_fields w fs) = wval w + 2 ^ wbits w * sval fs 0 /\
  wbits (put_fields w fs) = wbits w + fwidth fs.
Proof.
  induction fs as [|f fs IH]; intros w Hok Hfs; simpl.
  - split; [exact Hok|]. lia.
  - inversion Hfs as [|f' fs' [Hn Hv] Hfs']; subst.
    destruct (lbw_putbits_spec w (fst f) (snd f) Hok ltac:(lia) Hv) as (Hok1 & Hv1 & Hb1).
    destruct (IH _ Hok1 Hfs') as (Hok2 & Hv2 & Hb2).
    split; [exact Hok2|]. fold (put_fields (lbw_putbits w (fst f) (snd f)) fs).
    rewrite Hv2, Hb2, Hv1, Hb1. split; [|lia].
    assert (0 <= wbits w).
    { destruct Hok as [Hm _]. unfold wbits. lia. }
    rewrite pow2_split by lia. ring.
Qed.

(** * crush_log2 and the slot search of crush_leparse.h *)

Lemma crush_log2_loop_spec fuel : forall n bits,
  0 < n < 2 ^ Z.of_nat fuel ->
  crush_log2_loop fuel n bits = bits + Z.log2 n.
Proof.
  induction fuel as [|fuel IH]; intros n bits Hn.
  - simpl in Hn. lia.
  - simpl crush_log2_loop. rewrite shiftr_pow2 by lia. change (2 ^ 1) with 2.
    destruct (n / 2 =? 0) eqn:Hz.
    + apply Z.eqb_eq in Hz. assert (n = 1) by (Z.div_mod_to_equations; lia).
      subst n. simpl. lia.
    + apply Z.eqb_neq in Hz.
      assert (Hn2 : 2 <= n) by (Z.div_mod_to_equations; lia).
      rewrite IH.
      * assert (Hl : 1 <= Z.log2 n) by (apply Z.log2_le_pow2; simpl; lia).
        pose proof (Z.log2_shiftr n 1 ltac:(lia)) as Hs.
        rewrite shiftr_pow2 in Hs by lia. change (2 ^ 1) with 2 in Hs.
        rewrite Hs. lia.
      * replace (Z.of_nat (S fuel)) with (Z.of_nat fuel + 1) in Hn by lia.
        rewrite pow2_split in Hn by lia. change (2 ^ 1) with 2 in Hn.
        Z.div_mod_to_equations; lia.
Qed.

Lemma crush_log2_spec n : 0 < n < 2 ^ 64 -> crush_log2 n = Z.log2 n.
Proof.
  intros Hn. unfold crush_log2. rewrite crush_log2_loop_spec; [lia|].
  change (Z.of_nat 64) with 64. lia.
Qed.

Lemma le_mlog_loop_spec fuel : forall offs mlog,
  0 <= offs < 2 ^ 62 -> 5 <= mlog <= 62 -> 62 <= mlog + Z.of_nat fuel ->
  (mlog = 5 \/ 2 ^ mlog <= offs) ->
  let r := le_mlog_loop fuel offs mlog in
  5 <= r <= 62 /\ offs < 2 ^ (r + 1) /\ (r = 5 \/ 2 ^ r <= offs).
Proof.
  induction fuel as [|fuel IH]; intros offs mlog Ho Hm Hf Hlow; simpl.
  - assert (mlog = 62) by lia. subst mlog.
    split; [lia|]. split; [|exact Hlow].
    pose proof (pow2_mono 62 63 ltac:(lia)). simpl in *. lia.
  - assert (Hs : ulong (Z.shiftl 2 mlog) = 2 ^ (mlog + 1)).
    { unfold ulong. rewrite shiftl_pow2 by lia.
      replace (2 * 2 ^ mlog) with (2 ^ (mlog + 1))
        by (rewrite pow2_split by lia; change (2 ^ 1) with 2; ring).
      apply Z.mod_small. split; [apply Z.lt_le_incl, pow2_gt0; lia|].
      apply Z.pow_lt_mono_r; lia. }
    rewrite Hs.
    destruct (2 ^ (mlog + 1) <=? offs) eqn:Hc.
    + apply Z.leb_le in Hc.
      assert (mlog + 1 <= 62).
      { destruct (Z.le_gt_cases (mlog + 1) 62); [lia|].
        pose proof (pow2_mono 62 (mlog + 1) ltac:(lia)). lia. }
      apply IH; try lia.
    + apply Z.leb_gt in Hc. split; [lia|]. split; [lia|exact Hlow].
Qed.

Lemma le_mlog_small offs :
  0 <= offs < 64 -> le_mlog_loop 64 offs (W_BITS - NUM_SLOTS) = 5.
Proof.
  intros Ho. change (W_BITS - NUM_SLOTS) with 5.
  assert (Ho' : 0 <= offs < 2 ^ 62).
  { pose proof (pow2_mono 6 62 ltac:(lia)). change (2 ^ 6) with 64 in *. lia. }
  destruct (le_mlog_loop_spec 64 offs 5 Ho' ltac:(lia) ltac:(lia) ltac:(lia))
    as (H1 & H2 & [H3|H3]).
  - exact H3.
  - set (r := le_mlog_loop 64 offs 5) in *.
    destruct (Z.eq_dec r 5); [assumption|].
    pose proof (pow2_mono 6 r ltac:(lia)) as Hp. change (2 ^ 6) with 64 in Hp. lia.
Qed.

Lemma le_mlog_large offs :
  64 <= offs < 2 ^ 62 -> le_mlog_loop 64 offs (W_BITS - NUM_SLOTS) = Z.log2 offs.
Proof.
  intros Ho. change (W_BITS - NUM_SLOTS) with 5.
  destruct (le_mlog_loop_spec 64 offs 5 ltac:(lia) ltac:(lia) ltac:(lia) ltac:(lia))
    as (H1 & H2 & H3).
  set (r := le_mlog_loop 64 offs 5) in *.
  symmetry. apply Z.log2_unique; [lia|].
  replace (Z.succ r) with (r + 1) by lia. split; [|exact H2].
  destruct H3 as [H3|H3]; [|exact H3]. rewrite H3. change (2 ^ 5) with 32. lia.
Qed.

(** * The bit fields of a token *)

Definition len_fields (l : Z) : list (Z * Z) :=
  if l <? A then [(1, 1); (l, A_BITS)]
  else if l <? B then [(2, 2); (l - A, B_BITS)]
  else if l <? C then [(4, 3); (l - B, C_BITS)]
  else if l <? D then [(8, 4); (l - C, D_BITS)]
  else if l <? E then [(16, 5); (l - D, E_BITS)]
  else [(0, 5); (l - E, F_BITS)].

Definition offs_fields (o : Z) : list (Z * Z) :=
  if o <? 64 then [(0, SLOT_BITS); (o, 6)]
  else [(Z.log2 o - 5, SLOT_BITS); (o - 2 ^ Z.log2 o, Z.log2 o)].

Definition token_fields (t : token) : list (Z * Z) :=
  match t with
  | Literal b => [(2 * byte_val b, 9)]
  | Match len offs => (1, 1) :: len_fields (len - MIN_MATCH) ++ offs_fields (offs - 1)
  end.

(** The tokens of the format: lengths [MIN_MATCH .. MAX_MATCH], offsets
    [1 .. W_SIZE]. *)
Definition token_ok (t : token) : Prop :=
  match t with
  | Literal _ => True
  | Match len offs => MIN_MATCH <= len <= MAX_MATCH /\ 1 <= offs <= W_SIZE
  end.

(** The number of bits of a token. *)
Definition token_bits (t : token) : Z := fwidth (token_fields t).

Ltac field_ok_tac :=
  unfold field_ok; cbv [fst snd A_BITS B_BITS C_BITS D_BITS E_BITS F_BITS SLOT_BITS];
  repeat match goal with |- context [2 ^ ?n] =>
    let v := eval compute in (2 ^ n) in progress change (2 ^ n) with v end;
  lia.

Ltac fields_ok_tac :=
  repeat (constructor; [field_ok_tac|]); constructor.

Ltac split_ltb :=
  repeat match goal with
  | |- context [?a <? ?b] =>
      let H := fresh "Hc" in
      destruct (a <? b) eqn:H; [apply Z.ltb_lt in H | apply Z.ltb_ge in H]
  | |- context [?a <=? ?b] =>
      let H := fresh "Hc" in
      destruct (a <=? b) eqn:H; [apply Z.leb_le in H | apply Z.leb_gt in H]
  end.

Lemma consts_values :
  A = 4 /\ B = 8 /\ C = 12 /\ D = 20 /\ E = 52 /\ F = 564 /\
  MIN_MATCH = 3 /\ MAX_MATCH = 566 /\ W_SIZE = 2097152 /\
  W_BITS = 21 /\ NUM_SLOTS = 16 /\ SLOT_BITS = 4.
Proof. repeat split; reflexivity. Qed.

Lemma len_fields_ok l : 0 <= l < F -> Forall field_ok (len_fields l).
Proof.
  intros Hl. unfold len_fields.
  change A with 4; change B with 8; change C with 12; change D with 20;
  change E with 52; change F with 564 in Hl.
  split_ltb; fields_ok_tac.
Qed.

Lemma log2_bounds o : 64 <= o < 2 ^ 21 ->
  6 <= Z.log2 o <= 20 /\ 2 ^ Z.log2 o <= o < 2 * 2 ^ Z.log2 o.
Proof.
  intros Ho.
  pose proof (Z.log2_spec o ltac:(lia)) as Hs.
  replace (Z.succ (Z.log2 o)) with (1 + Z.log2 o) in Hs by lia.
  pose proof (Z.log2_nonneg o).
  rewrite pow2_split in Hs by lia. change (2 ^ 1) with 2 in Hs.
  split; [|lia]. split.
  - apply Z.log2_le_pow2; [lia|]. change (2 ^ 6) with 64. lia.
  - assert (Z.log2 o < 21); [|lia]. apply Z.log2_lt_pow2; lia.
Qed.

Lemma offs_fields_ok o : 0 <= o < 2 ^ 21 -> Forall field_ok (offs_fields o).
Proof.
  intros Ho. unfold offs_fields. change SLOT_BITS with 4.
  split_ltb.
  - fields_ok_tac.
  - destruct (log2_bounds o ltac:(lia)) as (Hl & Hp).
    constructor; [field_ok_tac|].
    constructor; [|constructor].
    unfold field_ok; simpl; lia.
Qed.

Lemma token_fields_ok t : token_ok t -> Forall field_ok (token_fields t).
Proof.
  destruct t as [b|len offs]; simpl.
  - intros _. pose proof (byte_val_range b). fields_ok_tac.
  - change MIN_MATCH with 3; change MAX_MATCH with 566; change W_SIZE with (2 ^ 21).
    intros [Hl Ho]. constructor; [field_ok_tac|].
    apply Forall_app. split.
    + apply len_fields_ok. change F with 564. lia.
    + apply offs_fields_ok. lia.
Qed.

Lemma ulong_small x : 0 <= x < 2 ^ 64 -> ulong x = x.
Proof. intros. apply Z.mod_small; assumption. Qed.

Lemma u32_small x : 0 <= x < 2 ^ 32 -> u32 x = x.
Proof. intros. apply Z.mod_small; assumption. Qed.

Lemma put_match_len_fields w len :
  MIN_MATCH <= len <= MAX_MATCH ->
  put_match_len w len = put_fields w ((1, 1) :: len_fields (len - MIN_MATCH)).
Proof.
  change MIN_MATCH with 3; change MAX_MATCH with 566. intros Hl.
  unfold put_match_len, len_fields. change MIN_MATCH with 3.
  rewrite ulong_small by (change (2 ^ 64) with 18446744073709551616; lia).
  split_ltb; reflexivity.
Qed.

Lemma put_offs_fields p w o :
  0 <= o < 2 ^ 21 -> put_offs p w o = put_fields w (offs_fields o).
Proof.
  intros Ho. unfold offs_fields.
  assert (Ho62 : o < 2 ^ 62).
  { pose proof (pow2_mono 21 62 ltac:(lia)). lia. }
  assert (Ho64 : o < 2 ^ 64).
  { pose proof (pow2_mono 21 64 ltac:(lia)). lia. }
  destruct p; simpl.
  - unfold put_offs_le. destruct (o <? 64) eqn:Hc.
    + apply Z.ltb_lt in Hc. rewrite le_mlog_small by lia. reflexivity.
    + apply Z.ltb_ge in Hc. rewrite le_mlog_large by lia.
      destruct (log2_bounds o ltac:(lia)) as (Hl & Hp).
      change (W_BITS - NUM_SLOTS) with 5.
      replace (5 <? Z.log2 o) with true by (symmetry; apply Z.ltb_lt; lia).
      rewrite shiftl_pow2 by lia. rewrite Z.mul_1_l. reflexivity.
  - unfold put_offs_bt. change (Z.shiftl 2 (W_BITS - NUM_SLOTS)) with 64.
    rewrite Z.leb_antisym. destruct (o <? 64) eqn:Hc; simpl.
    + reflexivity.
    + apply Z.ltb_ge in Hc. rewrite crush_log2_spec by lia.
      destruct (log2_bounds o ltac:(lia)) as (Hl & Hp).
      rewrite shiftl_pow2 by lia. rewrite Z.mul_1_l. reflexivity.
Qed.

Lemma put_token_fields p w t :
  token_ok t -> put_token p w t = put_fields w (token_fields t).
Proof.
  destruct t as [b|len offs]; simpl.
  - intros _. unfold put_literal. pose proof (byte_val_range b).
    rewrite shiftl_pow2 by lia. change (2 ^ 1) with 2.
    rewrite u32_small by (change (2 ^ 32) with 4294967296; lia).
    rewrite Z.mul_comm. reflexivity.
  - change W_SIZE with (2 ^ 21). intros [Hl Ho]. unfold put_match.
    rewrite put_match_len_fields by assumption.
    rewrite put_offs_fields by lia.
    change ((1, 1) :: len_fields (len - MIN_MATCH) ++ offs_fields (offs - 1))
      with (((1, 1) :: len_fields (len - MIN_MATCH)) ++ offs_fields (offs - 1)).
    rewrite put_fields_app. reflexivity.
Qed.

Lemma put_token_spec p w t :
  lbw_ok w -> token_ok t ->
  lbw_ok (put_token p w t) /\
  wval (put_token p w t) = wval w + 2 ^ wbits w * sval (token_fields t) 0 /\
  wbits (put_token p w t) = wbits w + token_bits t.
Proof.
  intros Hok Ht. rewrite put_token_fields by assumption.
  apply put_fields_spec; [assumption|]. apply token_fields_ok; assumption.
Qed.

(** The cost model against the bit fields. *)
Lemma match_cost_fields len offs :
  MIN_MATCH <= len <= MAX_MATCH -> 1 <= offs <= W_SIZE ->
  crush_match_cost (offs - 1) len = token_bits (Match len offs).
Proof.
  change MIN_MATCH with 3; change MAX_MATCH with 566; change W_SIZE with (2 ^ 21).
  intros Hl Ho. unfold crush_match_cost, token_bits. simpl token_fields.
  change MIN_MATCH with 3.
  rewrite ulong_small by (change (2 ^ 64) with 18446744073709551616; lia).
  simpl fwidth. rewrite fwidth_app.
  change (Z.shiftl 2 (W_BITS - NUM_SLOTS)) with 64.
  change (W_BITS - (NUM_SLOTS - 1)) with 6. change SLOT_BITS with 4.
  assert (Hlen : (if len - 3 <? A then 1 + (1 + A_BITS)
            else if len - 3 <? B then 1 + (2 + B_BITS)
            else if len - 3 <? C then 1 + (3 + C_BITS)
            else if len - 3 <? D then 1 + (4 + D_BITS)
            else if len - 3 <? E then 1 + (5 + E_BITS)
            else 1 + (5 + F_BITS)) = 1 + fwidth (len_fields (len - 3))).
  { unfold len_fields. split_ltb; reflexivity. }
  rewrite Hlen. unfold offs_fields. change SLOT_BITS with 4.
  rewrite Z.leb_antisym. destruct (offs - 1 <? 64) eqn:Hc; simpl negb; cbv iota.
  - simpl fwidth. lia.
  - apply Z.ltb_ge in Hc. rewrite crush_log2_spec.
    + simpl fwidth. lia.
    + pose proof (pow2_mono 21 64 ltac:(lia)). lia.
Qed.

(** * The bit reader as a consumer of a bit string *)

(** What is left to read, as a number, and how many bits the packed bytes
    still hold. *)
Definition rd_val (r : lsb_bitreader) : Z :=
  lbr_tag r + 2 ^ lbr_msb r * le_val (lbr_src r).

Definition rd_bits (r : lsb_bitreader) : Z :=
  lbr_msb r + 8 * Z.of_nat (length (lbr_src r)).

Definition lbr_ok (r : lsb_bitreader) : Prop :=
  0 <= lbr_msb r <= 32 /\ 0 <= lbr_tag r < 2 ^ lbr_msb r.

Lemma lbr_init_ok src : lbr_ok (lbr_init src).
Proof. unfold lbr_ok; simpl. lia. Qed.

Lemma rd_val_init src : rd_val (lbr_init src) = le_val src.
Proof. unfold rd_val; simpl. lia. Qed.

Lemma rd_bits_init src : rd_bits (lbr_init src) = 8 * Z.of_nat (length src).
Proof. unfold rd_bits; simpl. lia. Qed.

Lemma lbr_refill_loop_spec fuel : forall r num,
  lbr_ok r -> 0 <= num <= 25 -> num <= rd_bits r ->
  num - lbr_msb r <= 8 * Z.of_nat fuel ->
  exists r', lbr_refill_loop fuel r num = Some r' /\ lbr_ok r' /\
    num <= lbr_msb r' /\ rd_val r' = rd_val r /\ rd_bits r' = rd_bits r.
Proof.
  induction fuel as [|fuel IH]; intros r num Hok Hnum Hbits Hfuel; simpl.
  - exists r. repeat split; try apply Hok; lia.
  - destruct (lbr_msb r <? num) eqn:Hc.
    + apply Z.ltb_lt in Hc. destruct Hok as [Hm Ht].
      destruct (lbr_src r) as [|b rest] eqn:Hsrc.
      { unfold rd_bits in Hbits. rewrite Hsrc in Hbits. simpl in Hbits. lia. }
      pose proof (byte_val_range b) as Hb.
      assert (Hsh : u32 (Z.shiftl (byte_val b) (lbr_msb r)) = byte_val b * 2 ^ lbr_msb r).
      { rewrite shiftl_pow2 by lia. apply u32_small.
        pose proof (pow2_gt0 (lbr_msb r) ltac:(lia)).
        split; [nia|].
        pose proof (pow2_mono (8 + lbr_msb r) 32 ltac:(lia)) as Hp.
        rewrite pow2_split in Hp by lia. change (2 ^ 8) with 256 in Hp. nia. }
      rewrite Hsh, lor_shifted by lia.
      match goal with |- context [lbr_refill_loop fuel ?x num] => set (r1 := x) end.
      destruct (IH r1 num) as (r' & Hr & Hok' & Hle & Hv & Hbt).
      * unfold lbr_ok, r1; simpl. pose proof (pow2_gt0 (lbr_msb r) ltac:(lia)).
        split; [lia|]. rewrite (Z.add_comm (lbr_msb r)), pow2_split by lia.
        change (2 ^ 8) with 256. nia.
      * exact Hnum.
      * unfold rd_bits, r1 in *; simpl. rewrite Hsrc in Hbits. simpl length in Hbits. lia.
      * unfold r1; simpl. lia.
      * exists r'. split; [exact Hr|]. split; [exact Hok'|]. split; [exact Hle|].
        rewrite Hv, Hbt. unfold rd_val, rd_bits, r1; simpl. rewrite Hsrc. simpl.
        rewrite pow2_split by lia. change (2 ^ 8) with 256. split; [ring|lia].
    + apply Z.ltb_ge in Hc. exists r. repeat split; try apply Hok; lia.
Qed.

Lemma lbr_getbits_spec r num :
  lbr_ok r -> 0 <= num <= 25 -> num <= rd_bits r ->
  exists r', lbr_getbits r num = Some (rd_val r mod 2 ^ num, r') /\ lbr_ok r' /\
    rd_val r' = rd_val r / 2 ^ num /\ rd_bits r' = rd_bits r - num.
Proof.
  intros Hok Hnum Hbits.
  destruct (lbr_refill_loop_spec (Z.to_nat num) r num Hok Hnum Hbits)
    as (r1 & Hr & [Hm Ht] & Hle & Hv & Hbt).
  { destruct Hok. lia. }
  unfold lbr_getbits, lbr_refill. rewrite Hr. simpl.
  unfold lbr_getbits_no_refill.
  assert (Hsplit : 2 ^ lbr_msb r1 = 2 ^ num * 2 ^ (lbr_msb r1 - num)).
  { rewrite <- pow2_split by lia. f_equal. lia. }
  eexists. split; [|split; [|split]].
  - f_equal. f_equal.
    rewrite land_mask by lia. rewrite <- Hv. unfold rd_val.
    rewrite Hsplit.
    pose proof (pow2_gt0 num ltac:(lia)) as Hp.
    rewrite <- Z.mul_assoc, (Z.mul_comm (2 ^ num)), Z.mod_add by lia.
    apply u32_small.
    pose proof (Z.mod_pos_bound (lbr_tag r1) (2 ^ num) Hp).
    pose proof (pow2_mono num 32 ltac:(lia)). lia.
  - unfold lbr_ok; simpl. rewrite shiftr_pow2 by lia.
    pose proof (pow2_gt0 num ltac:(lia)) as Hp.
    split; [lia|]. split; [apply Z.div_pos; lia|].
    apply Z.div_lt_upper_bound; [lia|]. rewrite <- pow2_split by lia.
    replace (num + (lbr_msb r1 - num)) with (lbr_msb r1) by lia. lia.
  - unfold rd_val at 1; simpl. rewrite shiftr_pow2 by lia. rewrite <- Hv. unfold rd_val.
    rewrite Hsplit.
    pose proof (pow2_gt0 num ltac:(lia)) as Hp.
    rewrite <- Z.mul_assoc, (Z.mul_comm (2 ^ num)), Z.div_add by lia. reflexivity.
  - unfold rd_bits at 1; simpl. rewrite <- Hbt. unfold rd_bits. lia.
Qed.

(** [reads r fs R]: the reader [r] has the fields [fs] and then the bit
    string [R] before it, and the packed bytes hold all the bits of [fs]. *)
Definition reads (r : lsb_bitreader) (fs : list (Z * Z)) (R : Z) : Prop :=
  lbr_ok r /\ rd_val r = sval fs R /\ fwidth fs <= rd_bits r /\ Forall field_ok fs.

Lemma reads_getbits r v n fs R :
  reads r ((v, n) :: fs) R ->
  exists r', lbr_getbits r n = Some (v, r') /\ reads r' fs R /\
    rd_bits r' = rd_bits r - n.
Proof.
  intros (Hok & Hv & Hw & Hfs). simpl in Hv, Hw.
  inversion Hfs as [|f fs' [Hn Hr] Hfs']; subst. simpl in Hn, Hr.
  pose proof (fwidth_nonneg fs Hfs').
  destruct (lbr_getbits_spec r n Hok ltac:(lia) ltac:(lia)) as (r' & Hg & Hok' & Hv' & Hb').
  exists r'. rewrite Hg, Hv. rewrite low_part by lia.
  split; [reflexivity|]. split; [|exact Hb'].
  split; [exact Hok'|]. split.
  - rewrite Hv', Hv. apply high_part; lia.
  - split; [lia|exact Hfs'].
Qed.

Lemma reads_regroup r fs fs' R :
  reads r fs R -> sval fs R = sval fs' R -> fwidth fs = fwidth fs' ->
  Forall field_ok fs' -> reads r fs' R.
Proof.
  intros (Hok & Hv & Hw & Hfs) Hs Hwd Hfs'.
  split; [exact Hok|]. split; [congruence|]. split; [lia|exact Hfs'].
Qed.

Lemma reads_nil r R : reads r [] R -> lbr_ok r /\ rd_val r = R.
Proof. intros (Hok & Hv & _). split; assumption. Qed.

(** * Reading a token back *)

Ltac rd_step H r' H' Hb :=
  let Hg := fresh "Hg" in
  destruct (reads_getbits _ _ _ _ _ H) as (r' & Hg & H' & Hb);
  rewrite Hg; clear Hg; cbn [mbind option_bind negb Z.eqb].

Lemma get_match_len_spec r l fs R :
  0 <= l < F -> Forall field_ok fs ->
  reads r (len_fields l ++ fs) R ->
  exists r', get_match_len r = Some (l, r') /\ reads r' fs R /\
    rd_bits r' = rd_bits r - fwidth (len_fields l).
Proof.
  change F with 564. intros Hl Hfs Hr. unfold get_match_len.
  unfold len_fields in *.
  change A with 4 in *; change B with 8 in *; change C with 12 in *;
  change D with 20 in *; change E with 52 in *.
  change A_BITS with 2 in *; change B_BITS with 2 in *; change C_BITS with 2 in *;
  change D_BITS with 3 in *; change E_BITS with 5 in *; change F_BITS with 9 in *.
  destruct (l <? 4) eqn:H4; [apply Z.ltb_lt in H4|apply Z.ltb_ge in H4;
  destruct (l <? 8) eqn:H8; [apply Z.ltb_lt in H8|apply Z.ltb_ge in H8;
  destruct (l <? 12) eqn:H12; [apply Z.ltb_lt in H12|apply Z.ltb_ge in H12;
  destruct (l <? 20) eqn:H20; [apply Z.ltb_lt in H20|apply Z.ltb_ge in H20;
  destruct (l <? 52) eqn:H52; [apply Z.ltb_lt in H52|apply Z.ltb_ge in H52]]]]].
  - simpl app in Hr.
    rd_step Hr r1 Hr1 Hb1. rd_step Hr1 r2 Hr2 Hb2.
    exists r2. split; [reflexivity|]. split; [assumption|]. simpl fwidth. lia.
  - apply (reads_regroup _ _ ((0, 1) :: (1, 1) :: (l - 4, 2) :: fs)) in Hr;
      [|simpl; ring|simpl; lia|repeat (constructor; [field_ok_tac|]); assumption].
    rd_step Hr r1 Hr1 Hb1. rd_step Hr1 r2 Hr2 Hb2. rd_step Hr2 r3 Hr3 Hb3.
    exists r3. split; [do 2 f_equal; lia|]. split; [assumption|]. simpl fwidth. lia.
  - apply (reads_regroup _ _ ((0, 1) :: (0, 1) :: (1, 1) :: (l - 8, 2) :: fs)) in Hr;
      [|simpl; ring|simpl; lia|repeat (constructor; [field_ok_tac|]); assumption].
    rd_step Hr r1 Hr1 Hb1. rd_step Hr1 r2 Hr2 Hb2. rd_step Hr2 r3 Hr3 Hb3.
    rd_step Hr3 r4 Hr4 Hb4.
    exists r4. split; [do 2 f_equal; lia|]. split; [assumption|]. simpl fwidth. lia.
  - apply (reads_regroup _ _ ((0, 1) :: (0, 1) :: (0, 1) :: (1, 1) :: (l - 12, 3) :: fs)) in Hr;
      [|simpl; ring|simpl; lia|repeat (constructor; [field_ok_tac|]); assumption].
    rd_step Hr r1 Hr1 Hb1. rd_step Hr1 r2 Hr2 Hb2. rd_step Hr2 r3 Hr3 Hb3.
    rd_step Hr3 r4 Hr4 Hb4. rd_step Hr4 r5 Hr5 Hb5.
    exists r5. split; [do 2 f_equal; lia|]. split; [assumption|]. simpl fwidth. lia.
  - apply (reads_regroup _ _
      ((0, 1) :: (0, 1) :: (0, 1) :: (0, 1) :: (1, 1) :: (l - 20, 5) :: fs)) in Hr;
      [|simpl; ring|simpl; lia|repeat (constructor; [field_ok_tac|]); assumption].
    rd_step Hr r1 Hr1 Hb1. rd_step Hr1 r2 Hr2 Hb2. rd_step Hr2 r3 Hr3 Hb3.
    rd_step Hr3 r4 Hr4 Hb4. rd_step Hr4 r5 Hr5 Hb5. rd_step Hr5 r6 Hr6 Hb6.
    exists r6. split; [do 2 f_equal; lia|]. split; [assumption|]. simpl fwidth. lia.
  - apply (reads_regroup _ _
      ((0, 1) :: (0, 1) :: (0, 1) :: (0, 1) :: (0, 1) :: (l - 52, 9) :: fs)) in Hr;
      [|simpl; ring|simpl; lia|repeat (constructor; [field_ok_tac|]); assumption].
    rd_step Hr r1 Hr1 Hb1. rd_step Hr1 r2 Hr2 Hb2. rd_step Hr2 r3 Hr3 Hb3.
    rd_step Hr3 r4 Hr4 Hb4. rd_step Hr4 r5 Hr5 Hb5. rd_step Hr5 r6 Hr6 Hb6.
    exists r6. split; [do 2 f_equal; lia|]. split; [assumption|]. simpl fwidth. lia.
Qed.

Lemma get_match_offs_spec r o fs R :
  0 <= o < 2 ^ 21 ->
  reads r (offs_fields o ++ fs) R ->
  exists r', get_match_offs r = Some (o + 1, r') /\ reads r' fs R /\
    rd_bits r' = rd_bits r - fwidth (offs_fields o).
Proof.
  intros Ho Hr. unfold get_match_offs, offs_fields in *.
  change SLOT_BITS with 4 in *. change (W_BITS - NUM_SLOTS) with 5.
  change (W_BITS - (NUM_SLOTS - 1)) with 6.
  destruct (o <? 64) eqn:Hc; [apply Z.ltb_lt in Hc|apply Z.ltb_ge in Hc]; simpl app in Hr.
  - rd_step Hr r1 Hr1 Hb1. simpl. rd_step Hr1 r2 Hr2 Hb2.
    exists r2. split; [reflexivity|]. split; [assumption|]. simpl fwidth. lia.
  - destruct (log2_bounds o ltac:(lia)) as (Hl & Hp).
    rd_step Hr r1 Hr1 Hb1.
    replace (Z.log2 o - 5 + 5) with (Z.log2 o) by lia.
    replace (5 <? Z.log2 o) with true by (symmetry; apply Z.ltb_lt; lia).
    rd_step Hr1 r2 Hr2 Hb2.
    exists r2. split; [|split; [assumption|simpl fwidth; lia]].
    do 2 f_equal. rewrite shiftl_pow2 by lia. rewrite Z.mul_1_l.
    rewrite u32_small; [lia|].
    pose proof (pow2_mono 21 32 ltac:(lia)). lia.
Qed.

Lemma get_token_spec r t R :
  token_ok t -> reads r (token_fields t) R ->
  exists r', get_token r = Some (t, r') /\ lbr_ok r' /\ rd_val r' = R /\
    rd_bits r' = rd_bits r - token_bits t.
Proof.
  intros Ht Hr. unfold get_token, token_bits. destruct t as [b|len offs].
  - simpl token_fields in *. pose proof (byte_val_range b) as Hb.
    apply (reads_regroup _ _ [(0, 1); (byte_val b, 8)]) in Hr;
      [|simpl; ring|simpl; lia|fields_ok_tac].
    rd_step Hr r1 Hr1 Hb1. rd_step Hr1 r2 Hr2 Hb2.
    exists r2. rewrite byte_of_val. split; [reflexivity|].
    destruct (reads_nil _ _ Hr2). split; [assumption|]. split; [assumption|].
    simpl fwidth. lia.
  - simpl token_fields in *. destruct Ht as [Hl Ho].
    change MIN_MATCH with 3 in *; change MAX_MATCH with 566 in *;
    change W_SIZE with (2 ^ 21) in *.
    rd_step Hr r1 Hr1 Hb1.
    destruct (get_match_len_spec r1 (len - 3) (offs_fields (offs - 1)) R)
      as (r2 & Hg2 & Hr2 & Hb2); [change F with 564; lia|apply offs_fields_ok; lia|assumption|].
    rewrite Hg2. cbn [mbind option_bind].
    rewrite <- (app_nil_r (offs_fields (offs - 1))) in Hr2.
    destruct (get_match_offs_spec r2 (offs - 1) [] R) as (r3 & Hg3 & Hr3 & Hb3);
      [lia|assumption|].
    rewrite Hg3. cbn [mbind option_bind].
    exists r3. split; [do 2 f_equal; f_equal; lia|].
    destruct (reads_nil _ _ Hr3). split; [assumption|]. split; [assumption|].
    simpl fwidth. rewrite fwidth_app. lia.
Qed.

(** Reading from the bytes a writer has produced. *)
Lemma reads_finalized w fs :
  lbw_ok w -> wval w = sval fs 0 -> wbits w = fwidth fs -> Forall field_ok fs ->
  reads (lbr_init (lbw_finalize w)) fs 0.
Proof.
  intros Hok Hv Hb Hfs. destruct (lbw_finalize_spec w Hok) as (Hval & Hlen).
  split; [apply lbr_init_ok|]. split; [rewrite rd_val_init; congruence|].
  split; [|exact Hfs]. rewrite rd_bits_init, Hlen, <- Hb.
  Z.div_mod_to_equations; lia.
Qed.

(** * The depacker *)

(** ** What the token-reading steps can give *)

Lemma lbr_getbits_nonneg r num v r' :
  lbr_getbits r num = Some (v, r') -> 0 <= v < 2 ^ 32.
Proof.
  unfold lbr_getbits. destruct (lbr_refill r num) as [r1|]; simpl; [|discriminate].
  unfold lbr_getbits_no_refill. intros H. injection H as Hv _. subst v.
  apply Z.mod_pos_bound. reflexivity.
Qed.

Ltac inv_bind H :=
  match type of H with
  | (match ?m with Some _ => _ | None => _ end) = Some _ =>
      let x := fresh "x" in let r := fresh "r" in let HE := fresh "HE" in
      destruct m as [[x r]|] eqn:HE; [|discriminate H]
  | (?m ≫= _) = Some _ =>
      let x := fresh "x" in let r := fresh "r" in let HE := fresh "HE" in
      destruct m as [[x r]|] eqn:HE; [cbn [mbind option_bind] in H|discriminate H]
  end.

Lemma get_match_len_nonneg r l r' : get_match_len r = Some (l, r') -> 0 <= l.
Proof.
  unfold get_match_len. intros H.
  change A with 4 in H; change B with 8 in H; change C with 12 in H;
  change D with 20 in H; change E with 52 in H.
  repeat (inv_bind H;
    match goal with
    | H : context [if negb (?x =? 0) then _ else _] |- _ => destruct (negb (x =? 0))
    | _ => idtac
    end;
    try (injection H as H1 H2; subst;
         repeat match goal with
         | HE : lbr_getbits _ _ = Some _ |- _ => apply lbr_getbits_nonneg in HE
         end; lia)).
  all: try (apply lbr_getbits_nonneg in H; lia).
Qed.

Lemma get_token_match_len r len offs r' :
  get_token r = Some (Match len offs, r') -> MIN_MATCH <= len /\ 1 <= offs.
Proof.
  unfold get_token. intros H. inv_bind H.
  destruct (negb (x =? 0)).
  - inv_bind H. inv_bind H. injection H as H1 H2 H3. subst.
    match goal with HE : get_match_len _ = Some _ |- _ =>
      apply get_match_len_nonneg in HE end.
    match goal with HE : get_match_offs _ = Some _ |- _ =>
      unfold get_match_offs in HE; inv_bind HE; inv_bind HE;
      injection HE as H1 H2; subst end.
    match goal with
    | HE : (if ?c then _ else _) = Some (?v, _) |- _ =>
        assert (0 <= v); [|lia]; destruct c
    end.
    + match goal with HE : _ = Some _ |- _ => inv_bind HE; injection HE as H1 H2; subst end.
      apply Z.mod_pos_bound. reflexivity.
    + match goal with HE : lbr_getbits _ (W_BITS - _) = Some _ |- _ =>
        apply lbr_getbits_nonneg in HE; lia end.
  - inv_bind H. discriminate H.
Qed.

Lemma copy_match_length n : forall out mpos,
  length (copy_match n out mpos) = (length out + n)%nat.
Proof.
  induction n as [|n IH]; intros out mpos; simpl; [lia|].
  rewrite IH, length_app. simpl. lia.
Qed.

(** ** The rounds of the main loop *)

(** One round of [while (dst_size < depacked_size)] that does not return:
    from the reader [r] and the written bytes [out] to [r'] and [out']. *)
Inductive depack_step (M : Z) : lsb_bitreader * list byte -> lsb_bitreader * list byte -> Prop :=
  | step_literal r out b r' :
      Z.of_nat (length out) < M ->
      get_token r = Some (Literal b, r') ->
      depack_step M (r, out) (r', out ++ [b])
  | step_match r out len offs r' :
      Z.of_nat (length out) < M ->
      get_token r = Some (Match len offs, r') ->
      offs <= Z.of_nat (length out) ->
      depack_step M (r, out)
        (r', copy_match (Z.to_nat len) out (Z.of_nat (length out) - offs)).

Inductive depack_steps (M : Z) : lsb_bitreader * list byte -> lsb_bitreader * list byte -> Prop :=
  | steps_refl s : depack_steps M s s
  | steps_cons s1 s2 s3 :
      depack_step M s1 s2 -> depack_steps M s2 s3 -> depack_steps M s1 s3.

(** The decoder is about to read a match token that reaches back before
    the start of the output. *)
Definition reads_bad_match (M : Z) (s : lsb_bitreader * list byte) : Prop :=
  Z.of_nat (length (snd s)) < M /\
  exists len offs r', get_token (fst s) = Some (Match len offs, r') /\
    Z.of_nat (length (snd s)) < offs.

Lemma depack_step_grows M r out r' out' :
  depack_step M (r, out) (r', out') -> (length out < length out')%nat.
Proof.
  inversion 1; subst.
  - rewrite length_app. simpl. lia.
  - rewrite copy_match_length.
    match goal with H : get_token _ = _ |- _ => apply get_token_match_len in H end.
    change MIN_MATCH with 3 in *. lia.
Qed.

Lemma depack_loop_error fuel : forall r out M out',
  depack_loop fuel r out M = DepackError out' ->
  exists r', depack_steps M (r, out) (r', out') /\ reads_bad_match M (r', out').
Proof.
  induction fuel as [|fuel IH]; intros r out M out' H; simpl in H; [discriminate|].
  destruct (Z.of_nat (length out) <? M) eqn:Hlt; [|discriminate].
  apply Z.ltb_lt in Hlt.
  destruct (get_token r) as [[[b|len offs] r1]|] eqn:Ht; [| |discriminate].
  - destruct (IH _ _ _ _ H) as (r' & Hs & Hb).
    exists r'. split; [|exact Hb].
    eapply steps_cons; [|exact Hs]. constructor; assumption.
  - destruct (Z.of_nat (length out) <? offs) eqn:Ho.
    + apply Z.ltb_lt in Ho. injection H as H. subst out'.
      exists r. split; [constructor|]. split; [exact Hlt|].
      simpl. eauto.
    + apply Z.ltb_ge in Ho. destruct (IH _ _ _ _ H) as (r' & Hs & Hb).
      exists r'. split; [|exact Hb].
      eapply steps_cons; [|exact Hs]. constructor; assumption.
Qed.

Lemma depack_steps_error M s s' :
  depack_steps M s s' -> reads_bad_match M s' ->
  forall fuel, M <= Z.of_nat (length (snd s)) + Z.of_nat fuel ->
  depack_loop fuel (fst s) (snd s) M = DepackError (snd s').
Proof.
  induction 1 as [[r out]|[r1 out1] [r2 out2] s3 Hstep Hsteps IH]; intros Hbad fuel Hfuel.
  - destruct Hbad as (Hlt & len & offs & r' & Ht & Ho). simpl in *.
    destruct fuel as [|fuel]; [lia|]. simpl.
    replace (Z.of_nat (length out) <? M) with true by (symmetry; apply Z.ltb_lt; lia).
    rewrite Ht.
    replace (Z.of_nat (length out) <? offs) with true by (symmetry; apply Z.ltb_lt; lia).
    reflexivity.
  - pose proof (depack_step_grows _ _ _ _ _ Hstep) as Hg.
    specialize (IH Hbad). simpl in *.
    inversion Hstep; subst.
    + destruct fuel as [|fuel]; [lia|]. simpl.
      replace (Z.of_nat (length out1) <? M) with true by (symmetry; apply Z.ltb_lt; lia).
      match goal with H : get_token _ = _ |- _ => rewrite H end.
      apply IH. lia.
    + destruct fuel as [|fuel]; [lia|]. simpl.
      replace (Z.of_nat (length out1) <? M) with true by (symmetry; apply Z.ltb_lt; lia).
      match goal with H : get_token _ = _ |- _ => rewrite H end.
      replace (Z.of_nat (length out1) <? offs) with false by (symmetry; apply Z.ltb_ge; lia).
      apply IH. lia.
Qed.

(** The rounds [crush_depack] goes through on [src] for the length [M]. *)
Definition depack_reaches (src : list byte) (M : Z) (s : lsb_bitreader * list byte) : Prop :=
  depack_steps M (lbr_init src, []) s.

Lemma crush_depack_error_iff src M out :
  crush_depack src M = DepackError out <->
  exists r, depack_reaches src M (r, out) /\ reads_bad_match M (r, out).
Proof.
  unfold crush_depack, depack_reaches. split.
  - apply depack_loop_error.
  - intros (r & Hs & Hb).
    apply (depack_steps_error _ _ _ Hs Hb). simpl.
    destruct Hb as (Hlt & _). simpl in Hlt. lia.
Qed.

(** The loop ends only when at least [depacked_size] bytes are written. *)
Lemma depack_loop_done fuel : forall r out M out',
  M <= Z.of_nat (length out) + Z.of_nat fuel ->
  depack_loop fuel r out M = Depacked out' ->
  M <= Z.of_nat (length out').
Proof.
  induction fuel as [|fuel IH]; intros r out M out' Hf H; simpl in H.
  - injection H as H. subst. lia.
  - destruct (Z.of_nat (length out) <? M) eqn:Hlt.
    + destruct (get_token r) as [[[b|len offs] r1]|] eqn:Ht; [| |discriminate].
      * apply IH in H; [exact H|]. rewrite length_app. simpl. lia.
      * destruct (Z.of_nat (length out) <? offs); [discriminate|].
        apply IH in H; [exact H|]. rewrite copy_match_length.
        apply get_token_match_len in Ht. change MIN_MATCH with 3 in Ht. lia.
    + apply Z.ltb_ge in Hlt. injection H as H. subst. lia.
Qed.

(** More rounds than [depacked_size] change nothing: the bound on the
    rounds in [crush_depack] is never what ends the loop. *)
Lemma depack_loop_fuel fuel : forall fuel' r out M,
  M <= Z.of_nat (length out) + Z.of_nat fuel ->
  M <= Z.of_nat (length out) + Z.of_nat fuel' ->
  depack_loop fuel r out M = depack_loop fuel' r out M.
Proof.
  induction fuel as [|fuel IH]; intros fuel' r out M Hf Hf'.
  - destruct fuel' as [|fuel']; [reflexivity|]. simpl.
    replace (Z.of_nat (length out) <? M) with false
      by (symmetry; apply Z.ltb_ge; lia). reflexivity.
  - simpl. destruct (Z.of_nat (length out) <? M) eqn:Hlt; [|destruct fuel'; simpl;
      [reflexivity|rewrite Hlt; reflexivity]].
    apply Z.ltb_lt in Hlt. destruct fuel' as [|fuel']; [lia|]. simpl.
    replace (Z.of_nat (length out) <? M) with true by (symmetry; apply Z.ltb_lt; lia).
    destruct (get_token r) as [[[b|len offs] r1]|] eqn:Ht; [| |reflexivity].
    + apply IH; rewrite length_app; simpl; lia.
    + destruct (Z.of_nat (length out) <? offs); [reflexivity|].
      apply get_token_match_len in Ht. change MIN_MATCH with 3 in Ht.
      apply IH; rewrite copy_match_length; lia.
Qed.

(** * Token sequences that spell a source buffer *)

(** The tokens written by a packer, through [put_token]. *)
Definition put_tokens (p : parser) (w : lsb_bitwriter) (toks : list token) : lsb_bitwriter :=
  fold_left (put_token p) toks w.

Definition stream_fields (toks : list token) : list (Z * Z) :=
  concat (map token_fields toks).

Fixpoint total_bits (toks : list token) : Z :=
  match toks with
  | [] => 0
  | t :: toks' => token_bits t + total_bits toks'
  end.

(** [spells S pos toks]: read from output position [pos] on, the tokens
    [toks] give the bytes of [S] from [pos] to its end; every match lies
    inside [S], has a length and an offset of the format, and copies bytes
    that are equal to the ones it stands for. *)
Inductive spells (S : list byte) : Z -> list token -> Prop :=
  | spells_nil : spells S (Z.of_nat (length S)) []
  | spells_literal pos b toks :
      0 <= pos -> S !! Z.to_nat pos = Some b ->
      spells S (pos + 1) toks ->
      spells S pos (Literal b :: toks)
  | spells_match pos len offs toks :
      token_ok (Match len offs) ->
      offs <= pos -> pos + len <= Z.of_nat (length S) ->
      (forall k, 0 <= k < len -> byte_at S (pos - offs + k) = byte_at S (pos + k)) ->
      spells S (pos + len) toks ->
      spells S pos (Match len offs :: toks).

Lemma spells_tokens_ok S pos toks : spells S pos toks -> Forall token_ok toks.
Proof.
  induction 1; constructor; auto. exact I.
Qed.

Lemma stream_fields_ok toks : Forall token_ok toks -> Forall field_ok (stream_fields toks).
Proof.
  induction 1 as [|t toks Ht _ IH]; unfold stream_fields; simpl.
  - constructor.
  - apply Forall_app. split; [apply token_fields_ok; assumption|exact IH].
Qed.

Lemma fwidth_stream toks : fwidth (stream_fields toks) = total_bits toks.
Proof.
  induction toks as [|t toks IH]; unfold stream_fields in *; simpl; [reflexivity|].
  rewrite fwidth_app, IH. reflexivity.
Qed.

Lemma put_tokens_spec p toks : forall w,
  lbw_ok w -> Forall token_ok toks ->
  lbw_ok (put_tokens p w toks) /\
  wval (put_tokens p w toks) = wval w + 2 ^ wbits w * sval (stream_fields toks) 0 /\
  wbits (put_tokens p w toks) = wbits w + total_bits toks.
Proof.
  induction toks as [|t toks IH]; intros w Hok Hts; simpl.
  - split; [exact Hok|]. unfold stream_fields; simpl. lia.
  - inversion Hts as [|t' toks' Ht Hts']; subst.
    destruct (put_token_spec p w t Hok Ht) as (Hok1 & Hv1 & Hb1).
    destruct (IH _ Hok1 Hts') as (Hok2 & Hv2 & Hb2).
    fold (put_tokens p (put_token p w t) toks).
    split; [exact Hok2|]. rewrite Hv2, Hb2, Hv1, Hb1. split; [|lia].
    unfold stream_fields; simpl. rewrite sval_app.
    fold (stream_fields toks).
    rewrite (sval_tail (token_fields t) (sval (stream_fields toks) 0))
      by (apply token_fields_ok; assumption).
    fold (token_bits t).
    assert (0 <= wbits w) by (destruct Hok; unfold wbits; lia).
    assert (0 <= token_bits t) by (apply fwidth_nonneg, token_fields_ok; assumption).
    rewrite pow2_split by lia. ring.
Qed.

Lemma put_tokens_app p w t1 t2 :
  put_tokens p w (t1 ++ t2) = put_tokens p (put_tokens p w t1) t2.
Proof. apply fold_left_app. Qed.

Lemma byte_at_eq S i j a b :
  S !! i = Some a -> S !! j = Some b ->
  byte_at S (Z.of_nat i) = byte_at S (Z.of_nat j) -> a = b.
Proof.
  intros Ha Hb. unfold byte_at. rewrite !Nat2Z.id.
  rewrite (nth_lookup_Some _ _ _ _ Ha), (nth_lookup_Some _ _ _ _ Hb).
  intros H. rewrite <- (byte_of_val a), <- (byte_of_val b). congruence.
Qed.

Lemma copy_match_spells S n : forall pos src,
  0 <= src -> src < pos -> pos + Z.of_nat n <= Z.of_nat (length S) ->
  (forall k, 0 <= k < Z.of_nat n -> byte_at S (src + k) = byte_at S (pos + k)) ->
  copy_match n (take (Z.to_nat pos) S) src = take (Z.to_nat (pos + Z.of_nat n)) S.
Proof.
  induction n as [|n IH]; intros pos src Hs Hlt Hlen Heq.
  - simpl. f_equal. lia.
  - simpl copy_match.
    destruct (lookup_lt_is_Some_2 S (Z.to_nat pos) ltac:(lia)) as [b Hb].
    destruct (lookup_lt_is_Some_2 S (Z.to_nat src) ltac:(lia)) as [a Ha].
    assert (Hab : a = b).
    { apply (byte_at_eq S _ _ _ _ Ha Hb). rewrite !Z2Nat.id by lia.
      specialize (Heq 0 ltac:(lia)). rewrite !Z.add_0_r in Heq. exact Heq. }
    assert (Hnth : nth (Z.to_nat src) (take (Z.to_nat pos) S) x00 = b).
    { apply nth_lookup_Some. rewrite lookup_take_lt by lia. congruence. }
    rewrite Hnth. rewrite <- (take_S_r _ _ _ Hb).
    replace (Datatypes.S (Z.to_nat pos)) with (Z.to_nat (pos + 1)) by lia.
    rewrite IH; try lia.
    + f_equal. lia.
    + intros k Hk. specialize (Heq (1 + k) ltac:(lia)).
      rewrite !Z.add_assoc in Heq. exact Heq.
Qed.

Lemma stream_fields_cons t toks :
  stream_fields (t :: toks) = token_fields t ++ stream_fields toks.
Proof. reflexivity. Qed.

Lemma reads_app r fs1 fs2 R :
  reads r (fs1 ++ fs2) R -> reads r fs1 (sval fs2 R).
Proof.
  intros (Hok & Hv & Hw & Hfs). apply Forall_app in Hfs as [H1 H2].
  split; [exact Hok|]. split; [rewrite Hv; apply sval_app|].
  split; [|exact H1]. rewrite fwidth_app in Hw.
  pose proof (fwidth_nonneg fs2 H2). lia.
Qed.

Lemma depack_loop_spells S toks : forall pos, spells S pos toks ->
  forall fuel r R,
  0 <= pos ->
  reads r (stream_fields toks) R ->
  Z.of_nat (length S) <= pos + Z.of_nat fuel ->
  depack_loop fuel r (take (Z.to_nat pos) S) (Z.of_nat (length S)) = Depacked S.
Proof.
  induction 1 as [|pos b toks Hpos Hb Hsp IH|pos len offs toks Hok Ho Hlen Heq Hsp IH];
    intros fuel r R Hp Hr Hfuel.
  - rewrite Nat2Z.id, firstn_all.
    destruct fuel; simpl; [reflexivity|].
    rewrite Z.ltb_irrefl. reflexivity.
  - apply lookup_lt_Some in Hb as Hlt.
    destruct fuel as [|fuel]; [lia|]. simpl depack_loop.
    rewrite length_take, Nat.min_l by lia. rewrite Z2Nat.id by lia.
    replace (pos <? Z.of_nat (length S)) with true by (symmetry; apply Z.ltb_lt; lia).
    rewrite stream_fields_cons in Hr.
    pose proof Hr as (_ & _ & Hw & Hfs). apply Forall_app in Hfs as [Hf1 Hf2].
    apply reads_app in Hr as Hr1.
    destruct (get_token_spec r (Literal b) _ I Hr1) as (r' & Hg & Hok' & Hv' & Hb').
    rewrite Hg. rewrite <- (take_S_r _ _ _ Hb).
    replace (Datatypes.S (Z.to_nat pos)) with (Z.to_nat (pos + 1)) by lia.
    apply (IH fuel r' R); try lia.
    split; [exact Hok'|]. split; [exact Hv'|]. split; [|exact Hf2].
    rewrite Hb'. rewrite fwidth_app in Hw. unfold token_bits. lia.
  - pose proof Hok as [Hl Hofs]. change MIN_MATCH with 3 in Hl.
    destruct fuel as [|fuel]; [lia|]. simpl depack_loop.
    rewrite length_take, Nat.min_l by lia. rewrite Z2Nat.id by lia.
    replace (pos <? Z.of_nat (length S)) with true by (symmetry; apply Z.ltb_lt; lia).
    rewrite stream_fields_cons in Hr.
    pose proof Hr as (_ & _ & Hw & Hfs). apply Forall_app in Hfs as [Hf1 Hf2].
    apply reads_app in Hr as Hr1.
    destruct (get_token_spec r (Match len offs) _ Hok Hr1) as (r' & Hg & Hok' & Hv' & Hb').
    rewrite Hg.
    replace (pos <? offs) with false by (symmetry; apply Z.ltb_ge; lia).
    rewrite copy_match_spells; try lia.
    + rewrite Z2Nat.id by lia. apply (IH fuel r' R); try lia.
      split; [exact Hok'|]. split; [exact Hv'|]. split; [|exact Hf2].
      rewrite Hb'. rewrite fwidth_app in Hw. unfold token_bits. lia.
    + rewrite Z2Nat.id by lia. intros k Hk. apply Heq. lia.
Qed.

(** Packing a token sequence that spells [S] and depacking it again. *)
Lemma depack_put_tokens p S toks :
  spells S 0 toks ->
  crush_depack (lbw_finalize (put_tokens p lbw_init toks)) (Z.of_nat (length S))
    = Depacked S.
Proof.
  intros Hsp. pose proof (spells_tokens_ok _ _ _ Hsp) as Hts.
  destruct (put_tokens_spec p toks lbw_init lbw_init_ok Hts) as (Hok & Hv & Hb).
  unfold crush_depack.
  change (@nil byte) with (take (Z.to_nat 0) S).
  apply (depack_loop_spells S toks 0 Hsp _ _ 0); try lia.
  apply reads_finalized; try assumption.
  - rewrite Hv. unfold wval, wbits, lbw_init; simpl. lia.
  - rewrite Hb, fwidth_stream. unfold wbits, lbw_init; simpl. lia.
  - apply stream_fields_ok; assumption.
Qed.

Lemma packed_length p toks :
  Forall token_ok toks ->
  Z.of_nat (length (lbw_finalize (put_tokens p lbw_init toks))) = (total_bits toks + 7) / 8.
Proof.
  intros Hts.
  destruct (put_tokens_spec p toks lbw_init lbw_init_ok Hts) as (Hok & Hv & Hb).
  destruct (lbw_finalize_spec _ Hok) as (_ & Hlen).
  rewrite Hlen, Hb. unfold wbits, lbw_init; simpl. reflexivity.
Qed.

(** * Reasoning about code over [workmem] *)

Definition wstore (a v : Z) (w : workmem) : workmem :=
  {| wm_cells := <[a := v]> (wm_cells w); wm_init := wm_init w;
     wm_stale := wm_stale w |}.

(** [wp m w Q]: from [w] the code [m] runs to its end, with a result and a
    final buffer that satisfy [Q]. *)
Definition wp {T} (m : M T) (w : workmem) (Q : T -> workmem -> Prop) : Prop :=
  exists r w', m w = Some (r, w') /\ Q r w'.

Lemma wp_ret {T} (x : T) w (Q : T -> workmem -> Prop) : Q x w -> wp (ret x) w Q.
Proof. intros H. exists x, w. split; [reflexivity|exact H]. Qed.

Lemma wp_bind {T U} (m : M T) (k : T -> M U) w (Q : U -> workmem -> Prop) :
  wp m w (fun x w' => wp (k x) w' Q) -> wp (bind m k) w Q.
Proof.
  intros (x & w1 & Hm & r & w2 & Hk & HQ).
  exists r, w2. split; [|exact HQ]. unfold bind. rewrite Hm. exact Hk.
Qed.

Lemma wp_mono {T} (m : M T) w (Q Q' : T -> workmem -> Prop) :
  wp m w Q -> (forall r w', Q r w' -> Q' r w') -> wp m w Q'.
Proof.
  intros (r & w' & Hm & HQ) H. exists r, w'. split; [exact Hm|apply H, HQ].
Qed.

Lemma wp_store a v w (Q : unit -> workmem -> Prop) :
  Q tt (wstore a v w) -> wp (store a v) w Q.
Proof. intros H. exists tt, (wstore a v w). split; [reflexivity|exact H]. Qed.

Lemma wp_load a v w (Q : Z -> workmem -> Prop) :
  wm_cells w !! a = Some v -> Q v w -> wp (load a) w Q.
Proof.
  intros Ha H. exists v, w. split; [|exact H]. unfold load. rewrite Ha. reflexivity.
Qed.

Lemma wp_assert b w (Q : unit -> workmem -> Prop) :
  b = true -> Q tt w -> wp (assert_ b) w Q.
Proof.
  intros Hb H. exists tt, w. split; [|exact H]. unfold assert_. rewrite Hb. reflexivity.
Qed.

Lemma wp_elim {T} (m : M T) w (Q : T -> workmem -> Prop) :
  wp m w Q -> exists r w', m w = Some (r, w') /\ Q r w'.
Proof. exact (fun H => H). Qed.

Lemma cells_wstore a v w : wm_cells (wstore a v w) = <[a := v]> (wm_cells w).
Proof. reflexivity. Qed.

Lemma stale_wstore a v w : wm_stale (wstore a v w) = wm_stale w.
Proof. reflexivity. Qed.

Lemma init_wstore a v w : wm_init (wstore a v w) = wm_init w.
Proof. reflexivity. Qed.

Lemma for_loop_wp (I : Z -> workmem -> Prop) body n : forall i w,
  I i w ->
  (forall j w', i <= j < i + Z.of_nat n -> I j w' ->
     wp (body j) w' (fun _ w'' => I (j + 1) w'')) ->
  wp (for_loop n i body) w (fun _ w' => I (i + Z.of_nat n) w').
Proof.
  induction n as [|n IH]; intros i w Hi Hbody; simpl for_loop.
  - apply wp_ret. replace (i + Z.of_nat 0) with i by lia. exact Hi.
  - apply wp_bind. eapply wp_mono; [apply (Hbody i w); [lia|exact Hi]|].
    intros u w' Hi'. simpl.
    replace (i + Z.of_nat (S n)) with (i + 1 + Z.of_nat n) by lia.
    apply IH; [exact Hi'|]. intros j w'' Hj. apply Hbody. lia.
Qed.

(** ** The words of [workmem] that are touched *)

(** [mem_in B w]: every word stored so far, and every word loaded before
    it was stored, has an index from 0 to [B - 1]. *)
Definition mem_in (B : Z) (w : workmem) : Prop :=
  (forall a v, wm_cells w !! a = Some v -> 0 <= a < B) /\
  (forall a, In a (wm_stale w) -> 0 <= a < B).

(** [wpb B m w Q]: [wp m w Q], and the run stores and loads no word
    outside the first [B] ones. *)
Definition wpb {T} (B : Z) (m : M T) (w : workmem) (Q : T -> workmem -> Prop) : Prop :=
  wp m w (fun r w' => Q r w' /\ (mem_in B w -> mem_in B w')).

Lemma wpb_wp {T} B (m : M T) w (Q : T -> workmem -> Prop) : wpb B m w Q -> wp m w Q.
Proof. intros H. eapply wp_mono; [exact H|]. intros r w' [HQ _]. exact HQ. Qed.

Lemma wpb_ret {T} B (x : T) w (Q : T -> workmem -> Prop) : Q x w -> wpb B (ret x) w Q.
Proof. intros H. apply wp_ret. split; [exact H|auto]. Qed.

Lemma wpb_bind {T U} B (m : M T) (k : T -> M U) w (Q : U -> workmem -> Prop) :
  wpb B m w (fun x w' => wpb B (k x) w' Q) -> wpb B (bind m k) w Q.
Proof.
  intros H. apply wp_bind. eapply wp_mono; [exact H|].
  intros x w1 [Hk Hm]. eapply wp_mono; [exact Hk|].
  intros r w2 [HQ Hm2]. split; [exact HQ|auto].
Qed.

Lemma wpb_mono {T} B (m : M T) w (Q Q' : T -> workmem -> Prop) :
  wpb B m w Q -> (forall r w', Q r w' -> Q' r w') -> wpb B m w Q'.
Proof.
  intros H HQ. eapply wp_mono; [exact H|]. intros r w' [H1 H2]. split; [auto|exact H2].
Qed.

Lemma mem_in_wstore B a v w : 0 <= a < B -> mem_in B w -> mem_in B (wstore a v w).
Proof.
  intros Ha [Hc Hs]. split; [|exact Hs]. intros a' v'. simpl.
  destruct (Z.eq_dec a' a) as [->|Hne]; [intros _; exact Ha|].
  rewrite lookup_insert_ne by congruence. apply Hc.
Qed.

Lemma wpb_store B a v w (Q : unit -> workmem -> Prop) :
  0 <= a < B -> Q tt (wstore a v w) -> wpb B (store a v) w Q.
Proof.
  intros Ha H. apply wp_store. split; [exact H|]. apply mem_in_wstore, Ha.
Qed.

Lemma wpb_load B a v w (Q : Z -> workmem -> Prop) :
  wm_cells w !! a = Some v -> Q v w -> wpb B (load a) w Q.
Proof. intros Ha H. eapply wp_load; [exact Ha|]. split; [exact H|auto]. Qed.

Lemma wpb_assert B b w (Q : unit -> workmem -> Prop) :
  b = true -> Q tt w -> wpb B (assert_ b) w Q.
Proof. intros Hb H. apply wp_assert; [exact Hb|]. split; [exact H|auto]. Qed.

(** Code that leaves [workmem] as it is. *)
Lemma wpb_same {T} B (m : M T) w (Q : T -> workmem -> Prop) :
  wp m w (fun r w' => w' = w /\ Q r w') -> wpb B m w (fun r w' => w' = w /\ Q r w').
Proof.
  intros H. eapply wp_mono; [exact H|]. intros r w' [-> HQ]. split; [split; [reflexivity|exact HQ]|auto].
Qed.

Lemma for_loop_wpb B (I : Z -> workmem -> Prop) body n : forall i w,
  I i w ->
  (forall j w', i <= j < i + Z.of_nat n -> I j w' ->
     wpb B (body j) w' (fun _ w'' => I (j + 1) w'')) ->
  wpb B (for_loop n i body) w (fun _ w' => I (i + Z.of_nat n) w').
Proof.
  induction n as [|n IH]; intros i w Hi Hbody; simpl for_loop.
  - apply wpb_ret. replace (i + Z.of_nat 0) with i by lia. exact Hi.
  - apply wpb_bind. eapply wpb_mono; [apply (Hbody i w); [lia|exact Hi]|].
    intros u w' Hi'. simpl.
    replace (i + Z.of_nat (S n)) with (i + 1 + Z.of_nat n) by lia.
    apply IH; [exact Hi'|]. intros j w'' Hj. apply Hbody. lia.
Qed.

(** ** Independence of the initial contents of [workmem] *)

(** [ni m]: a run of [m] that loads no word before it is stored gives the
    same result, and stores the same words, whatever [workmem] held at the
    start. *)
Definition ni {T} (m : M T) : Prop :=
  forall w1 r w1', m w1 = Some (r, w1') -> wm_stale w1' = [] ->
    wm_stale w1 = [] /\
    forall w2, wm_cells w2 = wm_cells w1 -> wm_stale w2 = [] ->
      exists w2', m w2 = Some (r, w2') /\ wm_cells w2' = wm_cells w1' /\
        wm_stale w2' = [].

Lemma ni_ret {T} (x : T) : ni (ret x).
Proof.
  intros w1 r w1' H Hs. injection H as <- <-. split; [exact Hs|].
  intros w2 Hc Hs2. exists w2. auto.
Qed.

Lemma ni_abort {T} : ni (@abort T).
Proof. intros w1 r w1' H. discriminate. Qed.

Lemma ni_bind {T U} (m : M T) (k : T -> M U) :
  ni m -> (forall x, ni (k x)) -> ni (bind m k).
Proof.
  intros Hm Hk w1 r w1' H Hs. unfold bind in H.
  destruct (m w1) as [[x wa]|] eqn:E; [|discriminate].
  destruct (Hk x wa r w1' H Hs) as (Hsa & Hk2).
  destruct (Hm w1 x wa E Hsa) as (Hs1 & Hm2).
  split; [exact Hs1|]. intros w2 Hc Hs2.
  destruct (Hm2 w2 Hc Hs2) as (wb & Eb & Hcb & Hsb).
  destruct (Hk2 wb Hcb Hsb) as (w2' & E2 & Hc2 & Hs2').
  exists w2'. split; [|auto]. unfold bind. rewrite Eb. exact E2.
Qed.

Lemma ni_load a : ni (load a).
Proof.
  intros w1 r w1' H Hs. unfold load in H.
  destruct (wm_cells w1 !! a) as [v|] eqn:E.
  - injection H as <- <-. split; [exact Hs|].
    intros w2 Hc Hs2. exists w2. unfold load. rewrite Hc, E. auto.
  - injection H as <- <-. simpl in Hs. discriminate.
Qed.

Lemma ni_store a v : ni (store a v).
Proof.
  intros w1 r w1' H Hs. injection H as <- <-. simpl in Hs. split; [exact Hs|].
  intros w2 Hc Hs2. exists (wstore a v w2). split; [reflexivity|].
  simpl. rewrite Hc. auto.
Qed.

Lemma ni_assert b : ni (assert_ b).
Proof.
  intros w1 r w1' H Hs. unfold assert_ in *. destruct b; [|discriminate].
  injection H as <- <-. split; [exact Hs|]. intros w2 Hc Hs2. exists w2. auto.
Qed.

Lemma ni_for_loop body n : (forall i, ni (body i)) -> forall i, ni (for_loop n i body).
Proof.
  intros Hb. induction n as [|n IH]; intros i; simpl.
  - apply ni_ret.
  - apply ni_bind; [apply Hb|]. intros _. apply IH.
Qed.

Ltac ni_step :=
  match goal with
  | |- ni (ret _) => apply ni_ret
  | |- ni abort => apply ni_abort
  | |- ni (load _) => apply ni_load
  | |- ni (store _ _) => apply ni_store
  | |- ni (assert_ _) => apply ni_assert
  | |- ni (bind _ _) => apply ni_bind; [|intros]
  | |- ni (for_loop _ _ _) => apply ni_for_loop; intros
  | |- ni (if ?c then _ else _) => destruct c
  | |- ni (match ?x with (_, _) => _ end) => destruct x
  | |- ni (let x := _ in _) => cbv zeta
  end.

Ltac ni_tac := repeat first [ni_step | assumption | solve [auto]].

Section ni_packers.
Variable inp : list byte.
Variables max_depth accept_len : Z.

Lemma ni_le_min_cost n : forall cur pos i mc mcl,
  ni (le_min_cost n cur pos i mc mcl).
Proof. induction n as [|n IH]; intros; simpl; ni_tac. Qed.

Lemma ni_le_left_extend fuel : forall cur pos mcl,
  ni (le_left_extend inp fuel cur pos mcl).
Proof. induction fuel as [|n IH]; intros; simpl; ni_tac. Qed.

Lemma ni_le_chain fuel : forall num_chain cur pos max_len len_limit,
  ni (le_chain inp accept_len fuel num_chain cur pos max_len len_limit).
Proof.
  induction fuel as [|n IH]; intros; simpl; ni_tac;
    first [apply ni_le_min_cost | apply ni_le_left_extend].
Qed.

Lemma ni_le_parse fuel : forall cur, ni (le_parse inp max_depth accept_len fuel cur).
Proof.
  induction fuel as [|n IH]; intros; simpl; ni_tac.
  unfold le_position. ni_tac. apply ni_le_chain.
Qed.

Lemma ni_le_emit fuel : forall i lbw toks, ni (le_emit inp fuel i lbw toks).
Proof. induction fuel as [|n IH]; intros; simpl; ni_tac. Qed.

Lemma ni_crush_pack_leparse : ni (crush_pack_leparse inp max_depth accept_len).
Proof.
  unfold crush_pack_leparse, le_init_lookup, le_build_chains. ni_tac.
  - apply ni_le_parse.
  - apply ni_le_emit.
Qed.

Lemma ni_bt_update_costs n : forall cur pos i, ni (bt_update_costs inp n cur pos i).
Proof. induction n as [|n IH]; intros; simpl; ni_tac. Qed.

Lemma ni_bt_walk fuel : forall num_chain cur pos lt gt lt_len gt_len max_len nmc ll,
  ni (bt_walk inp accept_len fuel num_chain cur pos lt gt lt_len gt_len max_len nmc ll).
Proof.
  induction fuel as [|n IH]; intros; simpl; ni_tac; apply ni_bt_update_costs.
Qed.

Lemma ni_bt_literal cur : ni (bt_literal inp cur).
Proof. unfold bt_literal. ni_tac. Qed.

Lemma ni_bt_parse n : forall cur nmc, ni (bt_parse inp max_depth accept_len n cur nmc).
Proof.
  induction n as [|n IH]; intros; simpl; ni_tac.
  unfold bt_position. ni_tac; first [apply ni_bt_literal | apply ni_bt_walk].
Qed.

(** Phase 1 of crush_btparse.h, up to the start of the gathering of the
    tokens. *)
Definition bt_phase1 : M unit :=
  bind (bt_init_lookup inp) (fun _ =>
  bind (bt_init_cost inp) (fun _ =>
  bind (store (bt_cost + 0) 0) (fun _ =>
  bind (bt_parse inp max_depth accept_len (Z.to_nat (bt_last_match_pos inp + 1)) 0 0)
    (fun _ => bt_tail_literals inp)))).

Lemma ni_bt_phase1 : ni bt_phase1.
Proof.
  unfold bt_phase1, bt_init_lookup, bt_init_cost, bt_tail_literals. ni_tac.
  - apply ni_bt_parse.
  - apply ni_bt_literal.
Qed.
End ni_packers.

(** * Facts shared by the two parsers *)

Lemma byte_at_range buf i : 0 <= byte_at buf i < 256.
Proof. apply byte_val_range. Qed.

Lemma crush_hash3_bits_range p i bits :
  0 < bits <= 32 -> 0 <= crush_hash3_bits p i bits < 2 ^ bits.
Proof.
  intros Hb. unfold crush_hash3_bits.
  rewrite shiftr_pow2 by lia.
  set (v := u32 _).
  assert (Hv : 0 <= v < 2 ^ 32) by (apply Z.mod_pos_bound; reflexivity).
  pose proof (pow2_gt0 (32 - bits) ltac:(lia)) as Hp.
  split; [apply Z.div_pos; lia|].
  apply Z.div_lt_upper_bound; [lia|].
  rewrite <- pow2_split by lia. replace (32 - bits + bits) with 32 by lia. lia.
Qed.

(** The cost of a match: between 10 and 15 bits for the tag, the length
    and the slot, and 6 to 25 bits of offset. *)
Lemma crush_match_cost_range pos len :
  0 <= pos < 2 ^ 26 -> MIN_MATCH <= len ->
  10 <= crush_match_cost pos len <= 44.
Proof.
  intros Hp Hl. unfold crush_match_cost.
  change (Z.shiftl 2 (W_BITS - NUM_SLOTS)) with 64.
  change (W_BITS - (NUM_SLOTS - 1)) with 6. change SLOT_BITS with 4.
  change A_BITS with 2; change B_BITS with 2; change C_BITS with 2;
  change D_BITS with 3; change E_BITS with 5; change F_BITS with 9.
  assert (Hlog : 64 <= pos -> 6 <= crush_log2 pos <= 25).
  { intros H64. rewrite crush_log2_spec.
    - split; [apply Z.log2_le_pow2; [lia|]; change (2 ^ 6) with 64; lia|].
      assert (Z.log2 pos < 26); [|lia]. apply Z.log2_lt_pow2; lia.
    - pose proof (pow2_mono 26 64 ltac:(lia)). lia. }
  split_ltb; lia.
Qed.

Lemma crush_match_cost_step pos len :
  0 <= pos < 2 ^ 26 -> MIN_MATCH <= len < MAX_MATCH ->
  crush_match_cost pos (len + 1) <= crush_match_cost pos len + 9.
Proof.
  change MIN_MATCH with 3; change MAX_MATCH with 566.
  intros Hp Hl. unfold crush_match_cost. change MIN_MATCH with 3.
  rewrite !ulong_small by (change (2 ^ 64) with 18446744073709551616; lia).
  change A with 4; change B with 8; change C with 12; change D with 20; change E with 52.
  change A_BITS with 2; change B_BITS with 2; change C_BITS with 2;
  change D_BITS with 3; change E_BITS with 5; change F_BITS with 9.
  destruct (Z.shiftl 2 (W_BITS - NUM_SLOTS) <=? pos); split_ltb; lia.
Qed.

Lemma match_len_loop_spec inp pos cur limit fuel : forall len,
  0 <= len -> limit - len <= Z.of_nat fuel ->
  let r := match_len_loop fuel inp pos cur len limit in
  len <= r /\ (len <= limit -> r <= limit) /\
  (forall k, len <= k < r -> byte_at inp (pos + k) = byte_at inp (cur + k)) /\
  (r < limit -> byte_at inp (pos + r) <> byte_at inp (cur + r)).
Proof.
  induction fuel as [|fuel IH]; intros len Hlen Hfuel; simpl.
  - split; [lia|]. split; [lia|]. split; [intros k Hk; lia|]. lia.
  - destruct (len <? limit) eqn:Hc; simpl.
    + apply Z.ltb_lt in Hc.
      destruct (byte_at inp (pos + len) =? byte_at inp (cur + len)) eqn:He.
      * apply Z.eqb_eq in He.
        destruct (IH (len + 1) ltac:(lia) ltac:(lia)) as (H1 & H2 & H3 & H4).
        split; [lia|]. split; [intros _; apply H2; lia|].
        split; [|exact H4].
        intros k Hk. destruct (Z.eq_dec k len) as [->|Hne]; [exact He|].
        apply H3. lia.
      * apply Z.eqb_neq in He.
        split; [lia|]. split; [lia|]. split; [intros k Hk; lia|]. intros _. exact He.
    + apply Z.ltb_ge in Hc.
      split; [lia|]. split; [lia|]. split; [intros k Hk; lia|]. lia.
Qed.

Lemma find_match_len_spec inp pos cur len limit :
  0 <= len <= limit ->
  len <= find_match_len inp pos cur len limit <= limit /\
  (forall k, len <= k < find_match_len inp pos cur len limit ->
     byte_at inp (pos + k) = byte_at inp (cur + k)) /\
  (find_match_len inp pos cur len limit < limit ->
     byte_at inp (pos + find_match_len inp pos cur len limit)
       <> byte_at inp (cur + find_match_len inp pos cur len limit)).
Proof.
  intros Hl. unfold find_match_len.
  destruct (match_len_loop_spec inp pos cur limit (Z.to_nat (limit - len)) len
              ltac:(lia) ltac:(lia)) as (H1 & H2 & H3 & H4).
  split; [split; [exact H1|apply H2; lia]|]. split; [exact H3|exact H4].
Qed.

(** ** Word stores *)

Ltac cell_simpl :=
  repeat first
    [ rewrite cells_wstore
    | rewrite stale_wstore
    | rewrite lookup_insert_eq
    | rewrite lookup_insert_ne by lia ].

Ltac cell_simpl_in H :=
  repeat first
    [ rewrite cells_wstore in H
    | rewrite stale_wstore in H
    | rewrite lookup_insert_eq in H
    | rewrite lookup_insert_ne in H by lia ].

Ltac bool_true :=
  repeat rewrite orb_true_iff; repeat rewrite andb_true_iff;
  repeat rewrite Z.ltb_lt; repeat rewrite Z.leb_le; repeat rewrite Z.eqb_eq.

(** [put_literals] writes the literal tokens of its input. *)
Lemma put_literals_tokens lbw inp :
  put_literals lbw inp = put_tokens LEparse lbw (map Literal inp).
Proof.
  unfold put_literals, put_tokens. revert lbw.
  induction inp as [|b inp IH]; intros lbw; simpl; [reflexivity|]. apply IH.
Qed.

Lemma put_tokens_parser p q lbw toks :
  Forall token_ok toks -> put_tokens p lbw toks = put_tokens q lbw toks.
Proof.
  intros H. revert lbw. induction H as [|t toks Ht _ IH]; intros lbw; simpl; [reflexivity|].
  rewrite (put_token_fields p), (put_token_fields q) by assumption. apply IH.
Qed.

Lemma spells_literals inp : forall pre,
  spells (pre ++ inp) (Z.of_nat (length pre)) (map Literal inp).
Proof.
  induction inp as [|b inp IH]; intros pre; simpl.
  - rewrite app_nil_r. constructor.
  - constructor; [lia| |].
    + rewrite Nat2Z.id. rewrite lookup_app_r by lia.
      rewrite Nat.sub_diag. reflexivity.
    + specialize (IH (pre ++ [b])). rewrite <- app_assoc in IH. simpl in IH.
      rewrite length_app in IH. simpl in IH.
      replace (Z.of_nat (length pre) + 1) with (Z.of_nat (length pre + 1)) by lia.
      exact IH.
Qed.

Lemma total_bits_literals inp : total_bits (map Literal inp) = 9 * Z.of_nat (length inp).
Proof.
  induction inp as [|b inp IH]; simpl length; simpl map; simpl total_bits; [lia|].
  rewrite IH. unfold token_bits; simpl. lia.
Qed.

Lemma total_bits_app t1 t2 : total_bits (t1 ++ t2) = total_bits t1 + total_bits t2.
Proof. induction t1 as [|t t1 IH]; simpl; lia. Qed.

(** * crush_leparse.h: the parse is a valid one *)

(** The number of source bytes a token stands for. *)
Definition token_len (t : token) : Z :=
  match t with
  | Literal _ => 1
  | Match len _ => len
  end.

Lemma NO_MATCH_POS_val : NO_MATCH_POS = 4294967295.
Proof. reflexivity. Qed.

Lemma BLOCK_SIZE_val : BLOCK_SIZE = 67108864.
Proof. reflexivity. Qed.

(** The number of words of [workmem] that [crush_leparse_workmem_size]
    asks for. *)
Definition le_words (src_size : Z) : Z :=
  if LOOKUP_SIZE <? 2 * src_size then 3 * src_size else src_size + LOOKUP_SIZE.

Section leparse_proof.
Variable inp : list byte.
Variables max_depth accept_len : Z.

Local Abbreviation N := (Z.of_nat (length inp)).

Hypothesis HN4 : 4 <= N.
Hypothesis HNmax : N <= BLOCK_SIZE.
Hypothesis Hdepth : 0 <= max_depth < 2 ^ 64.

(** The chain entries of the positions up to [cur] point backwards. *)
Definition le_prev_ok (m : gmap Z Z) (cur : Z) : Prop :=
  forall i, 0 <= i <= cur ->
    exists v, m !! (le_prev + i) = Some v /\ (v = NO_MATCH_POS \/ 0 <= v < i).

(** At position [j] the parse has chosen the token [t], and [cost[j]] is
    the number of bits of [t] plus [cost] at the position after it. *)
Definition le_choice (m : gmap Z Z) (j : Z) (t : token) (c : Z) : Prop :=
  exists c', m !! (le_mlen inp + j) = Some (token_len t) /\
    m !! (le_cost + j) = Some c /\
    m !! (le_cost + (j + token_len t)) = Some c' /\
    c = token_bits t + c' /\ 0 <= c' /\
    match t with
    | Literal b => inp !! Z.to_nat j = Some b
    | Match len offs =>
        m !! (le_mpos inp + j) = Some (j - offs) /\
        token_ok t /\ offs <= j /\ j + len <= N /\
        (forall k, 0 <= k < len ->
           byte_at inp (j - offs + k) = byte_at inp (j + k))
    end.

Definition le_done (m : gmap Z Z) (j : Z) : Prop :=
  exists t c, le_choice m j t c /\ c <= 9 * (N - j).

(** The state of phase 2 when the positions from [cur] on are done. *)
Definition le_inv (m : gmap Z Z) (cur : Z) : Prop :=
  le_prev_ok m (cur - 1) /\
  (forall j, cur <= j < N -> le_done m j) /\
  m !! (le_cost + N) = Some 0.

Ltac addr := unfold le_lookup, le_mlen, le_mpos, le_cost, le_prev in *.

Lemma le_words_fits : 3 * N <= le_words N /\ N + LOOKUP_SIZE <= le_words N \/
  3 * N <= le_words N /\ LOOKUP_SIZE <= 2 * N.
Proof.
  unfold le_words. change LOOKUP_SIZE with 131072.
  destruct (131072 <? 2 * N) eqn:E; [apply Z.ltb_lt in E|apply Z.ltb_ge in E]; lia.
Qed.

Ltac bnd := addr; pose proof le_words_fits; lia.
Ltac store_in := apply wpb_store; [bnd|].

(** Stores below [cur] leave the choices from [cur] on as they are. *)
Definition le_same_above (m m' : gmap Z Z) (cur : Z) : Prop :=
  forall a, (cur <= a <= N \/ N + cur <= a < 2 * N \/ 2 * N + cur <= a < 3 * N) ->
    m' !! a = m !! a.

Lemma le_choice_frame m m' cur j t c :
  le_same_above m m' cur -> cur <= j < N ->
  le_choice m j t c -> le_choice m' j t c.
Proof.
  intros Hs Hj (c' & Hl & Hc & Hc' & Hcost & Hpos & Ht).
  assert (Hlen : 1 <= token_len t /\ j + token_len t <= N).
  { destruct t as [b|len offs]; simpl in *.
    - apply lookup_lt_Some in Ht. lia.
    - destruct Ht as (_ & [Hl3 _] & _ & Hle & _). change MIN_MATCH with 3 in Hl3. lia. }
  exists c'. addr.
  rewrite !Hs by lia. repeat (split; [assumption|]). exact Ht.
Qed.

Lemma le_done_frame m m' cur j :
  le_same_above m m' cur -> cur <= j < N -> le_done m j -> le_done m' j.
Proof.
  intros Hs Hj (t & c & Hc & Hb). exists t, c.
  split; [eapply le_choice_frame; eassumption|exact Hb].
Qed.

Lemma le_done_cost m j : le_done m j -> 0 <= j ->
  exists c, m !! (le_cost + j) = Some c /\ 0 <= c <= 9 * (N - j).
Proof.
  intros (t & c & (c' & _ & Hc & _ & Hcost & Hpos & Ht) & Hb) Hj.
  exists c. split; [exact Hc|]. split; [|exact Hb].
  assert (0 <= token_bits t); [|lia].
  destruct t as [b|len offs].
  - unfold token_bits; simpl. lia.
  - apply fwidth_nonneg, token_fields_ok. tauto.
Qed.

Lemma le_inv_cost m cur j : le_inv m cur -> cur <= j <= N -> 0 <= j ->
  exists c, m !! (le_cost + j) = Some c /\ 0 <= c <= 9 * (N - j).
Proof.
  intros (_ & Hd & HN) Hj Hj0. destruct (Z.eq_dec j N) as [->|Hne].
  - exists 0. split; [exact HN|lia].
  - apply le_done_cost; [apply Hd; lia|lia].
Qed.

(** ** Phase 3 *)

Lemma le_emit_spec fuel : forall i lbw toks w,
  1 <= i <= N -> N - i <= Z.of_nat fuel ->
  (forall j, i <= j < N -> le_done (wm_cells w) j) ->
  wm_cells w !! (le_cost + N) = Some 0 ->
  exists ts c,
    le_emit inp fuel i lbw toks w =
      Some ((put_tokens LEparse lbw ts, toks ++ ts), w) /\
    spells inp i ts /\
    wm_cells w !! (le_cost + i) = Some c /\ total_bits ts = c.
Proof.
  induction fuel as [|fuel IH]; intros i lbw toks w Hi Hfuel Hd HN.
  - assert (i = N) by lia. subst i. exists [], 0. simpl.
    rewrite Z.ltb_irrefl, app_nil_r.
    split; [reflexivity|]. split; [constructor|]. auto.
  - simpl le_emit. destruct (i <? N) eqn:Hlt.
    + apply Z.ltb_lt in Hlt.
      destruct (Hd i ltac:(lia)) as (t & c & (c' & Hl & Hc & Hc' & Hcost & Hpos & Ht) & Hb).
      unfold bind at 1. unfold load at 1. rewrite Hl.
      destruct t as [b|len offs]; simpl token_len in *.
      * simpl. unfold bind at 1. unfold ret at 1.
        rewrite ulong_small
          by (rewrite BLOCK_SIZE_val in HNmax; change (2 ^ 64) with 18446744073709551616; lia).
        destruct (IH (i + 1) (put_literal lbw (nth (Z.to_nat i) inp x00))
                    (toks ++ [Literal (nth (Z.to_nat i) inp x00)]) w)
          as (ts & c2 & He & Hs & Hc2 & Hbits); try lia; try assumption.
        { intros j Hj. apply Hd. lia. }
        rewrite (nth_lookup_Some _ _ _ _ Ht) in He.
        exists (Literal b :: ts), c.
        rewrite (nth_lookup_Some _ _ _ _ Ht).
        rewrite He, <- app_assoc. split; [reflexivity|].
        split; [constructor; [lia|assumption|assumption]|].
        split; [assumption|]. simpl. rewrite Hbits. congruence.
      * destruct Ht as (Hp & Hok & Ho & Hlen & Heq).
        pose proof Hok as [Hl3 Ho1]. change MIN_MATCH with 3 in Hl3.
        replace (len =? 1) with false by (symmetry; apply Z.eqb_neq; lia).
        unfold bind at 1. unfold bind at 1. unfold load at 1. rewrite Hp.
        unfold ret at 1.
        rewrite BLOCK_SIZE_val in HNmax.
        replace (ulong (ulong (i - (i - offs)) - 1)) with (offs - 1).
        2:{ rewrite !ulong_small; change (2 ^ 64) with 18446744073709551616; try lia.
            rewrite ulong_small; change (2 ^ 64) with 18446744073709551616; lia. }
        rewrite ulong_small by (change (2 ^ 64) with 18446744073709551616; lia).
        destruct (IH (i + len) (put_match LEparse lbw len (offs - 1))
                    (toks ++ [Match len (offs - 1 + 1)]) w)
          as (ts & c2 & He & Hs & Hc2 & Hbits); try lia; try assumption.
        { intros j Hj. apply Hd. lia. }
        replace (offs - 1 + 1) with offs in * by lia.
        exists (Match len offs :: ts), c.
        change (put_offs_le (put_match_len lbw len) (offs - 1))
          with (put_match LEparse lbw len (offs - 1)).
        rewrite He, <- app_assoc. split; [reflexivity|].
        split; [constructor; assumption|].
        split; [assumption|]. simpl. rewrite Hbits. congruence.
    + apply Z.ltb_ge in Hlt. assert (i = N) by lia. subst i.
      exists [], 0. rewrite app_nil_r.
      split; [reflexivity|]. split; [constructor|]. auto.
Qed.

(** ** Phase 2 *)

Lemma ulong_id x : 0 <= x <= 10 * BLOCK_SIZE -> ulong x = x.
Proof.
  intros H. apply ulong_small. rewrite BLOCK_SIZE_val in H.
  change (2 ^ 64) with 18446744073709551616. lia.
Qed.

Lemma le_match_cost_bits cur pos i :
  0 <= pos < cur -> cur <= N -> cur - pos <= W_SIZE ->
  MIN_MATCH <= i <= MAX_MATCH ->
  crush_match_cost (ulong (ulong (cur - pos) - 1)) i = token_bits (Match i (cur - pos)).
Proof.
  intros Hp Hc Hw Hi. rewrite (ulong_id (cur - pos)) by lia.
  rewrite ulong_id by lia.
  apply match_cost_fields; [assumption|lia].
Qed.

Lemma token_bits_match_range len offs :
  token_ok (Match len offs) -> 10 <= token_bits (Match len offs) <= 44.
Proof.
  intros [Hl Ho]. rewrite <- match_cost_fields by assumption.
  apply crush_match_cost_range; [|lia].
  change W_SIZE with 2097152 in Ho. change (2 ^ 26) with 67108864. lia.
Qed.

Lemma token_bits_match_step len offs :
  MIN_MATCH <= len < MAX_MATCH -> 1 <= offs <= W_SIZE ->
  token_bits (Match (len + 1) offs) <= token_bits (Match len offs) + 9.
Proof.
  intros Hl Ho. rewrite <- !match_cost_fields by lia.
  apply crush_match_cost_step; [|lia].
  change W_SIZE with 2097152 in Ho. change (2 ^ 26) with 67108864. lia.
Qed.

(** What [le_min_cost] has found after looking at the lengths from [i0]
    up to, not including, [i]. *)
Definition le_min_found (m : gmap Z Z) (cur pos i0 i : Z) (r : Z * Z) : Prop :=
  fst r = ULONG_MAX \/
  (i0 <= snd r < i /\
   exists c', m !! (le_cost + (cur + snd r)) = Some c' /\ 0 <= c' /\
     fst r = token_bits (Match (snd r) (cur - pos)) + c').

Lemma le_min_cost_spec n : forall cur pos i0 i mc mcl w,
  le_inv (wm_cells w) cur -> 0 <= pos < cur -> cur - pos <= W_SIZE ->
  MIN_MATCH <= i0 <= i -> i + Z.of_nat n - 1 <= MAX_MATCH ->
  cur + (i + Z.of_nat n - 1) <= N ->
  le_min_found (wm_cells w) cur pos i0 i (mc, mcl) ->
  wpb (le_words N) (le_min_cost n cur pos i mc mcl) w
    (fun r w' => w' = w /\ le_min_found (wm_cells w) cur pos i0 (i + Z.of_nat n) r).
Proof.
  change MIN_MATCH with 3; change MAX_MATCH with 566.
  induction n as [|n IH]; intros cur pos i0 i mc mcl w Hinv Hpos Hw Hi Hmax Hlen Hf.
  - simpl. apply wpb_ret. split; [reflexivity|].
    replace (i + Z.of_nat 0) with i by lia. exact Hf.
  - simpl le_min_cost.
    destruct (le_inv_cost _ _ (cur + i) Hinv ltac:(lia) ltac:(lia)) as (c & Hc & Hcb).
    apply wpb_bind. eapply wpb_load; [exact Hc|].
    rewrite le_match_cost_bits
      by (change MIN_MATCH with 3; change MAX_MATCH with 566; lia).
    assert (Hok : token_ok (Match i (cur - pos)))
      by (split; [change MIN_MATCH with 3; change MAX_MATCH with 566|]; lia).
    pose proof (token_bits_match_range _ _ Hok) as Hr.
    pose proof BLOCK_SIZE_val as HB.
    apply wpb_bind. apply wpb_assert.
    { apply Z.ltb_lt. unfold ULONG_MAX. rewrite ulong_small; change (2 ^ 64) with 18446744073709551616; lia. }
    rewrite ulong_id by lia.
    replace (i + Z.of_nat (S n)) with (i + 1 + Z.of_nat n) by lia.
    destruct (token_bits (Match i (cur - pos)) + c <? mc).
    + apply IH; try assumption; try lia.
      right. simpl. split; [lia|]. exists c. auto with zarith.
    + apply IH; try assumption; try lia.
      destruct Hf as [Hf|(Hf1 & Hf2)]; [left; exact Hf|right].
      split; [lia|exact Hf2].
Qed.

(** The stores of a match of length [len] from [cur] to [pos]. *)
Lemma le_store_match w cur pos len c' :
  ((forall j, cur + 1 <= j < N -> le_done (wm_cells w) j) /\
   wm_cells w !! (le_cost + N) = Some 0) ->
  le_prev_ok (wm_cells w) (cur - 1) ->
  0 <= pos < cur -> cur <= N - 3 -> cur - pos <= W_SIZE ->
  MIN_MATCH <= len <= MAX_MATCH -> cur + len <= N ->
  (forall k, 0 <= k < len -> byte_at inp (pos + k) = byte_at inp (cur + k)) ->
  wm_cells w !! (le_cost + (cur + len)) = Some c' -> 0 <= c' ->
  token_bits (Match len (cur - pos)) + c' <= 9 * (N - cur) ->
  le_inv (wm_cells
    (wstore (le_mlen inp + cur) len
      (wstore (le_mpos inp + cur) pos
        (wstore (le_cost + cur) (token_bits (Match len (cur - pos)) + c') w)))) cur.
Proof.
  intros (Hd & HN) Hprev Hpos Hcur Hw Hlen Hfit Heq Hc' Hc'0 Hb.
  change MIN_MATCH with 3 in Hlen.
  set (m := wm_cells w) in *.
  assert (Hsame : le_same_above m
    (<[le_mlen inp + cur := len]> (<[le_mpos inp + cur := pos]>
       (<[le_cost + cur := token_bits (Match len (cur - pos)) + c']> m))) (cur + 1)).
  { intros a Ha. addr. rewrite !lookup_insert_ne by lia. reflexivity. }
  cell_simpl. fold m. split; [|split].
  - intros i Hi. destruct (Hprev i Hi) as (v & Hv & Hvb). exists v.
    split; [|exact Hvb]. addr. rewrite !lookup_insert_ne by lia. exact Hv.
  - intros j Hj. destruct (Z.eq_dec j cur) as [->|Hne].
    + exists (Match len (cur - pos)), (token_bits (Match len (cur - pos)) + c').
      split; [|exact Hb]. exists c'. simpl token_len. addr.
      rewrite lookup_insert_eq.
      rewrite (lookup_insert_ne _ (0 + N + N + cur) (0 + cur)) by lia.
      rewrite (lookup_insert_ne _ (0 + N + cur) (0 + cur)) by lia.
      rewrite lookup_insert_eq.
      rewrite (lookup_insert_ne _ (0 + N + N + cur) (0 + (cur + len))) by lia.
      rewrite (lookup_insert_ne _ (0 + N + cur) (0 + (cur + len))) by lia.
      rewrite (lookup_insert_ne _ (0 + cur) (0 + (cur + len))) by lia.
      rewrite (lookup_insert_ne _ (0 + N + N + cur) (0 + N + cur)) by lia.
      rewrite lookup_insert_eq.
      split; [reflexivity|]. split; [reflexivity|]. split; [exact Hc'|].
      split; [reflexivity|]. split; [exact Hc'0|].
      split; [f_equal; lia|].
      split; [split; [change MIN_MATCH with 3|]; lia|]. split; [lia|]. split; [lia|].
      intros k Hk. replace (cur - (cur - pos) + k) with (pos + k) by lia. apply Heq, Hk.
    + eapply le_done_frame; [exact Hsame|lia|]. apply Hd. lia.
  - addr. rewrite !lookup_insert_ne by lia. exact HN.
Qed.

Lemma le_inv_weaken m cur : le_inv m cur -> le_prev_ok m (cur - 2).
Proof.
  intros (Hp & _) i Hi. apply Hp. lia.
Qed.

Lemma le_left_extend_spec fuel : forall cur pos mcl w,
  le_inv (wm_cells w) cur -> 0 < pos < cur -> cur <= N - 3 ->
  pos <= Z.of_nat fuel ->
  MIN_MATCH <= mcl < MAX_MATCH -> cur + mcl <= N -> cur - pos <= W_SIZE ->
  byte_at inp (pos - 1) = byte_at inp (cur - 1) ->
  (forall k, 0 <= k < mcl -> byte_at inp (pos + k) = byte_at inp (cur + k)) ->
  (exists c', wm_cells w !! (le_cost + (cur + mcl)) = Some c' /\ 0 <= c' /\
     token_bits (Match mcl (cur - pos)) + c' <= 9 * (N - cur)) ->
  wpb (le_words N) (le_left_extend inp fuel cur pos mcl) w
    (fun cur' w' => 1 <= cur' < cur /\ le_inv (wm_cells w') cur' /\
       wm_stale w' = wm_stale w).
Proof.
  induction fuel as [|fuel IH];
    intros cur pos mcl w Hinv Hpos Hcur Hfuel Hmcl Hfit Hw Hb1 Heq (c' & Hc' & Hc'0 & Hbound);
    [lia|].
  pose proof BLOCK_SIZE_val as HB.
  pose proof Hmcl as Hmcl'. change MIN_MATCH with 3 in Hmcl'; change MAX_MATCH with 566 in Hmcl'.
  simpl le_left_extend.
  rewrite (ulong_id (cur - 1)), (ulong_id (pos - 1)), (ulong_id (mcl + 1)) by lia.
  replace (cur - 1 + (mcl + 1)) with (cur + mcl) by lia.
  rewrite le_match_cost_bits
    by (try (change MIN_MATCH with 3; change MAX_MATCH with 566); lia).
  replace (cur - 1 - (pos - 1)) with (cur - pos) by lia.
  assert (Hok : token_ok (Match (mcl + 1) (cur - pos)))
    by (split; [change MIN_MATCH with 3; change MAX_MATCH with 566|]; lia).
  pose proof (token_bits_match_range _ _ Hok) as Hr.
  pose proof (token_bits_match_step mcl (cur - pos) Hmcl ltac:(lia)) as Hstep.
  apply wpb_bind. eapply wpb_load; [exact Hc'|].
  apply wpb_bind. apply wpb_assert.
  { apply Z.ltb_lt. unfold ULONG_MAX.
    rewrite ulong_small; change (2 ^ 64) with 18446744073709551616; lia. }
  rewrite ulong_id by lia.
  apply wpb_bind. store_in. apply wpb_bind. store_in.
  apply wpb_bind. store_in.
  assert (Heq' : forall k, 0 <= k < mcl + 1 ->
            byte_at inp (pos - 1 + k) = byte_at inp (cur - 1 + k)).
  { intros k Hk. destruct (Z.eq_dec k 0) as [->|Hk0].
    - rewrite !Z.add_0_r. exact Hb1.
    - replace (pos - 1 + k) with (pos + (k - 1)) by lia.
      replace (cur - 1 + k) with (cur + (k - 1)) by lia. apply Heq. lia. }
  match goal with |- wpb _ _ ?w1 _ => set (w' := w1) end.
  assert (Hinv' : le_inv (wm_cells w') (cur - 1)).
  { pose proof (le_store_match w (cur - 1) (pos - 1) (mcl + 1) c') as H.
    replace (cur - 1 - (pos - 1)) with (cur - pos) in H by lia.
    replace (cur - 1 + (mcl + 1)) with (cur + mcl) in H by lia.
    replace (cur - 1 + 1) with cur in H by lia.
    apply H; try assumption; try lia;
      try (change MIN_MATCH with 3; change MAX_MATCH with 566; lia).
    - destruct Hinv as (_ & Hd & HN). split; [|exact HN]. intros j Hj. apply Hd. lia.
    - replace (cur - 1 - 1) with (cur - 2) by lia. apply le_inv_weaken, Hinv. }
  assert (Hst : wm_stale w' = wm_stale w) by reflexivity.
  destruct ((0 <? pos - 1) && (byte_at inp (pos - 1 - 1) =? byte_at inp (cur - 1 - 1))
            && (mcl + 1 <? MAX_MATCH)) eqn:Hcond.
  - apply andb_true_iff in Hcond as [Hcond H3].
    apply andb_true_iff in Hcond as [H1 H2].
    apply Z.ltb_lt in H1, H3. apply Z.eqb_eq in H2.
    eapply wpb_mono.
    + apply IH; try assumption; try lia.
      replace (cur - 1 + (mcl + 1)) with (cur + mcl) by lia.
      replace (cur - 1 - (pos - 1)) with (cur - pos) by lia.
      exists c'. split; [|lia].
      unfold w'. cell_simpl. addr. rewrite !lookup_insert_ne by lia. exact Hc'.
    + intros cur' w'' (Hc1 & Hc2 & Hc3). split; [lia|]. split; [exact Hc2|]. congruence.
  - apply wpb_ret. split; [lia|]. split; [exact Hinv'|exact Hst].
Qed.

Definition le_len_limit (cur : Z) : Z :=
  if MAX_MATCH <? N - cur then MAX_MATCH else N - cur.

Lemma le_chain_spec fuel : forall num_chain cur pos max_len w,
  le_inv (wm_cells w) cur -> 1 <= cur <= N - 3 ->
  (pos = NO_MATCH_POS \/ 0 <= pos < cur) ->
  0 <= num_chain < 2 ^ 64 -> num_chain < Z.of_nat fuel ->
  MIN_MATCH - 1 <= max_len ->
  wpb (le_words N) (le_chain inp accept_len fuel num_chain cur pos max_len (le_len_limit cur)) w
    (fun cur' w' => 1 <= cur' <= cur /\ le_inv (wm_cells w') cur' /\
       wm_stale w' = wm_stale w).
Proof.
  induction fuel as [|fuel IH];
    intros num_chain cur pos max_len w Hinv Hcur Hpos Hnc Hfuel Hml; [lia|].
  pose proof BLOCK_SIZE_val as HB. pose proof NO_MATCH_POS_val as HNO.
  change (MIN_MATCH - 1) with 2 in Hml.
  assert (Hll : 3 <= le_len_limit cur <= 566 /\ cur + le_len_limit cur <= N).
  { unfold le_len_limit. change MAX_MATCH with 566.
    destruct (566 <? N - cur) eqn:E; [apply Z.ltb_lt in E|apply Z.ltb_ge in E]; lia. }
  simpl le_chain.
  destruct (pos =? NO_MATCH_POS) eqn:Hno.
  { apply wpb_ret. split; [lia|]. auto. }
  apply Z.eqb_neq in Hno. destruct Hpos as [Hpos|Hpos]; [contradiction|].
  destruct (num_chain =? 0) eqn:Hnc0.
  { apply wpb_ret. split; [lia|]. auto. }
  apply Z.eqb_neq in Hnc0.
  rewrite (ulong_small (num_chain - 1)) by lia.
  rewrite (ulong_id (cur - pos)) by lia.
  destruct (W_SIZE <? cur - pos) eqn:Hws.
  { apply wpb_ret. split; [lia|]. auto. }
  apply Z.ltb_ge in Hws.
  match goal with |- context [if max_len <? ?l then _ else _] => set (len := l) end.
  assert (Hlen : 0 <= len <= le_len_limit cur /\
            forall k, 0 <= k < len -> byte_at inp (pos + k) = byte_at inp (cur + k)).
  { unfold len. destruct (_ && _).
    - destruct (find_match_len_spec inp pos cur 0 (le_len_limit cur) ltac:(lia))
        as (H1 & H2 & _). split; assumption.
    - split; [lia|]. intros k Hk. lia. }
  destruct Hlen as (Hlen & Heq).
  (* the end of a round of the walk that has not left the loop *)
  assert (Hcont : forall w' max_len',
    le_inv (wm_cells w') cur -> wm_stale w' = wm_stale w -> 2 <= max_len' ->
    wpb (le_words N) (if (accept_len <=? len) || (len =? le_len_limit cur) then ret cur
        else bind (load (le_prev + pos)) (fun pos' =>
               le_chain inp accept_len fuel (num_chain - 1) cur pos' max_len'
                 (le_len_limit cur))) w'
      (fun cur' w'' => 1 <= cur' <= cur /\ le_inv (wm_cells w'') cur' /\
         wm_stale w'' = wm_stale w)).
  { intros w' max_len' Hinv' Hst' Hml'.
    destruct ((accept_len <=? len) || (len =? le_len_limit cur)).
    - apply wpb_ret. split; [lia|]. auto.
    - destruct Hinv' as (Hp & Hrest).
      destruct (Hp pos ltac:(lia)) as (v & Hv & Hvb).
      apply wpb_bind. eapply wpb_load; [exact Hv|].
      eapply wpb_mono.
      + apply IH; try lia.
        * split; assumption.
        * change (MIN_MATCH - 1) with 2. lia.
      + intros cur' w'' (H1 & H2 & H3). split; [lia|]. split; [exact H2|]. congruence. }
  destruct (max_len <? len) eqn:Hgt; [apply Z.ltb_lt in Hgt|apply Hcont; auto].
  apply wpb_bind. eapply wpb_mono.
  { apply (le_min_cost_spec (Z.to_nat (len - max_len)) cur pos (max_len + 1));
      try assumption; try lia;
      try (change MIN_MATCH with 3; change MAX_MATCH with 566; lia).
    left. reflexivity. }
  intros [mc mcl] w' (-> & Hfound). simpl in Hfound.
  destruct (le_inv_cost _ _ cur Hinv ltac:(lia) ltac:(lia)) as (c & Hc & Hcb).
  apply wpb_bind. eapply wpb_load; [exact Hc|].
  destruct (mc <? c) eqn:Hlt; [apply Z.ltb_lt in Hlt|apply Hcont; auto; lia].
  destruct Hfound as [Hf|(Hmcl & c' & Hc' & Hc'0 & Hmc)]; simpl in *.
  { unfold ULONG_MAX in Hf. change (2 ^ 64 - 1) with 18446744073709551615 in Hf. lia. }
  apply wpb_bind. store_in. apply wpb_bind. store_in.
  apply wpb_bind. store_in.
  match goal with |- wpb _ _ ?w1 _ => set (w' := w1) end.
  assert (Hinv' : le_inv (wm_cells w') cur).
  { unfold w'. rewrite Hmc. destruct Hinv as (Hp & Hd & HNc).
    apply le_store_match; try assumption; try lia;
      try (change MIN_MATCH with 3; change MAX_MATCH with 566; lia).
    - split; [|exact HNc]. intros j Hj. apply Hd. lia.
    - intros k Hk. apply Heq. lia. }
  assert (Hst : wm_stale w' = wm_stale w) by reflexivity.
  destruct ((0 <? pos) && (byte_at inp (pos - 1) =? byte_at inp (cur - 1))
            && (mcl <? MAX_MATCH)) eqn:Hcond; [|apply Hcont; auto; lia].
  apply andb_true_iff in Hcond as [Hcond H3].
  apply andb_true_iff in Hcond as [H1 H2].
  apply Z.ltb_lt in H1, H3. apply Z.eqb_eq in H2.
  eapply wpb_mono.
  - apply le_left_extend_spec; try assumption; try lia;
      try (change MIN_MATCH with 3; lia).
    + intros k Hk. apply Heq. lia.
    + exists c'. split; [|lia].
      unfold w'. cell_simpl. addr. rewrite !lookup_insert_ne by lia. exact Hc'.
  - intros cur' w'' (Hc1 & Hc2 & Hc3). split; [lia|]. split; [exact Hc2|]. congruence.
Qed.

Lemma token_bits_literal b : token_bits (Literal b) = 9.
Proof. reflexivity. Qed.

(** A position that has just been set to a literal. *)
Lemma le_store_literal w cur c1 :
  ((forall j, cur + 1 <= j < N -> le_done (wm_cells w) j) /\
   wm_cells w !! (le_cost + N) = Some 0) ->
  le_prev_ok (wm_cells w) (cur - 1) ->
  0 <= cur < N ->
  wm_cells w !! (le_cost + (cur + 1)) = Some c1 -> 0 <= c1 <= 9 * (N - (cur + 1)) ->
  le_inv (wm_cells (wstore (le_mlen inp + cur) 1 (wstore (le_cost + cur) (c1 + 9) w))) cur.
Proof.
  intros (Hd & HN) Hprev Hcur Hc1 Hc1b.
  set (m := wm_cells w) in *.
  assert (Hsame : le_same_above m
    (<[le_mlen inp + cur := 1]> (<[le_cost + cur := c1 + 9]> m)) (cur + 1)).
  { intros a Ha. addr. rewrite !lookup_insert_ne by lia. reflexivity. }
  cell_simpl. fold m. split; [|split].
  - intros i Hi. destruct (Hprev i Hi) as (v & Hv & Hvb). exists v.
    split; [|exact Hvb]. addr. rewrite !lookup_insert_ne by lia. exact Hv.
  - intros j Hj. destruct (Z.eq_dec j cur) as [->|Hne].
    + destruct (lookup_lt_is_Some_2 inp (Z.to_nat cur) ltac:(lia)) as [b Hb].
      exists (Literal b), (c1 + 9). split; [|lia].
      exists c1. simpl token_len. rewrite token_bits_literal. addr.
      rewrite lookup_insert_eq.
      rewrite (lookup_insert_ne _ (0 + N + N + cur) (0 + cur)) by lia.
      rewrite lookup_insert_eq.
      rewrite !lookup_insert_ne by lia.
      split; [reflexivity|]. split; [reflexivity|]. split; [exact Hc1|].
      split; [lia|]. split; [lia|exact Hb].
    + eapply le_done_frame; [exact Hsame|lia|]. apply Hd. lia.
  - addr. rewrite !lookup_insert_ne by lia. exact HN.
Qed.

Lemma le_position_spec cur w :
  le_inv (wm_cells w) (cur + 1) -> 1 <= cur <= N - 3 ->
  wpb (le_words N) (le_position inp max_depth accept_len cur) w
    (fun cur' w' => 1 <= cur' <= cur /\ le_inv (wm_cells w') cur' /\
       wm_stale w' = wm_stale w).
Proof.
  intros Hinv Hcur. pose proof BLOCK_SIZE_val as HB.
  unfold le_position.
  pose proof Hinv as (Hp & Hd & HN).
  destruct (Hp cur ltac:(lia)) as (pos & Hpos & Hposb).
  apply wpb_bind. eapply wpb_load; [exact Hpos|].
  apply wpb_bind. apply wpb_assert.
  { apply orb_true_iff. destruct Hposb as [->|Hb]; [left; apply Z.eqb_refl|].
    right. apply Z.ltb_lt. lia. }
  destruct (le_inv_cost _ _ (cur + 1) Hinv ltac:(lia) ltac:(lia)) as (c1 & Hc1 & Hc1b).
  apply wpb_bind. eapply wpb_load; [exact Hc1|].
  rewrite ulong_id by lia.
  apply wpb_bind. store_in. apply wpb_bind. store_in.
  match goal with |- wpb _ _ ?w1 _ => set (w' := w1) end.
  assert (Hinv' : le_inv (wm_cells w') cur).
  { unfold w'. apply le_store_literal; try assumption; try lia.
    - split; assumption.
    - intros i Hi. apply Hp. lia. }
  eapply wpb_mono.
  - change (if MAX_MATCH <? Z.of_nat (length inp) - cur then MAX_MATCH
            else Z.of_nat (length inp) - cur) with (le_len_limit cur).
    apply le_chain_spec; try assumption; try lia.
  - intros cur' w'' (H1 & H2 & H3). split; [lia|]. split; [exact H2|].
    rewrite H3. reflexivity.
Qed.

Lemma le_parse_spec fuel : forall cur w,
  le_inv (wm_cells w) (cur + 1) -> 0 <= cur <= N - 3 -> cur <= Z.of_nat fuel ->
  wpb (le_words N) (le_parse inp max_depth accept_len fuel cur) w
    (fun _ w' => le_inv (wm_cells w') 1 /\ wm_stale w' = wm_stale w).
Proof.
  induction fuel as [|fuel IH]; intros cur w Hinv Hcur Hfuel; simpl le_parse.
  - replace (0 <? cur) with false by (symmetry; apply Z.ltb_ge; lia).
    apply wpb_ret. assert (cur = 0) by lia. subst cur. auto.
  - destruct (0 <? cur) eqn:Hc; [apply Z.ltb_lt in Hc|apply Z.ltb_ge in Hc].
    + apply wpb_bind. eapply wpb_mono; [apply le_position_spec; [assumption|lia]|].
      intros cur' w' (H1 & H2 & H3). eapply wpb_mono.
      * apply IH; [|lia|lia]. replace (cur' - 1 + 1) with cur' by lia. exact H2.
      * intros u w'' (H4 & H5). split; [exact H4|]. congruence.
    + apply wpb_ret. assert (cur = 0) by lia. subst cur. auto.
Qed.

(** ** Phase 1 *)

Lemma le_hash_bits_range : 16 <= le_hash_bits inp <= 26.
Proof.
  pose proof BLOCK_SIZE_val as HB. unfold le_hash_bits.
  rewrite ulong_id by lia. change LOOKUP_SIZE with 131072. change CRUSH_HASH_BITS with 17.
  destruct (2 * N <? 131072) eqn:E; [lia|]. apply Z.ltb_ge in E.
  rewrite crush_log2_spec by (change (2 ^ 64) with 18446744073709551616; lia).
  split.
  - apply Z.log2_le_pow2; [lia|]. change (2 ^ 16) with 65536. lia.
  - assert (Z.log2 N < 27); [|lia]. apply Z.log2_lt_pow2; [lia|].
    change (2 ^ 27) with 134217728. lia.
Qed.

Lemma le_hash_bits_fits : N + 2 ^ le_hash_bits inp <= le_words N.
Proof.
  pose proof BLOCK_SIZE_val as HB. unfold le_hash_bits, le_words.
  rewrite ulong_id by lia. change LOOKUP_SIZE with 131072. change CRUSH_HASH_BITS with 17.
  destruct (2 * N <? 131072) eqn:E; [apply Z.ltb_lt in E|apply Z.ltb_ge in E].
  - replace (131072 <? 2 * N) with false by (symmetry; apply Z.ltb_ge; lia).
    change (2 ^ 17) with 131072. lia.
  - rewrite crush_log2_spec by (change (2 ^ 64) with 18446744073709551616; lia).
    pose proof (Z.log2_spec N ltac:(lia)) as [Hlo _].
    destruct (131072 <? 2 * N) eqn:E2; [lia|]. apply Z.ltb_ge in E2. lia.
Qed.

Lemma le_init_lookup_spec bits w :
  0 <= bits <= 32 -> N + 2 ^ bits <= le_words N ->
  wpb (le_words N) (le_init_lookup inp bits) w
    (fun _ w' =>
       (forall h, 0 <= h < 2 ^ bits ->
          wm_cells w' !! (le_lookup inp + h) = Some NO_MATCH_POS) /\
       wm_stale w' = wm_stale w).
Proof.
  intros Hb Hfit. unfold le_init_lookup.
  assert (Hn : Z.of_nat (Z.to_nat (ulong (Z.shiftl 1 bits))) = 2 ^ bits).
  { rewrite shiftl_pow2, Z.mul_1_l by lia.
    pose proof (pow2_gt0 bits ltac:(lia)). pose proof (pow2_mono bits 32 ltac:(lia)).
    rewrite ulong_small; [lia|]. change (2 ^ 32) with 4294967296 in *.
    change (2 ^ 64) with 18446744073709551616. lia. }
  eapply wpb_mono.
  - apply (for_loop_wpb (le_words N) (fun i w' =>
      (forall h, 0 <= h < i -> wm_cells w' !! (le_lookup inp + h) = Some NO_MATCH_POS) /\
      wm_stale w' = wm_stale w)).
    + split; [intros h Hh; lia|reflexivity].
    + intros j w' Hj (Hc & Hs). store_in. split; [|exact Hs].
      intros h Hh. cell_simpl. destruct (Z.eq_dec h j) as [->|Hne].
      * apply lookup_insert_eq.
      * rewrite lookup_insert_ne by lia. apply Hc. lia.
  - intros u w' (Hc & Hs). rewrite Hn in Hc. simpl in Hc. auto.
Qed.

Lemma le_build_chains_spec bits w :
  0 < bits <= 32 -> N + 2 ^ bits <= le_words N ->
  (forall h, 0 <= h < 2 ^ bits ->
     wm_cells w !! (le_lookup inp + h) = Some NO_MATCH_POS) ->
  wpb (le_words N) (le_build_chains inp bits) w
    (fun _ w' => le_prev_ok (wm_cells w') (N - 3) /\ wm_stale w' = wm_stale w).
Proof.
  intros Hb Hfit Hl. unfold le_build_chains, le_last_match_pos.
  replace (3 <? N) with true by (symmetry; apply Z.ltb_lt; lia).
  replace (0 <? N - 3) with true by (symmetry; apply Z.ltb_lt; lia).
  eapply wpb_mono.
  - apply (for_loop_wpb (le_words N) (fun i w' =>
      (forall h, 0 <= h < 2 ^ bits -> exists v,
         wm_cells w' !! (le_lookup inp + h) = Some v /\
         (v = NO_MATCH_POS \/ 0 <= v < i)) /\
      (forall k, 0 <= k < i -> exists v,
         wm_cells w' !! (le_prev + k) = Some v /\ (v = NO_MATCH_POS \/ 0 <= v < k)) /\
      wm_stale w' = wm_stale w)).
    + split; [|split; [intros k Hk; lia|reflexivity]].
      intros h Hh. exists NO_MATCH_POS. split; [apply Hl, Hh|left; reflexivity].
    + intros j w' Hj (Hlk & Hpv & Hs).
      pose proof (crush_hash3_bits_range inp j bits Hb) as Hh.
      destruct (Hlk _ Hh) as (v & Hv & Hvb).
      apply wpb_bind. eapply wpb_load; [exact Hv|].
      apply wpb_bind. store_in. store_in.
      split; [|split; [|exact Hs]].
      * intros h Hh'. cell_simpl.
        destruct (Z.eq_dec h (crush_hash3_bits inp j bits)) as [->|Hne].
        -- exists j. rewrite lookup_insert_eq. split; [reflexivity|right; lia].
        -- rewrite lookup_insert_ne by (addr; lia).
           rewrite lookup_insert_ne by (addr; lia).
           destruct (Hlk h Hh') as (v' & Hv' & Hvb'). exists v'.
           split; [exact Hv'|]. destruct Hvb'; [left; assumption|right; lia].
      * intros k Hk. cell_simpl. rewrite lookup_insert_ne by (addr; lia).
        destruct (Z.eq_dec k j) as [->|Hne].
        -- exists v. rewrite lookup_insert_eq. split; [reflexivity|exact Hvb].
        -- rewrite lookup_insert_ne by (addr; lia). apply Hpv. lia.
  - intros u w' (_ & Hpv & Hs). split; [|exact Hs].
    intros i Hi. apply Hpv. lia.
Qed.

(** ** The whole of [crush_pack_leparse], for four bytes or more *)

Definition pack_ok (p : parser) (r : list byte * list token) : Prop :=
  spells inp 0 (snd r) /\ total_bits (snd r) <= 9 * N /\
  fst r = lbw_finalize (put_tokens p lbw_init (snd r)).

Lemma crush_pack_leparse_long w :
  wpb (le_words N) (crush_pack_leparse inp max_depth accept_len) w
    (fun r w' => pack_ok LEparse r /\ wm_stale w' = wm_stale w).
Proof.
  pose proof BLOCK_SIZE_val as HB. pose proof le_hash_bits_range as Hbits.
  unfold crush_pack_leparse.
  replace (N =? 0) with false by (symmetry; apply Z.eqb_neq; lia).
  replace (N <? 4) with false by (symmetry; apply Z.ltb_ge; lia).
  cbv zeta.
  apply wpb_bind. eapply wpb_mono;
    [apply le_init_lookup_spec; [lia|apply le_hash_bits_fits]|].
  intros u0 w0 (Hl & Hs0).
  apply wpb_bind. eapply wpb_mono;
    [apply le_build_chains_spec; [lia|apply le_hash_bits_fits|exact Hl]|].
  intros u1 w1 (Hp & Hs1).
  do 5 (apply wpb_bind; store_in).
  match goal with |- wpb _ _ ?wx _ => set (w2 := wx) end.
  assert (Hinv2 : le_inv (wm_cells w2) (N - 3 + 1)).
  { unfold w2. cell_simpl. split; [|split].
    - intros i Hi. destruct (Hp i ltac:(lia)) as (v & Hv & Hvb). exists v.
      split; [|exact Hvb]. addr. rewrite !lookup_insert_ne by lia. exact Hv.
    - intros j Hj.
      destruct (lookup_lt_is_Some_2 inp (Z.to_nat j) ltac:(lia)) as [b Hb].
      destruct (Z.eq_dec j (N - 2)) as [->|Hne].
      + exists (Literal b), 18. split; [|lia]. exists 9. simpl token_len.
        rewrite token_bits_literal. addr.
        repeat first [rewrite lookup_insert_eq | rewrite lookup_insert_ne by lia].
        replace (0 + (N - 2 + 1)) with (0 + (N - 1)) by lia.
        repeat first [rewrite lookup_insert_eq | rewrite lookup_insert_ne by lia].
        repeat split; try reflexivity; try lia. exact Hb.
      + assert (j = N - 1) by lia. subst j.
        exists (Literal b), 9. split; [|lia]. exists 0. simpl token_len.
        rewrite token_bits_literal. addr.
        repeat first [rewrite lookup_insert_eq | rewrite lookup_insert_ne by lia].
        replace (0 + (N - 1 + 1)) with (0 + N) by lia.
        repeat first [rewrite lookup_insert_eq | rewrite lookup_insert_ne by lia].
        repeat split; try reflexivity; try lia. exact Hb.
    - addr. apply lookup_insert_eq. }
  assert (Hst2 : wm_stale w2 = wm_stale w) by (unfold w2; cell_simpl; congruence).
  apply wpb_bind. unfold le_last_match_pos.
  replace (3 <? N) with true by (symmetry; apply Z.ltb_lt; lia).
  eapply wpb_mono; [apply le_parse_spec; [exact Hinv2|lia|lia]|].
  intros u3 w3 ((Hp3 & Hd3 & HN3) & Hst3).
  do 2 (apply wpb_bind; store_in).
  match goal with |- wpb _ _ ?wx _ => set (w4 := wx) end.
  assert (Hd4 : forall j, 1 <= j < N -> le_done (wm_cells w4) j).
  { intros j Hj. eapply (le_done_frame (wm_cells w3) _ 1); [|lia|apply Hd3; lia].
    intros a Ha. unfold w4. cell_simpl. addr.
    rewrite lookup_insert_ne by lia.
    destruct (Z.eq_dec a (0 + N + 0)) as [->|Hne].
    - rewrite lookup_insert_eq. rewrite <- HN3. f_equal. lia.
    - rewrite lookup_insert_ne by lia. reflexivity. }
  assert (HN4' : wm_cells w4 !! (le_cost + N) = Some 0).
  { unfold w4. cell_simpl. addr. rewrite lookup_insert_ne by lia.
    replace (0 + N + 0) with (0 + N) by lia. apply lookup_insert_eq. }
  assert (Hm0 : wm_cells w4 !! (le_mlen inp + 0) = Some 1).
  { unfold w4. cell_simpl. reflexivity. }
  assert (Hst4 : wm_stale w4 = wm_stale w) by (unfold w4; cell_simpl; congruence).
  destruct (lookup_lt_is_Some_2 inp (Z.to_nat 0) ltac:(lia)) as [b0 Hb0].
  destruct (Z.to_nat N) as [|fuel] eqn:Hfuel; [lia|].
  destruct (le_emit_spec fuel 1 (put_literal lbw_init b0) [Literal b0] w4)
    as (ts & c & He & Hsp & Hc & Htot); try lia; try assumption.
  destruct (le_done_cost _ _ (Hd4 1 ltac:(lia)) ltac:(lia)) as (c1 & Hc1 & Hc1b).
  exists (lbw_finalize (put_tokens LEparse lbw_init (Literal b0 :: ts)), Literal b0 :: ts), w4.
  assert (Hemit : le_emit inp (S fuel) 0 lbw_init [] w4 =
    Some ((put_tokens LEparse lbw_init (Literal b0 :: ts), Literal b0 :: ts), w4)).
  { simpl le_emit.
    replace (0 <? N) with true by (symmetry; apply Z.ltb_lt; lia).
    unfold bind, load. rewrite Hm0. simpl.
    rewrite (nth_lookup_Some _ _ _ _ Hb0).
    change (ulong (0 + 1)) with 1. exact He. }
  split.
  - unfold bind at 1. rewrite Hemit. reflexivity.
  - split; [|exact (fun H => H)].
    split; [|exact Hst4]. split; [|split; [|reflexivity]].
    + simpl. constructor; [lia|exact Hb0|exact Hsp].
    + simpl. rewrite token_bits_literal, Htot.
      assert (c = c1) by congruence. lia.
Qed.
End leparse_proof.

(** * crush_btparse.h: the trees of phase 1 *)

Section suffix_order.
Variable inp : list byte.

(** The strings at [a] and [b] agree on their first [k] bytes. *)
Definition pre_eq (a b k : Z) : Prop :=
  forall i, 0 <= i < k -> byte_at inp (a + i) = byte_at inp (b + i).

(** The string at [a] is less than the string at [b], by a byte among
    the first [K]. *)
Definition lt_upto (K a b : Z) : Prop :=
  exists j, 0 <= j < K /\ pre_eq a b j /\ byte_at inp (a + j) < byte_at inp (b + j).

(** The order of the trees: the strings compared on their first [K]
    bytes only. *)
Definition le_upto (K a b : Z) : Prop := pre_eq a b K \/ lt_upto K a b.

Lemma pre_eq_refl a k : pre_eq a a k.
Proof. intros i Hi. reflexivity. Qed.

Lemma pre_eq_sym a b k : pre_eq a b k -> pre_eq b a k.
Proof. intros H i Hi. symmetry. apply H, Hi. Qed.

Lemma pre_eq_trans a b c k : pre_eq a b k -> pre_eq b c k -> pre_eq a c k.
Proof. intros H1 H2 i Hi. rewrite H1, H2 by assumption. reflexivity. Qed.

Lemma pre_eq_le a b k k' : k' <= k -> pre_eq a b k -> pre_eq a b k'.
Proof. intros Hk H i Hi. apply H. lia. Qed.

Lemma le_upto_refl K a : le_upto K a a.
Proof. left. apply pre_eq_refl. Qed.

Lemma le_upto_mono K K' a b : K' <= K -> le_upto K a b -> le_upto K' a b.
Proof.
  intros HK [He|(j & Hj & Hp & Hlt)].
  - left. eapply pre_eq_le; eassumption.
  - destruct (Z.lt_ge_cases j K').
    + right. exists j. split; [lia|]. split; assumption.
    + left. eapply pre_eq_le; [|exact Hp]. lia.
Qed.

Lemma le_upto_trans K a b c : le_upto K a b -> le_upto K b c -> le_upto K a c.
Proof.
  intros [He1|(j1 & Hj1 & Hp1 & Hlt1)] [He2|(j2 & Hj2 & Hp2 & Hlt2)].
  - left. eapply pre_eq_trans; eassumption.
  - right. exists j2. split; [lia|]. split.
    + eapply pre_eq_trans; [eapply pre_eq_le; [|exact He1]; lia|exact Hp2].
    + rewrite (He1 j2) by lia. exact Hlt2.
  - right. exists j1. split; [lia|]. split.
    + eapply pre_eq_trans; [exact Hp1|eapply pre_eq_le; [|exact He2]; lia].
    + rewrite <- (He2 j1) by lia. exact Hlt1.
  - right. destruct (Z.lt_trichotomy j1 j2) as [H|[H|H]].
    + exists j1. split; [lia|]. split.
      * eapply pre_eq_trans; [exact Hp1|eapply pre_eq_le; [|exact Hp2]; lia].
      * rewrite <- (Hp2 j1) by lia. exact Hlt1.
    + subst j2. exists j1. split; [lia|]. split.
      * eapply pre_eq_trans; eassumption.
      * lia.
    + exists j2. split; [lia|]. split.
      * eapply pre_eq_trans; [eapply pre_eq_le; [|exact Hp1]; lia|exact Hp2].
      * rewrite (Hp1 j2) by lia. exact Hlt2.
Qed.

(** A string between two strings that share a prefix shares it too. *)
Lemma le_upto_between K a x b c m :
  le_upto K a x -> le_upto K x b -> m <= K ->
  pre_eq a c m -> pre_eq b c m -> pre_eq x c m.
Proof.
  intros Hax Hxb Hm Hac Hbc.
  assert (Hab : pre_eq a b m) by (eapply pre_eq_trans; [exact Hac|apply pre_eq_sym, Hbc]).
  assert (Hgoal : pre_eq a x m).
  { destruct Hax as [He|(j1 & Hj1 & Hp1 & Hlt1)].
    - eapply pre_eq_le; [|exact He]. lia.
    - destruct (Z.lt_ge_cases j1 m) as [Hlt|Hge];
        [|eapply pre_eq_le; [|exact Hp1]; lia].
      exfalso.
      destruct Hxb as [He|(j2 & Hj2 & Hp2 & Hlt2)].
      + pose proof (He j1 ltac:(lia)). pose proof (Hab j1 ltac:(lia)). lia.
      + destruct (Z.lt_trichotomy j1 j2) as [H|[H|H]].
        * pose proof (Hp2 j1 ltac:(lia)). pose proof (Hab j1 ltac:(lia)). lia.
        * subst j2. pose proof (Hab j1 ltac:(lia)). lia.
        * pose proof (Hp1 j2 ltac:(lia)). pose proof (Hab j2 ltac:(lia)). lia. }
  eapply pre_eq_trans; [apply pre_eq_sym, Hgoal|exact Hac].
Qed.
End suffix_order.

(** * The nodes as trees *)

Section reach.
Variable inp : list byte.

Local Abbreviation N := (Z.of_nat (length inp)).

(** [reach m v x]: in the node array of [m], the position [x] is in the
    tree under the position [v] ([v] itself, or below one of its two
    slots). *)
Inductive reach (m : gmap Z Z) : Z -> Z -> Prop :=
  | reach_self v : 0 <= v < NO_MATCH_POS -> reach m v v
  | reach_lt v c x :
      0 <= v < NO_MATCH_POS -> m !! (bt_nodes inp + 2 * v) = Some c ->
      reach m c x -> reach m v x
  | reach_gt v c x :
      0 <= v < NO_MATCH_POS -> m !! (bt_nodes inp + (2 * v + 1)) = Some c ->
      reach m c x -> reach m v x.

Lemma reach_trans m a b c : reach m a b -> reach m b c -> reach m a c.
Proof.
  induction 1 as [v Hv|v c' x Hv Hc Hr IH|v c' x Hv Hc Hr IH]; intros Hbc.
  - exact Hbc.
  - eapply reach_lt; eauto.
  - eapply reach_gt; eauto.
Qed.

Lemma reach_start m v x : reach m v x -> 0 <= v < NO_MATCH_POS.
Proof. destruct 1; assumption. Qed.

Lemma reach_end m v x : reach m v x -> 0 <= x < NO_MATCH_POS.
Proof. induction 1; assumption. Qed.

Lemma reach_none m x : ~ reach m NO_MATCH_POS x.
Proof. intros H. apply reach_start in H. lia. Qed.

(** Every slot of a position below [cur] is set, to [NO_MATCH_POS] or to
    an earlier position. *)
Definition bt_tree_ok (m : gmap Z Z) (cur : Z) : Prop :=
  forall p, 0 <= p < cur ->
    exists l g, m !! (bt_nodes inp + 2 * p) = Some l /\
      m !! (bt_nodes inp + (2 * p + 1)) = Some g /\
      (l = NO_MATCH_POS \/ 0 <= l < p) /\ (g = NO_MATCH_POS \/ 0 <= g < p).

Lemma reach_below m cur v x :
  bt_tree_ok m cur -> v < cur -> reach m v x -> 0 <= x <= v.
Proof.
  intros Ht Hv Hr. revert Hv.
  induction Hr as [v Hv|v c x Hv Hc Hr IH|v c x Hv Hc Hr IH]; intros Hlt.
  - lia.
  - destruct (Ht v ltac:(lia)) as (l & g & Hl & Hg & Hlb & Hgb).
    assert (c = l) by congruence. subst c.
    destruct Hlb as [->|Hlb]; [exfalso; eapply reach_none; eassumption|].
    specialize (IH ltac:(lia)). lia.
  - destruct (Ht v ltac:(lia)) as (l & g & Hl & Hg & Hlb & Hgb).
    assert (c = g) by congruence. subst c.
    destruct Hgb as [->|Hgb]; [exfalso; eapply reach_none; eassumption|].
    specialize (IH ltac:(lia)). lia.
Qed.

(** Stores outside the slots of the positions below [cur] change nothing
    under a position below [cur]. *)
Lemma reach_frame m m' cur v x :
  bt_tree_ok m cur ->
  (forall k, 0 <= k < 2 * cur -> m' !! (bt_nodes inp + k) = m !! (bt_nodes inp + k)) ->
  v < cur -> reach m' v x -> reach m v x.
Proof.
  intros Ht Hsame Hv Hr. revert Hv.
  induction Hr as [v Hv|v c x Hv Hc Hr IH|v c x Hv Hc Hr IH]; intros Hlt.
  - constructor. assumption.
  - rewrite Hsame in Hc by lia.
    destruct (Ht v ltac:(lia)) as (l & g & Hl & Hg & Hlb & Hgb).
    assert (c = l) by congruence. subst c.
    destruct Hlb as [->|Hlb]; [exfalso; eapply reach_none; eassumption|].
    eapply reach_lt; [assumption|exact Hl|]. apply IH. lia.
  - rewrite Hsame in Hc by lia.
    destruct (Ht v ltac:(lia)) as (l & g & Hl & Hg & Hlb & Hgb).
    assert (c = g) by congruence. subst c.
    destruct Hgb as [->|Hgb]; [exfalso; eapply reach_none; eassumption|].
    eapply reach_gt; [assumption|exact Hg|]. apply IH. lia.
Qed.

(** Storing [x] into a slot keeps [x] under whatever it was under. *)
Lemma reach_keep m s v x :
  reach m v x -> reach (<[s := x]> m) v x.
Proof.
  induction 1 as [v Hv|v d x Hv Hd Hr IH|v d x Hv Hd Hr IH].
  - constructor. assumption.
  - destruct (Z.eq_dec s (bt_nodes inp + 2 * v)) as [->|Hne].
    + eapply reach_lt; [assumption|apply lookup_insert_eq|].
      constructor. eapply reach_end. exact Hr.
    + eapply reach_lt; [assumption|rewrite lookup_insert_ne by assumption; exact Hd|exact IH].
  - destruct (Z.eq_dec s (bt_nodes inp + (2 * v + 1))) as [->|Hne].
    + eapply reach_gt; [assumption|apply lookup_insert_eq|].
      constructor. eapply reach_end. exact Hr.
    + eapply reach_gt; [assumption|rewrite lookup_insert_ne by assumption; exact Hd|exact IH].
Qed.
End reach.

(** * crush_btparse.h: the parse is a valid one *)

Lemma UINT32_MAX_val : UINT32_MAX = 4294967295.
Proof. reflexivity. Qed.

(** The number of words of [workmem] that [crush_btparse_workmem_size]
    asks for. *)
Definition bt_words (src_size : Z) : Z := 5 * src_size + 3 + LOOKUP_SIZE.

Section btparse_proof.
Variable inp : list byte.
Variables max_depth accept_len : Z.

Local Abbreviation N := (Z.of_nat (length inp)).

Hypothesis HN4 : 4 <= N.
Hypothesis HNmax : N <= BLOCK_SIZE.
Hypothesis Hdepth : 0 <= max_depth < 2 ^ 64.
Hypothesis Haccept : 0 <= accept_len < 2 ^ 64.

Ltac addr := unfold bt_lookup, bt_nodes, bt_mlen, bt_mpos, bt_cost in *.

(** ** The costs *)

(** [cost[j]] is the cost of arriving at [j] with the token [t] as the
    last one. *)
Definition bt_arrival (m : gmap Z Z) (j : Z) (t : token) (c : Z) : Prop :=
  exists c', m !! (bt_mlen inp + j) = Some (token_len t) /\
    m !! (bt_cost + (j - token_len t)) = Some c' /\
    c = c' + token_bits t /\ 0 <= c' /\ 0 <= j - token_len t /\
    match t with
    | Literal b => inp !! Z.to_nat (j - 1) = Some b
    | Match len offs =>
        m !! (bt_mpos inp + j) = Some (offs - 1) /\
        token_ok t /\ offs <= j - len /\
        (forall k, 0 <= k < len ->
           byte_at inp (j - len - offs + k) = byte_at inp (j - len + k))
    end.

(** The costs when the positions up to [pred] have been looked at and
    the literal step has been made up to [bnd]. *)
Definition bt_dp (m : gmap Z Z) (pred bnd : Z) : Prop :=
  (forall j, 0 <= j <= N ->
     exists c, m !! (bt_cost + j) = Some c /\ 0 <= c <= UINT32_MAX /\
       (c < UINT32_MAX ->
        (j = 0 /\ c = 0) \/
        (exists t, bt_arrival m j t c /\ j - token_len t <= pred))) /\
  (forall j, 0 <= j <= bnd ->
     exists c, m !! (bt_cost + j) = Some c /\ c <= 9 * j).

Definition bt_lookup_ok (m : gmap Z Z) (cur : Z) : Prop :=
  forall h, 0 <= h < LOOKUP_SIZE ->
    exists v, m !! (bt_lookup inp + h) = Some v /\ (v = NO_MATCH_POS \/ 0 <= v < cur).

(** ** The order in the trees *)

Definition slot (p s : Z) : Z := bt_nodes inp + (2 * p + s).

(** [side_le K 0 x p]: [x] may stand in the slot 0 of [p] (the strings not
    greater); [side_le K 1 x p]: in the slot 1. *)
Definition side_le (K s x p : Z) : Prop :=
  if s =? 0 then le_upto inp K x p else le_upto inp K p x.

Definition bt_bst (m : gmap Z Z) (cur K : Z) : Prop :=
  forall p s c x, 0 <= p < cur -> (s = 0 \/ s = 1) ->
    m !! slot p s = Some c -> reach inp m c x -> side_le K s x p.

Lemma side_le_trans K s x y z :
  (s = 0 \/ s = 1) -> side_le K s x y -> side_le K s y z -> side_le K s x z.
Proof.
  unfold side_le. intros [->| ->]; simpl; intros H1 H2.
  - eapply le_upto_trans; eassumption.
  - eapply le_upto_trans; eassumption.
Qed.

Lemma side_le_mono K K' s x y : K' <= K -> side_le K s x y -> side_le K' s x y.
Proof. unfold side_le. intros HK. destruct (s =? 0); apply le_upto_mono; exact HK. Qed.

Lemma side_le_eq K s x y : pre_eq inp x y K -> side_le K s x y.
Proof.
  unfold side_le. intros H. destruct (s =? 0); left; [exact H|apply pre_eq_sym, H].
Qed.

Lemma bt_bst_mono m cur K K' : K' <= K -> bt_bst m cur K -> bt_bst m cur K'.
Proof.
  intros HK H p s c x Hp Hs Hc Hr. eapply side_le_mono; [exact HK|].
  eapply H; eassumption.
Qed.

Lemma bt_tree_slot m cur p s :
  bt_tree_ok inp m cur -> 0 <= p < cur -> (s = 0 \/ s = 1) ->
  exists c, m !! slot p s = Some c /\ (c = NO_MATCH_POS \/ 0 <= c < p).
Proof.
  intros Ht Hp Hs. destruct (Ht p Hp) as (l & g & Hl & Hg & Hlb & Hgb).
  unfold slot. destruct Hs as [->| ->].
  - exists l. rewrite Z.add_0_r. auto.
  - exists g. auto.
Qed.

(** ** Stores and the invariants of the trees *)

Definition bt_trees (m : gmap Z Z) (cur K : Z) : Prop :=
  bt_tree_ok inp m cur /\ bt_bst m cur K.

(** A store outside the slots of the positions below [cur]. *)
Lemma bt_trees_store_outside m cur K a v :
  bt_trees m cur K -> (a < bt_nodes inp \/ bt_nodes inp + 2 * cur <= a) ->
  bt_trees (<[a := v]> m) cur K.
Proof.
  intros (Ht & Hb) Ha.
  assert (Hsame : forall k, 0 <= k < 2 * cur ->
            <[a := v]> m !! (bt_nodes inp + k) = m !! (bt_nodes inp + k)).
  { intros k Hk. apply lookup_insert_ne. lia. }
  split.
  - intros p Hp. destruct (Ht p Hp) as (l & g & Hl & Hg & Hlb & Hgb).
    exists l, g. rewrite !Hsame by lia. auto.
  - intros p s c x Hp Hs Hc Hr. unfold slot in Hc.
    rewrite Hsame in Hc by lia.
    destruct (bt_tree_slot m cur p s Ht Hp Hs) as (c0 & Hc0 & Hc0b).
    unfold slot in Hc0. assert (c0 = c) by congruence. subst c0.
    destruct Hc0b as [->|Hcb]; [exfalso; eapply reach_none; eassumption|].
    eapply Hb; [exact Hp|exact Hs|exact Hc0|].
    eapply reach_frame; [exact Ht|exact Hsame| |exact Hr]. lia.
Qed.

Lemma bt_dp_store_outside m pred bnd a v :
  bt_dp m pred bnd -> bnd <= N -> bt_nodes inp <= a ->
  bt_dp (<[a := v]> m) pred bnd.
Proof.
  intros (Hd & Hbd) Hbn Ha. split.
  - intros j Hj. destruct (Hd j Hj) as (c & Hc & Hcr & Hgood).
    exists c. split; [addr; rewrite lookup_insert_ne by lia; exact Hc|].
    split; [exact Hcr|]. intros Hlt.
    destruct (Hgood Hlt) as [H0|(t & (c' & Hl & Hc' & Hcost & Hc'0 & Hp0 & Ht) & Hp)];
      [left; exact H0|right].
    exists t. split; [|exact Hp].
    assert (Hlen : 1 <= token_len t).
    { destruct t as [b|len offs]; simpl; [lia|].
      destruct Ht as (_ & [Hl3 _] & _). change MIN_MATCH with 3 in Hl3. lia. }
    exists c'. addr. rewrite !lookup_insert_ne by lia.
    repeat (split; [assumption|]). exact Ht.
  - intros j Hj. destruct (Hbd j Hj) as (c & Hc & Hcb). exists c.
    split; [addr; rewrite lookup_insert_ne by lia; exact Hc|exact Hcb].
Qed.

(** ** The stores of the costs *)

Definition nodes_eq (m m' : gmap Z Z) : Prop :=
  forall a, bt_nodes inp <= a -> m' !! a = m !! a.

Lemma nodes_eq_refl m : nodes_eq m m.
Proof. intros a _. reflexivity. Qed.

Lemma nodes_eq_trans m1 m2 m3 : nodes_eq m1 m2 -> nodes_eq m2 m3 -> nodes_eq m1 m3.
Proof. intros H1 H2 a Ha. rewrite H2, H1 by exact Ha. reflexivity. Qed.

Lemma nodes_eq_sym m m' : nodes_eq m m' -> nodes_eq m' m.
Proof. intros H a Ha. symmetry. apply H, Ha. Qed.

Lemma bt_dp_pred m pred pred' bnd :
  pred <= pred' -> bt_dp m pred bnd -> bt_dp m pred' bnd.
Proof.
  intros Hp (Hd & Hb). split; [|exact Hb].
  intros j Hj. destruct (Hd j Hj) as (c & Hc & Hcr & Hgood).
  exists c. split; [exact Hc|]. split; [exact Hcr|]. intros Hlt.
  destruct (Hgood Hlt) as [H0|(t & Ha & Hpr)]; [left; exact H0|right].
  exists t. split; [exact Ha|lia].
Qed.

Lemma bt_dp_bnd m pred bnd c :
  bt_dp m pred bnd -> m !! (bt_cost + (bnd + 1)) = Some c -> c <= 9 * (bnd + 1) ->
  bt_dp m pred (bnd + 1).
Proof.
  intros (Hd & Hb) Hc Hcb. split; [exact Hd|].
  intros j Hj. destruct (Z.eq_dec j (bnd + 1)) as [->|Hne].
  - exists c. auto.
  - apply Hb. lia.
Qed.

Lemma bt_dp_cost m pred bnd j :
  bt_dp m pred bnd -> 0 <= j <= N ->
  exists c, m !! (bt_cost + j) = Some c /\ 0 <= c <= UINT32_MAX /\ (j <= bnd -> c <= 9 * j).
Proof.
  intros (Hd & Hb) Hj. destruct (Hd j Hj) as (c & Hc & Hcr & _).
  exists c. split; [exact Hc|]. split; [exact Hcr|]. intros Hjb.
  destruct (Hb j ltac:(lia)) as (c' & Hc' & Hcb). congruence.
Qed.

(** A new way to arrive at [j0], from a position up to [pred]. *)
Lemma bt_dp_arrive m m' pred bnd j0 c t :
  bt_dp m pred bnd -> 0 <= pred < j0 -> j0 <= N -> bnd < j0 ->
  (forall a, a <> bt_cost + j0 -> a <> bt_mpos inp + j0 -> a <> bt_mlen inp + j0 ->
     m' !! a = m !! a) ->
  m' !! (bt_cost + j0) = Some c -> 0 <= c <= UINT32_MAX ->
  bt_arrival m' j0 t c -> j0 - token_len t <= pred ->
  bt_dp m' pred bnd.
Proof.
  intros (Hd & Hb) Hj0 Hj0N Hbnd Hsame Hc Hcr Harr Hpr. split.
  - intros j Hj. destruct (Z.eq_dec j j0) as [->|Hne].
    + exists c. split; [exact Hc|]. split; [exact Hcr|]. intros _. right.
      exists t. auto.
    + destruct (Hd j Hj) as (d & Hdc & Hdr & Hgood).
      exists d. split; [rewrite Hsame by (addr; lia); exact Hdc|].
      split; [exact Hdr|]. intros Hlt.
      destruct (Hgood Hlt) as [H0|(t' & (c' & Hl & Hc' & Hcost & Hc'0 & Hp0 & Ht) & Hp)];
        [left; exact H0|right].
      exists t'. split; [|exact Hp].
      exists c'. split; [rewrite Hsame by (addr; lia); exact Hl|].
      split; [rewrite Hsame by (addr; lia); exact Hc'|].
      split; [exact Hcost|]. split; [exact Hc'0|]. split; [exact Hp0|].
      destruct t' as [b|len offs]; [exact Ht|].
      destruct Ht as (Hm & Hrest). split; [|exact Hrest].
      rewrite Hsame by (addr; lia). exact Hm.
  - intros j Hj. destruct (Hb j Hj) as (d & Hdc & Hdb).
    exists d. split; [|exact Hdb]. rewrite Hsame by (addr; lia). exact Hdc.
Qed.

Ltac bnd :=
  addr; unfold bt_words; change LOOKUP_SIZE with 131072 in *;
  change (2 ^ CRUSH_HASH_BITS) with 131072 in *; lia.
Ltac store_in := apply wpb_store; [bnd|].

Ltac cells :=
  cell_simpl; rewrite ?lookup_insert_ne by (addr; lia); rewrite ?lookup_insert_eq.

Lemma bt_literal_spec cur w :
  0 <= cur < N -> bt_dp (wm_cells w) cur cur ->
  wpb (bt_words N) (bt_literal inp cur) w
    (fun _ w' => bt_dp (wm_cells w') cur (cur + 1) /\
                 nodes_eq (wm_cells w) (wm_cells w') /\ wm_stale w' = wm_stale w).
Proof.
  intros Hcur Hdp. pose proof BLOCK_SIZE_val as HBS. pose proof UINT32_MAX_val as HU.
  destruct (bt_dp_cost _ _ _ (cur + 1) Hdp ltac:(lia)) as (c1 & Hc1 & Hc1r & _).
  destruct (bt_dp_cost _ _ _ cur Hdp ltac:(lia)) as (c0 & Hc0 & Hc0r & Hc0b).
  specialize (Hc0b ltac:(lia)).
  unfold bt_literal.
  apply wpb_bind. eapply wpb_load; [exact Hc1|].
  apply wpb_bind. eapply wpb_load; [exact Hc0|].
  rewrite u32_small by (change (2 ^ 32) with 4294967296; lia).
  destruct (c0 + 9 <? c1) eqn:E.
  - apply Z.ltb_lt in E.
    apply wpb_bind. store_in. store_in.
    destruct (lookup_lt_is_Some_2 inp (Z.to_nat cur) ltac:(lia)) as (b & Hb).
    split; [|split].
    + apply (bt_dp_bnd _ _ _ (c0 + 9)); [| |lia].
      * eapply (bt_dp_arrive (wm_cells w) _ cur cur (cur + 1) (c0 + 9) (Literal b));
          [exact Hdp|lia|lia|lia| | |lia| |simpl; lia].
        -- intros a H1 H2 H3. cells. reflexivity.
        -- cells. reflexivity.
        -- exists c0. simpl token_len. replace (cur + 1 - 1) with cur by lia. cells.
           split; [reflexivity|]. split; [exact Hc0|].
           split; [reflexivity|]. split; [lia|]. split; [lia|].
           exact Hb.
      * cells. reflexivity.
    + intros a Ha. cells. reflexivity.
    + reflexivity.
  - apply Z.ltb_ge in E. apply wpb_ret.
    split; [|split; [apply nodes_eq_refl|reflexivity]].
    apply (bt_dp_bnd _ _ _ c1); [exact Hdp|exact Hc1|lia].
Qed.

Lemma bt_update_costs_spec cur pos n : forall i w,
  bt_dp (wm_cells w) cur (cur + 1) -> 0 <= pos < cur -> cur - pos <= W_SIZE ->
  MIN_MATCH <= i -> i + Z.of_nat n - 1 <= MAX_MATCH ->
  cur + (i + Z.of_nat n - 1) <= N ->
  pre_eq inp pos cur (i + Z.of_nat n - 1) ->
  wpb (bt_words N) (bt_update_costs inp n cur pos i) w
    (fun _ w' => bt_dp (wm_cells w') cur (cur + 1) /\
                 nodes_eq (wm_cells w) (wm_cells w') /\ wm_stale w' = wm_stale w).
Proof.
  pose proof BLOCK_SIZE_val as HBS. pose proof UINT32_MAX_val as HU.
  change MIN_MATCH with 3; change MAX_MATCH with 566.
  induction n as [|n IH]; intros i w Hdp Hpos Hw Hi Hmax Hfit Heq.
  - simpl. apply wpb_ret. split; [exact Hdp|]. split; [apply nodes_eq_refl|reflexivity].
  - simpl bt_update_costs.
    destruct (bt_dp_cost _ _ _ cur Hdp ltac:(lia)) as (c & Hc & Hcr & Hcb).
    specialize (Hcb ltac:(lia)).
    destruct (bt_dp_cost _ _ _ (cur + i) Hdp ltac:(lia)) as (ci & Hci & Hcir & _).
    apply wpb_bind. eapply wpb_load; [exact Hc|].
    rewrite (le_match_cost_bits inp HN4 HNmax)
      by (change MIN_MATCH with 3; change MAX_MATCH with 566; lia).
    assert (Hok : token_ok (Match i (cur - pos)))
      by (split; [change MIN_MATCH with 3; change MAX_MATCH with 566|]; lia).
    pose proof (token_bits_match_range inp _ _ Hok) as Hr.
    apply wpb_bind. apply wpb_assert.
    { apply Z.ltb_lt. rewrite u32_small by (change (2 ^ 32) with 4294967296; lia). lia. }
    rewrite (ulong_id inp) by lia.
    apply wpb_bind. eapply wpb_load; [exact Hci|].
    apply wpb_bind.
    eapply (wpb_mono _ _ _ (fun _ w' => bt_dp (wm_cells w') cur (cur + 1) /\
                 nodes_eq (wm_cells w) (wm_cells w') /\ wm_stale w' = wm_stale w)).
    + destruct (c + token_bits (Match i (cur - pos)) <? ci) eqn:E.
      * apply Z.ltb_lt in E.
        rewrite (ulong_id inp (cur - pos)) by (change W_SIZE with 2097152 in Hw; lia).
        rewrite (ulong_id inp) by (change W_SIZE with 2097152 in Hw; lia).
        rewrite !u32_small by (change (2 ^ 32) with 4294967296;
                               change W_SIZE with 2097152 in Hw; lia).
        apply wpb_bind. store_in. apply wpb_bind. store_in. store_in.
        split; [|split].
        -- eapply (bt_dp_arrive (wm_cells w) _ cur (cur + 1) (cur + i)
                  (c + token_bits (Match i (cur - pos))) (Match i (cur - pos)));
             [exact Hdp|lia|lia|lia| | |lia| |simpl; lia].
           ++ intros a H1 H2 H3. cells. reflexivity.
           ++ cells. reflexivity.
           ++ exists c. simpl token_len. replace (cur + i - i) with cur by lia. cells.
              split; [reflexivity|]. split; [exact Hc|].
              split; [reflexivity|]. split; [lia|]. split; [lia|].
              split; [f_equal; lia|].
              split; [exact Hok|]. split; [lia|].
              intros k Hk. replace (cur - (cur - pos) + k) with (pos + k) by lia.
              apply Heq. lia.
        -- intros a Ha. cells. reflexivity.
        -- reflexivity.
      * apply wpb_ret. split; [exact Hdp|]. split; [apply nodes_eq_refl|reflexivity].
    + intros u w1 (Hdp1 & Hn1 & Hs1).
      eapply wpb_mono.
      * apply IH; try assumption; try lia.
        replace (i + 1 + Z.of_nat n - 1) with (i + Z.of_nat (S n) - 1) by lia. exact Heq.
      * intros r w2 (Hdp2 & Hn2 & Hs2). split; [exact Hdp2|].
        split; [eapply nodes_eq_trans; eassumption|congruence].
Qed.

(** ** The descent from one position *)

Section walk.
Variables cur K : Z.
Hypothesis Hcur : 0 <= cur < N.
Hypothesis HK : 0 <= K.

Lemma reach_nodes_eq m m' v x : nodes_eq m m' -> reach inp m v x -> reach inp m' v x.
Proof.
  intros He. induction 1 as [v Hv|v c x Hv Hc Hr IH|v c x Hv Hc Hr IH].
  - constructor. assumption.
  - eapply reach_lt; [assumption| |exact IH]. rewrite He by lia. exact Hc.
  - eapply reach_gt; [assumption| |exact IH]. rewrite He by lia. exact Hc.
Qed.

Definition cur_slot_ok (m : gmap Z Z) (s : Z) : Prop :=
  exists v, m !! slot cur s = Some v /\ (v = NO_MATCH_POS \/ 0 <= v < cur).

Definition side_lt (s q len : Z) : Prop :=
  if s =? 0 then byte_at inp (q + len) < byte_at inp (cur + len)
  else byte_at inp (cur + len) < byte_at inp (q + len).

(** The slot [node] that waits for the next position on the side [s]
    of [cur]: a slot of [cur] itself, or the other slot of a position
    [q] on the side [s] of [cur], with [pos] under it. *)
Definition pending (m : gmap Z Z) (s pos node len : Z) : Prop :=
  (node = slot cur s /\ len = 0) \/
  (exists q c, 0 <= q < cur /\ node = slot q (1 - s) /\ m !! node = Some c /\
     (pos = NO_MATCH_POS \/ (reach inp m c pos /\ pos < q)) /\
     pre_eq inp q cur len /\ 0 <= len < K /\ side_lt s q len /\
     cur_slot_ok m s).

Definition walk_ok (s : Z) (m : gmap Z Z) (pos a b la lb : Z) : Prop :=
  bt_trees m cur K /\
  (pos = NO_MATCH_POS \/ 0 <= pos < cur) /\
  pending m s pos a la /\ pending m (1 - s) pos b lb.

Definition walk_post (s : Z) (m : gmap Z Z) (pos a b : Z) (m' : gmap Z Z) : Prop :=
  bt_trees m' cur K /\
  (exists c, m' !! a = Some c /\ forall x, reach inp m' c x -> side_le K s x cur) /\
  (exists c, m' !! b = Some c /\ forall x, reach inp m' c x -> side_le K (1 - s) x cur) /\
  cur_slot_ok m' 0 /\ cur_slot_ok m' 1 /\
  (forall k, 0 <= k -> bt_nodes inp + k <> a -> bt_nodes inp + k <> b ->
     (pos = NO_MATCH_POS \/ 2 * pos + 2 <= k) ->
     m' !! (bt_nodes inp + k) = m !! (bt_nodes inp + k)).

Lemma walk_ok_swap s m pos a b la lb :
  (s = 0 \/ s = 1) -> walk_ok s m pos a b la lb -> walk_ok (1 - s) m pos b a lb la.
Proof.
  intros Hs (Ht & Hp & Ha & Hb). split; [exact Ht|]. split; [exact Hp|].
  split; [exact Hb|]. replace (1 - (1 - s)) with s by lia. exact Ha.
Qed.

Lemma walk_post_swap s m pos a b m' :
  (s = 0 \/ s = 1) -> walk_post (1 - s) m pos b a m' -> walk_post s m pos a b m'.
Proof.
  intros Hs (Ht & Hb & Ha & H0 & H1 & Hf).
  replace (1 - (1 - s)) with s in Ha by lia.
  split; [exact Ht|]. split; [exact Ha|]. split; [exact Hb|].
  split; [exact H0|]. split; [exact H1|].
  intros k Hk Hka Hkb Hp. apply Hf; assumption.
Qed.

Lemma pending_ext m m' s pos node len :
  (s = 0 \/ s = 1) ->
  nodes_eq m m' -> pending m s pos node len -> pending m' s pos node len.
Proof.
  intros Hs He [H|(q & c & Hq & Hn & Hc & Hr & Hrest)]; [left; exact H|right].
  exists q, c. split; [exact Hq|]. split; [exact Hn|].
  split; [rewrite He by (subst node; unfold slot; lia); exact Hc|].
  split.
  - destruct Hr as [Hr|(Hr & Hlt)]; [left; exact Hr|right].
    split; [eapply reach_nodes_eq; eassumption|exact Hlt].
  - destruct Hrest as (H1 & H2 & H3 & (v & Hv & Hvb)).
    repeat (split; [assumption|]). exists v.
    split; [rewrite He by (unfold slot; lia); exact Hv|exact Hvb].
Qed.

Lemma bt_trees_ext m m' : nodes_eq m m' -> bt_trees m cur K -> bt_trees m' cur K.
Proof.
  intros He (Ht & Hb). split.
  - intros p Hp. destruct (Ht p Hp) as (l & g & Hl & Hg & Hrest).
    exists l, g. rewrite !He by lia. auto.
  - intros p s c x Hp Hs Hc Hr. unfold slot in Hc. rewrite He in Hc by lia.
    eapply Hb; [exact Hp|exact Hs|exact Hc|].
    eapply reach_nodes_eq; [apply nodes_eq_sym, He|exact Hr].
Qed.

Lemma walk_ok_ext s m m' pos a b la lb :
  (s = 0 \/ s = 1) ->
  nodes_eq m m' -> walk_ok s m pos a b la lb -> walk_ok s m' pos a b la lb.
Proof.
  intros Hs He (Ht & Hp & Ha & Hb).
  split; [eapply bt_trees_ext; eassumption|]. split; [exact Hp|].
  split; (eapply pending_ext; [lia|eassumption|eassumption]).
Qed.

Lemma walk_post_ext s m m0 pos a b m' :
  nodes_eq m0 m -> walk_post s m pos a b m' -> walk_post s m0 pos a b m'.
Proof.
  intros He (Ht & Ha & Hb & H0 & H1 & Hf).
  repeat (split; [assumption|]).
  intros k Hk Hka Hkb Hp. rewrite Hf by assumption. apply He. lia.
Qed.

(** Every slot below [cur] of [m'] holds what it held in [m], or
    something that was under it in [m]. *)
Definition shrinks (m m' : gmap Z Z) : Prop :=
  forall p s, 0 <= p < cur -> (s = 0 \/ s = 1) ->
    exists c0 c, m !! slot p s = Some c0 /\ m' !! slot p s = Some c /\
      (c = c0 \/ c = NO_MATCH_POS \/ reach inp m c0 c).

Lemma shrinks_tree_ok m m' :
  bt_tree_ok inp m cur -> shrinks m m' -> bt_tree_ok inp m' cur.
Proof.
  intros Ht Hs p Hp.
  assert (Hside : forall s, s = 0 \/ s = 1 ->
            exists c, m' !! slot p s = Some c /\ (c = NO_MATCH_POS \/ 0 <= c < p)).
  { intros s Hs01. destruct (Hs p s Hp Hs01) as (c0 & c & Hc0 & Hc & Hrel).
    destruct (bt_tree_slot m cur p s Ht Hp Hs01) as (c1 & Hc1 & Hc1b).
    assert (c1 = c0) by congruence. subst c1.
    exists c. split; [exact Hc|].
    destruct Hrel as [->|[->|Hr]]; [exact Hc1b|left; reflexivity|right].
    destruct Hc1b as [->|Hcb]; [exfalso; eapply reach_none; eassumption|].
    pose proof (reach_below inp m cur c0 c Ht ltac:(lia) Hr). lia. }
  destruct (Hside 0 ltac:(lia)) as (l & Hl & Hlb).
  destruct (Hside 1 ltac:(lia)) as (g & Hg & Hgb).
  exists l, g. unfold slot in Hl, Hg. rewrite Z.add_0_r in Hl. auto.
Qed.

Lemma shrinks_reach m m' v x :
  bt_tree_ok inp m cur -> shrinks m m' -> v < cur ->
  reach inp m' v x -> reach inp m v x.
Proof.
  intros Ht Hs Hv Hr. pose proof (shrinks_tree_ok m m' Ht Hs) as Ht'.
  revert Hv.
  induction Hr as [v Hv|v c x Hv Hc Hr IH|v c x Hv Hc Hr IH]; intros Hlt.
  - constructor. assumption.
  - destruct (Hs v 0 ltac:(lia) ltac:(lia)) as (c0 & c1 & Hc0 & Hc1 & Hrel).
    unfold slot in Hc0, Hc1. rewrite Z.add_0_r in Hc0, Hc1.
    assert (c1 = c) by congruence. subst c1.
    destruct (Ht' v ltac:(lia)) as (l & g & Hl & Hg & Hlb & Hgb).
    assert (l = c) by congruence. subst l.
    destruct Hlb as [->|Hlb]; [exfalso; eapply reach_none; eassumption|].
    specialize (IH ltac:(lia)).
    destruct Hrel as [->|[->|Hr0]].
    + eapply reach_lt; eassumption.
    + exfalso; eapply reach_none; eassumption.
    + eapply reach_lt; [assumption|exact Hc0|]. eapply reach_trans; eassumption.
  - destruct (Hs v 1 ltac:(lia) ltac:(lia)) as (c0 & c1 & Hc0 & Hc1 & Hrel).
    unfold slot in Hc0, Hc1.
    assert (c1 = c) by congruence. subst c1.
    destruct (Ht' v ltac:(lia)) as (l & g & Hl & Hg & Hlb & Hgb).
    assert (g = c) by congruence. subst g.
    destruct Hgb as [->|Hgb]; [exfalso; eapply reach_none; eassumption|].
    specialize (IH ltac:(lia)).
    destruct Hrel as [->|[->|Hr0]].
    + eapply reach_gt; eassumption.
    + exfalso; eapply reach_none; eassumption.
    + eapply reach_gt; [assumption|exact Hc0|]. eapply reach_trans; eassumption.
Qed.

Lemma bt_trees_update m m' :
  bt_trees m cur K -> shrinks m m' -> bt_trees m' cur K.
Proof.
  intros (Ht & Hb) Hs. pose proof (shrinks_tree_ok m m' Ht Hs) as Ht'.
  split; [exact Ht'|].
  intros p s c x Hp Hs01 Hc Hr.
  destruct (Hs p s Hp Hs01) as (c0 & c1 & Hc0 & Hc1 & Hrel).
  assert (c1 = c) by congruence. subst c1.
  destruct (bt_tree_slot m' cur p s Ht' Hp Hs01) as (c2 & Hc2 & Hc2b).
  assert (c2 = c) by congruence. subst c2.
  destruct Hc2b as [->|Hcb]; [exfalso; eapply reach_none; eassumption|].
  apply (shrinks_reach m m' c x Ht Hs ltac:(lia)) in Hr.
  destruct Hrel as [->|[->|Hr0]].
  - eapply Hb; eassumption.
  - exfalso; eapply reach_none; eassumption.
  - eapply Hb; [exact Hp|exact Hs01|exact Hc0|]. eapply reach_trans; eassumption.
Qed.

Lemma pending_distinct m s pos a b la lb :
  (s = 0 \/ s = 1) -> pending m s pos a la -> pending m (1 - s) pos b lb -> a <> b.
Proof.
  intros Hs [(Ha & _)|(q & c & Hq & Ha & _)] [(Hb & _)|(q' & c' & Hq' & Hb & _)];
    subst a b; unfold slot; lia.
Qed.

(** What may be stored into a slot that waits: nothing, or a position
    under [pos]. *)
Definition under (m : gmap Z Z) (pos v : Z) : Prop :=
  v = NO_MATCH_POS \/ reach inp m pos v.

Lemma pending_shrink m s pos a la v p t :
  (s = 0 \/ s = 1) -> pending m s pos a la -> under m pos v ->
  0 <= p < cur -> (t = 0 \/ t = 1) -> a = slot p t ->
  exists c0, m !! slot p t = Some c0 /\ (v = NO_MATCH_POS \/ reach inp m c0 v).
Proof.
  intros Hs [(Ha & _)|(q & c & Hq & Ha & Hc & Hr & _)] Hv Hp Ht E.
  - exfalso. subst a. unfold slot in E. lia.
  - rewrite <- E. exists c. split; [exact Hc|].
    destruct Hv as [->|Hv]; [left; reflexivity|right].
    destruct Hr as [->|(Hr & _)]; [exfalso; eapply reach_none; eassumption|].
    eapply reach_trans; eassumption.
Qed.

Lemma shrinks_store m s pos a la v :
  (s = 0 \/ s = 1) -> bt_tree_ok inp m cur ->
  pending m s pos a la -> under m pos v -> shrinks m (<[a := v]> m).
Proof.
  intros Hs Ht Ha Hv p t Hp Ht01.
  destruct (bt_tree_slot m cur p t Ht Hp Ht01) as (c0 & Hc0 & _).
  destruct (Z.eq_dec a (slot p t)) as [E|E].
  - destruct (pending_shrink m s pos a la v p t Hs Ha Hv Hp Ht01 E) as (c1 & Hc1 & Hrel).
    exists c1, v. split; [exact Hc1|]. split; [rewrite E; apply lookup_insert_eq|].
    right. exact Hrel.
  - exists c0, c0. split; [exact Hc0|].
    split; [rewrite lookup_insert_ne by exact E; exact Hc0|left; reflexivity].
Qed.

Lemma shrinks_store2 m s pos a b la lb va vb :
  (s = 0 \/ s = 1) -> bt_tree_ok inp m cur ->
  pending m s pos a la -> pending m (1 - s) pos b lb ->
  under m pos va -> under m pos vb ->
  shrinks m (<[b := vb]> (<[a := va]> m)).
Proof.
  intros Hs Ht Ha Hb Hva Hvb p t Hp Ht01.
  pose proof (pending_distinct m s pos a b la lb Hs Ha Hb) as Hab.
  destruct (bt_tree_slot m cur p t Ht Hp Ht01) as (c0 & Hc0 & _).
  destruct (Z.eq_dec b (slot p t)) as [E|E].
  - destruct (pending_shrink m (1 - s) pos b lb vb p t ltac:(lia) Hb Hvb Hp Ht01 E)
      as (c1 & Hc1 & Hrel).
    exists c1, vb. split; [exact Hc1|]. split; [rewrite E; apply lookup_insert_eq|].
    right. exact Hrel.
  - rewrite lookup_insert_ne by exact E.
    destruct (Z.eq_dec a (slot p t)) as [E'|E'].
    + destruct (pending_shrink m s pos a la va p t Hs Ha Hva Hp Ht01 E')
        as (c1 & Hc1 & Hrel).
      exists c1, va. split; [exact Hc1|]. split; [rewrite E'; apply lookup_insert_eq|].
      right. exact Hrel.
    + exists c0, c0. split; [exact Hc0|].
      split; [rewrite lookup_insert_ne by exact E'; exact Hc0|left; reflexivity].
Qed.

Lemma cur_slot_keep m t a v :
  cur_slot_ok m t -> (v = NO_MATCH_POS \/ 0 <= v < cur) ->
  cur_slot_ok (<[a := v]> m) t.
Proof.
  intros (c & Hc & Hcb) Hv. destruct (Z.eq_dec a (slot cur t)) as [->|E].
  - exists v. split; [apply lookup_insert_eq|exact Hv].
  - exists c. split; [rewrite lookup_insert_ne by exact E; exact Hc|exact Hcb].
Qed.

Lemma pending_cur_slot m s pos a la v :
  pending m s pos a la -> (v = NO_MATCH_POS \/ 0 <= v < cur) ->
  cur_slot_ok (<[a := v]> m) s.
Proof.
  intros [(-> & _)|(q & c & _ & _ & _ & _ & _ & _ & _ & Hok)] Hv.
  - exists v. split; [apply lookup_insert_eq|exact Hv].
  - apply cur_slot_keep; assumption.
Qed.

Lemma under_bound m pos v :
  bt_tree_ok inp m cur -> (pos = NO_MATCH_POS \/ 0 <= pos < cur) ->
  under m pos v -> v = NO_MATCH_POS \/ 0 <= v < cur.
Proof.
  intros Ht Hp [->|Hr]; [left; reflexivity|right].
  destruct Hp as [->|Hp]; [exfalso; eapply reach_none; eassumption|].
  pose proof (reach_below inp m cur pos v Ht ltac:(lia) Hr). lia.
Qed.

Lemma cur_slots_both (m : gmap Z Z) s :
  (s = 0 \/ s = 1) -> cur_slot_ok m s -> cur_slot_ok m (1 - s) ->
  cur_slot_ok m 0 /\ cur_slot_ok m 1.
Proof. intros [->| ->] H1 H2; simpl in H2; auto. Qed.

(** The end of a descent: both waiting slots are filled. *)
Lemma walk_finish s m pos a b la lb va vb :
  (s = 0 \/ s = 1) -> walk_ok s m pos a b la lb ->
  under m pos va -> under m pos vb ->
  (forall x, reach inp m va x -> side_le K s x cur) ->
  (forall x, reach inp m vb x -> side_le K (1 - s) x cur) ->
  walk_post s m pos a b (<[b := vb]> (<[a := va]> m)).
Proof.
  intros Hs ((Ht & Hb) & Hp & Ha & Hpb) Hva Hvb Hqa Hqb.
  pose proof (pending_distinct m s pos a b la lb Hs Ha Hpb) as Hab.
  pose proof (shrinks_store2 m s pos a b la lb va vb Hs Ht Ha Hpb Hva Hvb) as Hsh.
  pose proof (under_bound m pos va Ht Hp Hva) as Hvab.
  pose proof (under_bound m pos vb Ht Hp Hvb) as Hvbb.
  split; [apply (bt_trees_update m); [split; assumption|exact Hsh]|].
  split.
  { exists va. split; [rewrite lookup_insert_ne by congruence; apply lookup_insert_eq|].
    intros x Hr. apply Hqa.
    destruct Hvab as [->|Hvab]; [exfalso; eapply reach_none; eassumption|].
    eapply shrinks_reach; [exact Ht|exact Hsh| |exact Hr]. lia. }
  split.
  { exists vb. split; [apply lookup_insert_eq|].
    intros x Hr. apply Hqb.
    destruct Hvbb as [->|Hvbb]; [exfalso; eapply reach_none; eassumption|].
    eapply shrinks_reach; [exact Ht|exact Hsh| |exact Hr]. lia. }
  assert (H2 : cur_slot_ok (<[b := vb]> (<[a := va]> m)) s /\
               cur_slot_ok (<[b := vb]> (<[a := va]> m)) (1 - s)).
  { split.
    - apply cur_slot_keep; [|exact Hvbb]. eapply pending_cur_slot; eassumption.
    - destruct Hpb as [(-> & _)|(q & c & _ & _ & _ & _ & _ & _ & _ & Hok)].
      + exists vb. split; [apply lookup_insert_eq|exact Hvbb].
      + apply cur_slot_keep; [|exact Hvbb]. apply cur_slot_keep; assumption. }
  destruct H2 as (H2a & H2b).
  destruct (cur_slots_both _ s Hs H2a H2b) as (H0 & H1).
  split; [exact H0|]. split; [exact H1|].
  intros k Hk Hka Hkb _. rewrite !lookup_insert_ne by congruence. reflexivity.
Qed.

Lemma walk_end s m pos a b la lb :
  (s = 0 \/ s = 1) -> walk_ok s m pos a b la lb ->
  walk_post s m pos a b (<[b := NO_MATCH_POS]> (<[a := NO_MATCH_POS]> m)).
Proof.
  intros Hs Hw. eapply walk_finish; try eassumption.
  - left; reflexivity.
  - left; reflexivity.
  - intros x Hr. exfalso; eapply reach_none; eassumption.
  - intros x Hr. exfalso; eapply reach_none; eassumption.
Qed.

Lemma slot_under m pos t c :
  bt_tree_ok inp m cur -> 0 <= pos < cur -> (t = 0 \/ t = 1) ->
  m !! slot pos t = Some c -> under m pos c.
Proof.
  intros Ht Hp Ht01 Hc.
  destruct (bt_tree_slot m cur pos t Ht Hp Ht01) as (c0 & Hc0 & Hc0b).
  assert (c0 = c) by congruence. subst c0.
  pose proof NO_MATCH_POS_val. pose proof BLOCK_SIZE_val.
  destruct Hc0b as [->|Hcb]; [left; reflexivity|right].
  unfold slot in Hc. destruct Ht01 as [->| ->].
  - rewrite Z.add_0_r in Hc. eapply reach_lt; [lia|exact Hc|]. constructor. lia.
  - eapply reach_gt; [lia|exact Hc|]. constructor. lia.
Qed.

(** The descent meets a position whose string agrees with the one at
    [cur] as far as the order looks: its two subtrees are taken over. *)
Lemma walk_graft m pos lt gt la lb l g :
  walk_ok 0 m pos lt gt la lb -> 0 <= pos < cur -> pre_eq inp pos cur K ->
  m !! slot pos 0 = Some l -> m !! slot pos 1 = Some g ->
  walk_post 0 m pos lt gt (<[gt := g]> (<[lt := l]> m)).
Proof.
  intros Hw Hp He Hl Hg. pose proof Hw as ((Ht & Hb) & _).
  eapply walk_finish; try eassumption.
  - left; reflexivity.
  - eapply slot_under; [exact Ht|exact Hp| |exact Hl]. lia.
  - eapply slot_under; [exact Ht|exact Hp| |exact Hg]. lia.
  - intros x Hr. eapply side_le_trans; [lia| |apply side_le_eq, He].
    eapply Hb; [exact Hp| |exact Hl|exact Hr]. lia.
  - intros x Hr. simpl. eapply (side_le_trans K 1); [lia| |apply side_le_eq, He].
    eapply Hb; [exact Hp| |exact Hg|exact Hr]. lia.
Qed.

Lemma side_lt_le s q len :
  (s = 0 \/ s = 1) -> pre_eq inp q cur len -> 0 <= len < K -> side_lt s q len ->
  side_le K s q cur.
Proof.
  unfold side_lt, side_le. intros [->| ->] He Hl Hlt; simpl in *; right; exists len.
  - auto.
  - split; [exact Hl|]. split; [apply pre_eq_sym, He|exact Hlt].
Qed.

(** One step down: [pos] goes into the waiting slot of its side, and
    its other slot waits next. *)
Lemma walk_step s m pos a b la lb len :
  (s = 0 \/ s = 1) -> walk_ok s m pos a b la lb -> 0 <= pos < cur ->
  pre_eq inp pos cur len -> 0 <= len < K -> side_lt s pos len ->
  exists p, <[a := pos]> m !! slot pos (1 - s) = Some p /\
    (p = NO_MATCH_POS \/ 0 <= p < pos) /\
    walk_ok s (<[a := pos]> m) p (slot pos (1 - s)) b len lb /\
    forall m', walk_post s (<[a := pos]> m) p (slot pos (1 - s)) b m' ->
      walk_post s m pos a b m'.
Proof.
  intros Hs ((Ht & Hb) & Hp & Ha & Hpb) Hpos He Hlen Hlt.
  pose proof NO_MATCH_POS_val as HNO. pose proof BLOCK_SIZE_val as HBS.
  pose proof (pending_distinct m s pos a b la lb Hs Ha Hpb) as Hab.
  destruct (bt_tree_slot m cur pos (1 - s) Ht Hpos ltac:(lia)) as (p & Hpv & Hpb').
  assert (Hself : under m pos pos) by (right; constructor; lia).
  pose proof (shrinks_store m s pos a la pos Hs Ht Ha Hself) as Hsh.
  assert (Ha' : a <> slot pos (1 - s)).
  { destruct Ha as [(-> & _)|(q & c & Hq & -> & _ & [Hr|(_ & Hr)] & _)];
      unfold slot; lia. }
  assert (Hpv1 : <[a := pos]> m !! slot pos (1 - s) = Some p).
  { rewrite lookup_insert_ne by exact Ha'. exact Hpv. }
  assert (Hb' : b <> slot pos (1 - s)).
  { destruct Hpb as [(-> & _)|(q & c & Hq & -> & _ & [Hr|(_ & Hr)] & _)];
      unfold slot; lia. }
  assert (Hka : exists ka, a = bt_nodes inp + ka /\ 2 * pos + 2 <= ka).
  { destruct Ha as [(-> & _)|(q & c & Hq & -> & _ & [Hr|(_ & Hr)] & _)];
      unfold slot; eexists; (split; [reflexivity|lia]). }
  exists p. split; [exact Hpv1|]. split; [exact Hpb'|]. split.
  { split; [apply (bt_trees_update m); [split; assumption|exact Hsh]|].
    split; [destruct Hpb' as [->|Hpb']; [left; reflexivity|right; lia]|].
    split.
    - right. exists pos, p. split; [exact Hpos|]. split; [reflexivity|].
      split; [exact Hpv1|]. split.
      + destruct Hpb' as [->|Hpb']; [left; reflexivity|right].
        split; [constructor; lia|lia].
      + split; [exact He|]. split; [exact Hlen|]. split; [exact Hlt|].
        eapply pending_cur_slot; [exact Ha|right; exact Hpos].
    - destruct Hpb as [Hpb|(q & c & Hq & Hbq & Hc & Hr & Hrest)]; [left; exact Hpb|].
      right. exists q, c. split; [exact Hq|]. split; [exact Hbq|].
      split; [rewrite lookup_insert_ne by exact Hab; exact Hc|].
      split.
      + destruct Hpb' as [->|Hpb']; [left; reflexivity|right].
        destruct Hr as [Hr|(Hr & Hpq)]; [lia|].
        split; [|lia].
        eapply reach_trans; [apply reach_keep, Hr|].
        unfold slot in Hpv1. destruct Hs as [->| ->]; simpl in Hpv1.
        * eapply reach_gt; [lia|exact Hpv1|constructor; lia].
        * rewrite Z.add_0_r in Hpv1. eapply reach_lt; [lia|exact Hpv1|constructor; lia].
      + destruct Hrest as (H1 & H2 & H3 & Hok).
        repeat (split; [assumption|]).
        apply cur_slot_keep; [exact Hok|right; exact Hpos]. }
  intros m' (Ht' & Hqa & Hqb & H0 & H1 & Hf).
  destruct Hka as (ka & Hka & Hkab).
  assert (Hma : m' !! a = Some pos).
  { rewrite Hka. rewrite Hf.
    - rewrite <- Hka. apply lookup_insert_eq.
    - lia.
    - rewrite <- Hka. exact Ha'.
    - rewrite <- Hka. exact Hab.
    - destruct Hpb' as [->|Hpb']; [left; reflexivity|right; lia]. }
  split; [exact Ht'|]. split.
  { exists pos. split; [exact Hma|].
    pose proof (side_lt_le s pos len Hs He Hlen Hlt) as Hside.
    destruct Hqa as (c' & Hc' & Hqa). destruct Ht' as (Ht' & Hb2).
    intros x Hr. inversion Hr as [v Hv|v c x0 Hv Hc Hr0|v c x0 Hv Hc Hr0]; subst.
    - exact Hside.
    - destruct Hs as [->| ->].
      + eapply side_le_trans; [lia| |exact Hside].
        eapply (Hb2 pos 0); [exact Hpos|lia| |exact Hr0].
        unfold slot. rewrite Z.add_0_r. exact Hc.
      + apply Hqa. change (1 - 1) with 0 in Hc'. unfold slot in Hc'.
        rewrite Z.add_0_r in Hc'.
        assert (c' = c) by congruence. subst c'. exact Hr0.
    - destruct Hs as [->| ->].
      + apply Hqa. change (1 - 0) with 1 in Hc'. unfold slot in Hc'.
        assert (c' = c) by congruence. subst c'. exact Hr0.
      + eapply side_le_trans; [lia| |exact Hside].
        eapply (Hb2 pos 1); [exact Hpos|lia| |exact Hr0].
        unfold slot. exact Hc. }
  split; [exact Hqb|]. split; [exact H0|]. split; [exact H1|].
  intros k Hk Hk1 Hk2 Hk3. destruct Hk3 as [Hk3|Hk3]; [lia|].
  rewrite Hf.
  - apply lookup_insert_ne. congruence.
  - exact Hk.
  - unfold slot. lia.
  - exact Hk2.
  - destruct Hpb' as [->|Hpb']; [left; reflexivity|right; lia].
Qed.

(** The strings at [pos] and [cur] agree on the shorter of the two
    prefixes known at the waiting slots. *)
Lemma walk_prefix s m pos a b la lb :
  (s = 0 \/ s = 1) -> walk_ok s m pos a b la lb -> 0 <= pos < cur ->
  pre_eq inp pos cur (Z.min la lb) /\ 0 <= la /\ 0 <= lb /\
  (la = 0 \/ la < K) /\ (lb = 0 \/ lb < K).
Proof.
  intros Hs ((Ht & Hb) & Hp & Ha & Hpb) Hpos.
  pose proof NO_MATCH_POS_val as HNO. pose proof BLOCK_SIZE_val as HBS.
  destruct Ha as [(_ & ->)|(q & c & Hq & -> & Hc & Hr & Hea & Hla & Hlta & _)].
  { split; [intros i Hi; lia|].
    destruct Hpb as [(_ & ->)|(q' & c' & _ & _ & _ & _ & _ & Hlb & _)]; lia. }
  destruct Hpb as [(_ & ->)|(q' & c' & Hq' & -> & Hc' & Hr' & Heb & Hlb & Hltb & _)].
  { split; [intros i Hi; lia|lia]. }
  split; [|lia].
  destruct Hr as [Hr|(Hr & _)]; [lia|]. destruct Hr' as [Hr'|(Hr' & _)]; [lia|].
  pose proof (Hb q (1 - s) c pos Hq ltac:(lia) Hc Hr) as H1.
  replace (1 - (1 - s)) with s in Hc' by lia.
  pose proof (Hb q' s c' pos Hq' Hs Hc' Hr') as H2.
  unfold side_le in H1, H2. destruct Hs as [->| ->]; simpl in H1, H2.
  - eapply (le_upto_between inp K q pos q'); [exact H1|exact H2|lia| |].
    + eapply pre_eq_le; [|exact Hea]. lia.
    + eapply pre_eq_le; [|exact Heb]. lia.
  - eapply (le_upto_between inp K q' pos q); [exact H2|exact H1|lia| |].
    + eapply pre_eq_le; [|exact Heb]. lia.
    + eapply pre_eq_le; [|exact Hea]. lia.
Qed.

Lemma pending_addr m s pos a la :
  (s = 0 \/ s = 1) -> pending m s pos a la -> bt_nodes inp <= a.
Proof.
  intros Hs [(-> & _)|(q & c & Hq & -> & _)]; unfold slot; lia.
Qed.

Lemma pending_addr_hi m s pos a la :
  (s = 0 \/ s = 1) -> pending m s pos a la -> a < bt_nodes inp + 2 * N.
Proof.
  intros Hs [(-> & _)|(q & c & Hq & -> & _)]; unfold slot; lia.
Qed.

Variable len_limit : Z.
Hypothesis HKdef : K = Z.min accept_len len_limit.
Hypothesis Hlimit : 0 <= len_limit <= MAX_MATCH /\ len_limit <= N - cur.

Definition walk_Q (w : workmem) (pos lt gt : Z) (r : Z) (w' : workmem) : Prop :=
  bt_dp (wm_cells w') cur (cur + 1) /\
  walk_post 0 (wm_cells w) pos lt gt (wm_cells w') /\
  wm_stale w' = wm_stale w.

Lemma bt_walk_spec fuel : forall num_chain pos lt gt lt_len gt_len max_len nmc w,
  bt_dp (wm_cells w) cur (cur + 1) ->
  walk_ok 0 (wm_cells w) pos lt gt lt_len gt_len ->
  (pos = NO_MATCH_POS \/ pos + 2 <= Z.of_nat fuel) -> (1 <= fuel)%nat ->
  MIN_MATCH - 1 <= max_len ->
  wpb (bt_words N) (bt_walk inp accept_len fuel num_chain cur pos lt gt lt_len gt_len
        max_len nmc len_limit) w (walk_Q w pos lt gt).
Proof.
  pose proof BLOCK_SIZE_val as HBS. pose proof NO_MATCH_POS_val as HNO.
  induction fuel as [|fuel IH];
    intros num_chain pos lt gt lt_len gt_len max_len nmc w Hdp Hw Hfuel Hf1 Hml;
    [lia|].
  pose proof Hw as (Htr & Hp & Hpa & Hpb).
  pose proof (pending_addr _ 0 _ _ _ ltac:(lia) Hpa) as Hlt.
  pose proof (pending_addr _ (1 - 0) _ _ _ ltac:(lia) Hpb) as Hgt.
  pose proof (pending_addr_hi _ 0 _ _ _ ltac:(lia) Hpa) as Hlth.
  pose proof (pending_addr_hi _ (1 - 0) _ _ _ ltac:(lia) Hpb) as Hgth.
  simpl bt_walk.
  destruct ((pos =? NO_MATCH_POS) || (W_SIZE <? ulong (cur - pos)) || (num_chain =? 0))
    eqn:Etest.
  { apply wpb_bind. store_in. apply wpb_bind. store_in. apply wpb_ret.
    split; [|split; [|reflexivity]].
    - cell_simpl. apply bt_dp_store_outside; [|lia|exact Hgt].
      apply bt_dp_store_outside; [exact Hdp|lia|exact Hlt].
    - cell_simpl. eapply walk_end; [lia|exact Hw]. }
  apply orb_false_iff in Etest. destruct Etest as (Etest & _).
  apply orb_false_iff in Etest. destruct Etest as (Epos & Ewin).
  apply Z.eqb_neq in Epos. destruct Hp as [Hp|Hp]; [contradiction|].
  rewrite (ulong_id inp) in Ewin by lia. apply Z.ltb_ge in Ewin.
  destruct (walk_prefix 0 _ _ _ _ _ _ ltac:(lia) Hw Hp)
    as (Hpre & Hla & Hlb & Hlak & Hlbk).
  replace (if lt_len <? gt_len then lt_len else gt_len) with (Z.min lt_len gt_len)
    by (destruct (Z.ltb_spec lt_len gt_len); lia).
  destruct (find_match_len_spec inp pos cur (Z.min lt_len gt_len) len_limit
              ltac:(lia)) as (Hlen & Hsame & Hdiff).
  set (len := find_match_len inp pos cur (Z.min lt_len gt_len) len_limit) in *.
  assert (Hpl : pre_eq inp pos cur len).
  { intros k Hk. destruct (Z.lt_ge_cases k (Z.min lt_len gt_len)).
    - apply Hpre. lia.
    - apply Hsame. lia. }
  apply wpb_bind.
  eapply (wpb_mono _ _ _ (fun r w1 =>
            bt_dp (wm_cells w1) cur (cur + 1) /\
            nodes_eq (wm_cells w) (wm_cells w1) /\ wm_stale w1 = wm_stale w /\
            MIN_MATCH - 1 <= fst r)).
  { destruct ((cur =? nmc) && (max_len <? len)) eqn:Eup.
    - apply andb_true_iff in Eup. destruct Eup as (_ & Eup). apply Z.ltb_lt in Eup.
      apply wpb_bind. eapply wpb_mono.
      + apply bt_update_costs_spec; try assumption; try lia.
        rewrite Z2Nat.id by lia.
        replace (max_len + 1 + (len - max_len) - 1) with len by lia. exact Hpl.
      + intros u w1 (H1 & H2 & H3). apply wpb_ret. simpl.
        split; [exact H1|]. split; [exact H2|]. split; [exact H3|lia].
    - apply wpb_ret. simpl. split; [exact Hdp|]. split; [apply nodes_eq_refl|].
      split; [reflexivity|exact Hml]. }
  intros [ml nm] w1 (Hdp1 & Hn1 & Hs1 & Hml1). simpl in Hml1.
  pose proof (walk_ok_ext 0 _ _ _ _ _ _ _ ltac:(lia) Hn1 Hw) as Hw1.
  pose proof Hw1 as ((Ht1 & Hb1) & _).
  assert (Hpost : forall r w', walk_Q w1 pos lt gt r w' -> walk_Q w pos lt gt r w').
  { intros r w' (H1 & H2 & H3). split; [exact H1|].
    split; [eapply walk_post_ext; eassumption|congruence]. }
  destruct ((accept_len <=? len) || (len =? len_limit)) eqn:Efull.
  { assert (HKl : K <= len).
    { apply orb_true_iff in Efull. destruct Efull as [E|E].
      - apply Z.leb_le in E. lia.
      - apply Z.eqb_eq in E. lia. }
    destruct (bt_tree_slot _ _ pos 0 Ht1 Hp ltac:(lia)) as (l & Hl & _).
    destruct (bt_tree_slot _ _ pos 1 Ht1 Hp ltac:(lia)) as (g & Hg & _).
    assert (Hlt' : lt <> slot pos 1).
    { destruct Hpa as [(-> & _)|(q & c & Hq & -> & _ & [Hr|(_ & Hr)] & _)];
        unfold slot; lia. }
    apply wpb_bind. eapply wpb_load;
      [unfold slot in Hl; rewrite Z.add_0_r in Hl; exact Hl|].
    apply wpb_bind. store_in.
    apply wpb_bind. eapply wpb_load;
      [cell_simpl; rewrite lookup_insert_ne by exact Hlt'; exact Hg|].
    apply wpb_bind. store_in. apply wpb_ret.
    apply Hpost. split; [|split; [|reflexivity]].
    - cell_simpl. apply bt_dp_store_outside; [|lia|exact Hgt].
      apply bt_dp_store_outside; [exact Hdp1|lia|exact Hlt].
    - cell_simpl. eapply walk_graft; try eassumption.
      eapply pre_eq_le; [exact HKl|exact Hpl]. }
  apply orb_false_iff in Efull. destruct Efull as (Eacc & Elim).
  apply Z.leb_gt in Eacc. apply Z.eqb_neq in Elim.
  assert (HlenK : 0 <= len < K) by lia.
  specialize (Hdiff ltac:(lia)).
  destruct (byte_at inp (pos + len) <? byte_at inp (cur + len)) eqn:Ecmp.
  - apply Z.ltb_lt in Ecmp.
    destruct (walk_step 0 _ pos lt gt lt_len gt_len len ltac:(lia) Hw1 Hp Hpl HlenK Ecmp)
      as (p & Hpv & Hpb' & Hw2 & Hback).
    apply wpb_bind. store_in.
    apply wpb_bind. eapply wpb_load; [cell_simpl; exact Hpv|].
    apply wpb_bind. apply wpb_assert.
    { bool_true. destruct Hpb' as [->|Hpb']; [left; reflexivity|right; lia]. }
    eapply wpb_mono.
    + apply (IH (ulong (num_chain - 1)) p (slot pos (1 - 0)) gt len gt_len ml nm).
      * cell_simpl. apply bt_dp_store_outside; [exact Hdp1|lia|exact Hlt].
      * cell_simpl. exact Hw2.
      * destruct Hpb' as [->|Hpb']; [left; reflexivity|right; lia].
      * lia.
      * exact Hml1.
    + intros r w' (H1 & H2 & H3). apply Hpost. split; [exact H1|].
      split; [|rewrite H3; reflexivity].
      apply Hback. cell_simpl_in H2. exact H2.
  - apply Z.ltb_ge in Ecmp.
    assert (Hcmp : side_lt 1 pos len) by (unfold side_lt; simpl; lia).
    pose proof (walk_ok_swap 0 _ _ _ _ _ _ ltac:(lia) Hw1) as Hw1s.
    destruct (walk_step (1 - 0) _ pos gt lt gt_len lt_len len ltac:(lia) Hw1s Hp Hpl
                HlenK Hcmp) as (p & Hpv & Hpb' & Hw2 & Hback).
    replace (bt_nodes inp + 2 * pos) with (slot pos (1 - (1 - 0)))
      by (unfold slot; lia).
    apply wpb_bind. store_in.
    apply wpb_bind. eapply wpb_load; [cell_simpl; exact Hpv|].
    apply wpb_bind. apply wpb_assert.
    { bool_true. destruct Hpb' as [->|Hpb']; [left; reflexivity|right; lia]. }
    eapply wpb_mono.
    + apply (IH (ulong (num_chain - 1)) p lt (slot pos (1 - (1 - 0))) lt_len len ml nm).
      * cell_simpl. apply bt_dp_store_outside; [exact Hdp1|lia|exact Hgt].
      * cell_simpl. apply (walk_ok_swap (1 - 0)); [lia|exact Hw2].
      * destruct Hpb' as [->|Hpb']; [left; reflexivity|right; lia].
      * lia.
      * exact Hml1.
    + intros r w' (H1 & H2 & H3). apply Hpost. split; [exact H1|].
      split; [|rewrite H3; reflexivity].
      apply (walk_post_swap 0); [lia|]. apply Hback.
      apply (walk_post_swap (1 - 0)); [lia|]. cell_simpl_in H2. exact H2.
Qed.
End walk.

(** ** One position, and the loop over the positions *)

Lemma bt_trees_mono m cur K K' : K' <= K -> bt_trees m cur K -> bt_trees m cur K'.
Proof.
  intros HK (Ht & Hb). split; [exact Ht|]. eapply bt_bst_mono; eassumption.
Qed.

(** After the descent, [cur] is in the trees as well. *)
Lemma walk_post_trees cur K m pos m' :
  0 <= cur ->
  walk_post cur K 0 m pos (slot cur 0) (slot cur (1 - 0)) m' ->
  bt_trees m' (cur + 1) K.
Proof.
  intros Hcur ((Ht & Hb) & (c0 & Hc0 & Hq0) & (c1 & Hc1 & Hq1) & (v0 & Hv0 & Hv0b) &
               (v1 & Hv1 & Hv1b) & _).
  change (1 - 0) with 1 in *.
  assert (v0 = c0) by congruence. assert (v1 = c1) by congruence. subst v0 v1.
  split.
  - intros p Hp. destruct (Z.eq_dec p cur) as [->|Hne].
    + exists c0, c1. unfold slot in Hc0, Hc1. rewrite Z.add_0_r in Hc0. auto.
    + apply Ht. lia.
  - intros p s c x Hp Hs Hc Hr. destruct (Z.eq_dec p cur) as [->|Hne].
    + destruct Hs as [->| ->].
      * apply Hq0. assert (c = c0) by congruence. subst c. exact Hr.
      * apply Hq1. assert (c = c1) by congruence. subst c. exact Hr.
    + eapply Hb; [|exact Hs|exact Hc|exact Hr]. lia.
Qed.

(** How far the order of the trees looks, at [cur]. *)
Definition Kof (cur : Z) : Z := Z.min accept_len (Z.min MAX_MATCH (N - cur)).

Definition pos_inv (m : gmap Z Z) (cur : Z) : Prop :=
  bt_dp m cur cur /\ bt_trees m cur (Kof cur) /\ bt_lookup_ok m cur.

Lemma bt_position_spec cur nmc w :
  0 <= cur <= N - 3 -> pos_inv (wm_cells w) cur ->
  wpb (bt_words N) (bt_position inp max_depth accept_len cur nmc) w
    (fun _ w' => pos_inv (wm_cells w') (cur + 1) /\ wm_stale w' = wm_stale w).
Proof.
  intros Hcur (Hdp & Htr & Hlk).
  pose proof BLOCK_SIZE_val as HBS. pose proof NO_MATCH_POS_val as HNO.
  unfold bt_position.
  apply wpb_bind. eapply wpb_mono; [apply bt_literal_spec; [lia|exact Hdp]|].
  intros u w1 (Hdp1 & Hn1 & Hs1). cbv zeta.
  pose proof (crush_hash3_bits_range inp cur CRUSH_HASH_BITS
                ltac:(change CRUSH_HASH_BITS with 17; lia)) as Hh.
  set (hash := crush_hash3_bits inp cur CRUSH_HASH_BITS) in *.
  destruct (Hlk hash Hh) as (v & Hv & Hvb).
  assert (Hv1 : wm_cells w1 !! (bt_lookup inp + hash) = Some v).
  { rewrite Hn1 by (addr; lia). exact Hv. }
  apply wpb_bind. eapply wpb_load; [exact Hv1|].
  apply wpb_bind. store_in.
  apply wpb_bind. apply wpb_assert.
  { bool_true. destruct Hvb as [->|Hvb]; [left; reflexivity|right; lia]. }
  rewrite u32_small by (change (2 ^ 32) with 4294967296; lia).
  set (len_left := if MAX_MATCH <? N - cur then MAX_MATCH else N - cur).
  set (len_limit := if cur =? (if nmc <? cur then cur else nmc) then len_left
                    else if accept_len <? len_left then accept_len else len_left).
  assert (Hll : len_left = Z.min MAX_MATCH (N - cur)).
  { unfold len_left. destruct (Z.ltb_spec MAX_MATCH (N - cur)); lia. }
  assert (HKdef : Kof cur = Z.min accept_len len_limit).
  { unfold Kof, len_limit. rewrite <- Hll.
    destruct (cur =? _); [reflexivity|].
    destruct (Z.ltb_spec accept_len len_left); lia. }
  assert (Hlim : 0 <= len_limit <= MAX_MATCH /\ len_limit <= N - cur).
  { unfold len_limit. change MAX_MATCH with 566 in *.
    destruct (cur =? _); [lia|].
    destruct (Z.ltb_spec accept_len len_left); lia. }
  replace (bt_nodes inp + 2 * cur) with (slot cur 0) by (unfold slot; lia).
  change (bt_nodes inp + (2 * cur + 1)) with (slot cur (1 - 0)).
  match goal with |- wpb _ _ ?wx _ => set (w2 := wx) end.
  assert (Htr2 : bt_trees (wm_cells w2) cur (Kof cur)).
  { unfold w2. cell_simpl. apply bt_trees_store_outside; [|addr; lia].
    eapply bt_trees_ext; eassumption. }
  eapply wpb_mono.
  - apply (bt_walk_spec cur (Kof cur) ltac:(lia) ltac:(unfold Kof; change MAX_MATCH with 566; lia)
             len_limit HKdef Hlim).
    + unfold w2. cell_simpl. apply bt_dp_store_outside; [exact Hdp1|lia|addr; lia].
    + split; [exact Htr2|]. split; [exact Hvb|].
      split; left; split; reflexivity.
    + destruct Hvb as [->|Hvb]; [left; reflexivity|right; lia].
    + lia.
    + lia.
  - intros r w' (Hdp' & Hpost & Hs'). split.
    + split; [eapply bt_dp_pred; [|exact Hdp']; lia|]. split.
      * eapply bt_trees_mono; [|eapply walk_post_trees; [|exact Hpost]; lia].
        unfold Kof. lia.
      * destruct Hpost as (_ & _ & _ & _ & _ & Hf).
        intros h Hhr. unfold bt_lookup.
        replace (bt_nodes inp + 2 * N + h) with (bt_nodes inp + (2 * N + h)) by lia.
        rewrite Hf; [|lia|unfold slot; lia|unfold slot; lia|
                     destruct Hvb as [->|Hvb]; [left; reflexivity|right; lia]].
        unfold w2. cell_simpl.
        destruct (Z.eq_dec h hash) as [->|Hne].
        -- exists cur. split; [|right; lia].
           replace (bt_nodes inp + (2 * N + hash)) with (bt_lookup inp + hash)
             by (addr; lia).
           apply lookup_insert_eq.
        -- rewrite lookup_insert_ne by (addr; lia).
           destruct (Hlk h Hhr) as (v' & Hv' & Hv'b). exists v'.
           split; [rewrite Hn1 by (addr; lia); rewrite <- Hv'; f_equal; addr; lia|].
           destruct Hv'b as [->|Hv'b]; [left; reflexivity|right; lia].
    + unfold w2 in Hs'. cell_simpl_in Hs'. congruence.
Qed.

Lemma bt_parse_spec n : forall cur nmc w,
  0 <= cur -> cur + Z.of_nat n <= N - 2 -> pos_inv (wm_cells w) cur ->
  wpb (bt_words N) (bt_parse inp max_depth accept_len n cur nmc) w
    (fun _ w' => pos_inv (wm_cells w') (cur + Z.of_nat n) /\ wm_stale w' = wm_stale w).
Proof.
  induction n as [|n IH]; intros cur nmc w Hcur Hn Hinv.
  - simpl. apply wpb_ret. replace (cur + Z.of_nat 0) with cur by lia. auto.
  - simpl bt_parse. apply wpb_bind.
    eapply wpb_mono; [apply bt_position_spec; [lia|exact Hinv]|].
    intros nmc' w1 (Hinv1 & Hs1).
    eapply wpb_mono; [apply (IH (cur + 1) nmc' w1); [lia|lia|exact Hinv1]|].
    intros u w2 (Hinv2 & Hs2).
    replace (cur + Z.of_nat (S n)) with (cur + 1 + Z.of_nat n) by lia.
    split; [exact Hinv2|congruence].
Qed.

(** ** Phase 1 as a whole *)

Lemma bt_init_lookup_spec w :
  wpb (bt_words N) (bt_init_lookup inp) w
    (fun _ w' =>
       (forall h, 0 <= h < LOOKUP_SIZE ->
          wm_cells w' !! (bt_lookup inp + h) = Some NO_MATCH_POS) /\
       wm_stale w' = wm_stale w).
Proof.
  unfold bt_init_lookup. eapply wpb_mono.
  - apply (for_loop_wpb (bt_words N) (fun i w' =>
      (forall h, 0 <= h < i -> wm_cells w' !! (bt_lookup inp + h) = Some NO_MATCH_POS) /\
      wm_stale w' = wm_stale w)).
    + split; [intros h Hh; lia|reflexivity].
    + intros j w' Hj (Hc & Hs). store_in. split; [|exact Hs].
      intros h Hh. cell_simpl. destruct (Z.eq_dec h j) as [->|Hne].
      * apply lookup_insert_eq.
      * rewrite lookup_insert_ne by lia. apply Hc. lia.
  - intros u w' (Hc & Hs). split; [|exact Hs].
    intros h Hh. apply Hc. rewrite Z2Nat.id by (unfold LOOKUP_SIZE; cbv; discriminate).
    lia.
Qed.

Lemma bt_init_cost_spec w :
  (forall h, 0 <= h < LOOKUP_SIZE ->
     wm_cells w !! (bt_lookup inp + h) = Some NO_MATCH_POS) ->
  wpb (bt_words N) (bt_init_cost inp) w
    (fun _ w' =>
       (forall j, 0 <= j <= N ->
          wm_cells w' !! (bt_cost + j) = Some UINT32_MAX /\
          wm_cells w' !! (bt_mlen inp + j) = Some 1) /\
       (forall h, 0 <= h < LOOKUP_SIZE ->
          wm_cells w' !! (bt_lookup inp + h) = Some NO_MATCH_POS) /\
       wm_stale w' = wm_stale w).
Proof.
  intros Hl. unfold bt_init_cost. eapply wpb_mono.
  - apply (for_loop_wpb (bt_words N) (fun i w' =>
      (forall j, 0 <= j < i ->
          wm_cells w' !! (bt_cost + j) = Some UINT32_MAX /\
          wm_cells w' !! (bt_mlen inp + j) = Some 1) /\
      (forall h, 0 <= h < LOOKUP_SIZE ->
          wm_cells w' !! (bt_lookup inp + h) = Some NO_MATCH_POS) /\
      wm_stale w' = wm_stale w)).
    + split; [intros j Hj; lia|]. split; [exact Hl|reflexivity].
    + intros j w' Hj (Hc & Hl' & Hs). rewrite Z2Nat.id in Hj by lia.
      apply wpb_bind. store_in. store_in.
      split; [|split; [|cell_simpl; exact Hs]].
      * intros k Hk. cells. destruct (Z.eq_dec k j) as [->|Hne].
        -- cells. split; reflexivity.
        -- cells. apply Hc. lia.
      * intros h Hh. cells. apply Hl', Hh.
  - intros u w' (Hc & Hl' & Hs). rewrite Z2Nat.id in Hc by lia.
    split; [|split; assumption]. intros j Hj. apply Hc. lia.
Qed.

Lemma bt_phase1_spec w :
  wpb (bt_words N) (bt_phase1 inp max_depth accept_len) w
    (fun _ w' => bt_dp (wm_cells w') N N /\ wm_stale w' = wm_stale w).
Proof.
  pose proof BLOCK_SIZE_val as HBS. pose proof UINT32_MAX_val as HU.
  unfold bt_phase1.
  apply wpb_bind. eapply wpb_mono; [apply bt_init_lookup_spec|].
  intros u0 w0 (Hl0 & Hs0).
  apply wpb_bind. eapply wpb_mono; [apply bt_init_cost_spec; exact Hl0|].
  intros u1 w1 (Hc1 & Hl1 & Hs1).
  apply wpb_bind. store_in.
  match goal with |- wpb _ _ ?wx _ => set (w2 := wx) end.
  assert (Hinv2 : pos_inv (wm_cells w2) 0).
  { unfold w2. split; [|split].
    - split.
      + intros j Hj. destruct (Z.eq_dec j 0) as [->|Hne].
        * exists 0. cells. split; [reflexivity|]. split; [lia|]. intros _. left. auto.
        * exists UINT32_MAX. cells. split; [apply Hc1; lia|]. split; [lia|]. lia.
      + intros j Hj. assert (j = 0) by lia. subst j. exists 0. cells. split; [reflexivity|lia].
    - split.
      + intros p Hp. lia.
      + intros p s c x Hp. lia.
    - intros h Hh. exists NO_MATCH_POS. cells. split; [apply Hl1, Hh|left; reflexivity]. }
  assert (Hs2 : wm_stale w2 = wm_stale w) by (unfold w2; cell_simpl; congruence).
  unfold bt_last_match_pos.
  replace (3 <? N) with true by (symmetry; apply Z.ltb_lt; lia).
  apply wpb_bind.
  eapply wpb_mono; [apply bt_parse_spec; [lia| |exact Hinv2]; lia|].
  intros u3 w3 ((Hdp3 & _) & Hs3).
  rewrite Z2Nat.id in Hdp3 by lia.
  unfold bt_tail_literals, bt_last_match_pos.
  replace (3 <? N) with true by (symmetry; apply Z.ltb_lt; lia).
  eapply wpb_mono.
  - apply (for_loop_wpb (bt_words N) (fun i w' =>
             bt_dp (wm_cells w') i i /\ wm_stale w' = wm_stale w)).
    + split; [exact Hdp3|congruence].
    + intros j w' Hj (Hdp & Hs). eapply wpb_mono; [apply bt_literal_spec; [lia|exact Hdp]|].
      intros u w'' (Hdp' & _ & Hs'). split; [|congruence].
      eapply bt_dp_pred; [|exact Hdp']. lia.
  - intros u w' (Hdp & Hs). split; [|exact Hs].
    replace (N - 3 + 1 + Z.of_nat (Z.to_nat (N - (N - 3 + 1)))) with N in Hdp by lia.
    exact Hdp.
Qed.
End btparse_proof.

(** ** Phases 2 and 3 of crush_btparse.h: the tokens are gathered and written *)

(** A load of a word that may never have been stored. *)
Lemma wpb_load_any B a w (Q : Z -> workmem -> Prop) :
  0 <= a < B ->
  (forall v w', wm_cells w' = wm_cells w ->
     (forall v0, wm_cells w !! a = Some v0 -> v = v0) -> Q v w') ->
  wpb B (load a) w Q.
Proof.
  intros Ha H. unfold wpb, wp, load. destruct (wm_cells w !! a) as [v|] eqn:E.
  - exists v, w. split; [reflexivity|]. split; [|exact (fun H => H)].
    apply H; [reflexivity|]. intros v0 Hv0. congruence.
  - eexists _, _. split; [reflexivity|]. split.
    + apply H; [reflexivity|]. intros v0 Hv0. discriminate.
    + intros [Hc Hs]. split; [exact Hc|]. simpl. intros a' [<-|Hin]; [exact Ha|auto].
Qed.

Section btparse_tokens.
Variable inp : list byte.

Local Abbreviation N := (Z.of_nat (length inp)).

Hypothesis HN4 : 4 <= N.
Hypothesis HNmax : N <= BLOCK_SIZE.

Ltac addr := unfold bt_lookup, bt_nodes, bt_mlen, bt_mpos, bt_cost in *.
Ltac bnd :=
  addr; unfold bt_words; change LOOKUP_SIZE with 131072 in *; lia.
Ltac store_in := apply wpb_store; [bnd|].

Ltac cells :=
  cell_simpl; rewrite ?lookup_insert_ne by (addr; lia); rewrite ?lookup_insert_eq.

(** The token that the cells of [m] give for the arrival at [j]. *)
Definition bt_token_at (m : gmap Z Z) (j : Z) : token :=
  let ml := default 0 (m !! (bt_mlen inp + j)) in
  if ml =? 1 then Literal (nth (Z.to_nat (j - 1)) inp x00)
  else Match ml (default 0 (m !! (bt_mpos inp + j)) + 1).

(** The tokens on the way back from [cur], put before [suf]. *)
Fixpoint bt_back (m : gmap Z Z) (fuel : nat) (cur : Z) (suf : list token) : list token :=
  match fuel with
  | O => suf
  | S fuel' =>
      if 0 <? cur then
        bt_back m fuel' (cur - default 0 (m !! (bt_mlen inp + cur)))
          (bt_token_at m cur :: suf)
      else suf
  end.

(** The tokens [ts] stand in [mlen] and [mpos] from the index [i] on. *)
Definition bt_stored (m : gmap Z Z) (i : Z) (ts : list token) : Prop :=
  forall k t, ts !! k = Some t ->
    m !! (bt_mlen inp + (i + Z.of_nat k)) = Some (token_len t) /\
    match t with
    | Literal _ => True
    | Match len offs => m !! (bt_mpos inp + (i + Z.of_nat k)) = Some (offs - 1)
    end.

Lemma bt_arrival_token m j t c :
  bt_arrival inp m j t c ->
  bt_token_at m j = t /\ m !! (bt_mlen inp + j) = Some (token_len t) /\
  1 <= token_len t <= j.
Proof.
  intros (c' & Hl & Hc' & Hc & Hc'0 & Hj & Ht). unfold bt_token_at. rewrite Hl. simpl.
  destruct t as [b|len offs]; simpl token_len in *.
  - simpl. split; [|split; [reflexivity|lia]].
    f_equal. apply nth_lookup_Some with (d := x00) in Ht. exact Ht.
  - destruct Ht as (Hm & (Hlen & Hoffs) & _). change MIN_MATCH with 3 in Hlen.
    replace (len =? 1) with false by (symmetry; apply Z.eqb_neq; lia).
    rewrite Hm. simpl. split; [f_equal; lia|]. split; [reflexivity|lia].
Qed.

Lemma bt_arrival_spells m j t c suf :
  bt_arrival inp m j t c -> j <= N -> spells inp j suf ->
  spells inp (j - token_len t) (t :: suf).
Proof.
  intros (c' & Hl & Hc' & Hc & Hc'0 & Hj & Ht) HjN Hs.
  destruct t as [b|len offs]; simpl token_len in *.
  - constructor; [lia|exact Ht|]. replace (j - 1 + 1) with j by lia. exact Hs.
  - destruct Ht as (Hm & Hok & Ho & Hb).
    constructor; [exact Hok|exact Ho|lia|exact Hb|].
    replace (j - len + len) with j by lia. exact Hs.
Qed.

Section gather.
Variable m0 : gmap Z Z.
Hypothesis Hdp0 : bt_dp inp m0 N N.

Lemma dp_arrival j :
  0 < j <= N -> exists t c, m0 !! (bt_cost + j) = Some c /\ bt_arrival inp m0 j t c.
Proof.
  intros Hj. pose proof BLOCK_SIZE_val as HBS. pose proof UINT32_MAX_val as HU.
  destruct Hdp0 as (Hd & Hb).
  destruct (Hd j ltac:(lia)) as (c & Hc & Hcr & Hgood).
  destruct (Hb j ltac:(lia)) as (c2 & Hc2 & Hc2b).
  assert (c2 = c) by congruence. subst c2.
  destruct (Hgood ltac:(lia)) as [(H0 & _)|(t & Ha & _)]; [lia|].
  exists t, c. auto.
Qed.

Lemma dp_cost_0 : m0 !! (bt_cost + 0) = Some 0.
Proof.
  destruct Hdp0 as (Hd & Hb).
  destruct (Hd 0 ltac:(lia)) as (c & Hc & Hcr & _).
  destruct (Hb 0 ltac:(lia)) as (c2 & Hc2 & Hc2b).
  assert (c2 = c) by congruence. subst c2. rewrite Hc. f_equal. lia.
Qed.

Definition gather_Q (fuel : nat) (cur : Z) (suf : list token) (nt' : Z) (w' : workmem)
    : Prop :=
  exists ts, 0 <= nt' <= N /\ Z.of_nat (length ts) = N - nt' /\
    bt_stored (wm_cells w') (nt' + 1) ts /\ spells inp 0 ts /\
    (exists cN, m0 !! (bt_cost + N) = Some cN /\ total_bits ts = cN) /\
    ts = bt_back m0 fuel cur suf.

Lemma bt_gather_spec fuel : forall cur nt suf w,
  0 <= cur <= nt -> nt <= N -> cur <= Z.of_nat fuel ->
  (forall j, 0 <= j <= cur ->
     wm_cells w !! (bt_mlen inp + j) = m0 !! (bt_mlen inp + j) /\
     wm_cells w !! (bt_mpos inp + j) = m0 !! (bt_mpos inp + j)) ->
  Z.of_nat (length suf) = N - nt -> bt_stored (wm_cells w) (nt + 1) suf ->
  spells inp cur suf ->
  (exists c cN, m0 !! (bt_cost + cur) = Some c /\ m0 !! (bt_cost + N) = Some cN /\
     total_bits suf + c = cN) ->
  wpb (bt_words N) (bt_gather inp fuel cur nt) w (gather_Q fuel cur suf).
Proof.
  pose proof BLOCK_SIZE_val as HBS.
  induction fuel as [|fuel IH]; intros cur nt suf w Hcur Hnt Hfuel Hag Hlen Hst Hsp Hcost.
  - assert (cur = 0) by lia. subst cur. simpl. apply wpb_ret.
    exists suf. split; [lia|]. split; [exact Hlen|]. split; [exact Hst|].
    split; [exact Hsp|]. split; [|reflexivity].
    destruct Hcost as (c & cN & Hc & HcN & Htot). rewrite dp_cost_0 in Hc.
    exists cN. split; [exact HcN|]. injection Hc as <-. lia.
  - simpl bt_gather. destruct (0 <? cur) eqn:E.
    + apply Z.ltb_lt in E.
      destruct (dp_arrival cur ltac:(lia)) as (t & c & Hc & Harr).
      destruct (bt_arrival_token _ _ _ _ Harr) as (Htok & Hml & Htl).
      destruct (Hag cur ltac:(lia)) as (Hagl & Hagp).
      apply wpb_bind. eapply wpb_load; [rewrite Hagl; exact Hml|].
      apply wpb_bind. store_in.
      apply wpb_bind. apply wpb_load_any; [bnd|]. intros v w1 Hw1 Hv.
      apply wpb_bind. store_in.
      apply wpb_bind. eapply (wpb_load _ _ (token_len t)).
      { cells. rewrite Hw1. cells.
        destruct (Z.eq_dec nt cur) as [->|Hne]; [cells; reflexivity|].
        cells. rewrite Hagl. exact Hml. }
      rewrite !(ulong_id inp) by lia.
      eapply wpb_mono.
      * apply (IH (cur - token_len t) (nt - 1) (t :: suf)); try lia.
        -- intros j Hj. cells. rewrite Hw1. cells. apply Hag. lia.
        -- simpl length. lia.
        -- intros k t' Hk. destruct k as [|k]; simpl in Hk.
           ++ injection Hk as <-. replace (nt - 1 + 1 + Z.of_nat 0) with nt by lia.
              destruct t as [b|len offs]; cells; rewrite Hw1; cells;
                (split; [reflexivity|]); [exact I|].
              f_equal. apply Hv. cells. rewrite Hagp.
              destruct Harr as (c' & _ & _ & _ & _ & _ & Hm & _). exact Hm.
           ++ destruct (Hst k t' Hk) as (H1 & H2).
              pose proof (lookup_lt_Some _ _ _ Hk) as Hklt.
              replace (nt - 1 + 1 + Z.of_nat (S k)) with (nt + 1 + Z.of_nat k) by lia.
              destruct t' as [b'|len' offs']; cells; rewrite Hw1; cells;
                (split; [exact H1|exact H2]).
        -- eapply bt_arrival_spells; [exact Harr|lia|exact Hsp].
        -- destruct Hcost as (c0 & cN & Hc0 & HcN & Htot).
           assert (c0 = c) by congruence. subst c0.
           destruct Harr as (c' & _ & Hc' & Hcc & _).
           exists c', cN. split; [exact Hc'|]. split; [exact HcN|].
           simpl total_bits. lia.
      * intros r w' (ts & H1 & H2 & H3 & H4 & H5 & H6). exists ts.
        repeat (split; [assumption|]). rewrite H6. simpl bt_back.
        replace (0 <? cur) with true by (symmetry; apply Z.ltb_lt; lia).
        rewrite Hml, Htok. reflexivity.
    + apply Z.ltb_ge in E. assert (cur = 0) by lia. subst cur. apply wpb_ret.
      exists suf. split; [lia|]. split; [exact Hlen|]. split; [exact Hst|].
      split; [exact Hsp|]. split; [|reflexivity].
      destruct Hcost as (c & cN & Hc & HcN & Htot). rewrite dp_cost_0 in Hc.
      exists cN. split; [exact HcN|]. injection Hc as <-. lia.
Qed.
End gather.

Lemma bt_stored_tail m i t ts : bt_stored m i (t :: ts) -> bt_stored m (i + 1) ts.
Proof.
  intros H k t' Hk. specialize (H (S k) t' Hk).
  replace (i + 1 + Z.of_nat k) with (i + Z.of_nat (S k)) by lia. exact H.
Qed.

Lemma bt_emit_spec n : forall i cur lbw toks ts w,
  length ts = n -> bt_stored (wm_cells w) i ts -> spells inp cur ts -> 0 <= cur ->
  wpb (bt_words N) (bt_emit inp n i cur lbw toks) w
    (fun r w' => r = (put_tokens BTparse lbw ts, toks ++ ts) /\ w' = w).
Proof.
  pose proof BLOCK_SIZE_val as HBS.
  induction n as [|n IH]; intros i cur lbw toks ts w Hlen Hst Hsp Hcur.
  - destruct ts; [|discriminate]. simpl. apply wpb_ret. rewrite app_nil_r. auto.
  - destruct ts as [|t ts]; [discriminate|]. injection Hlen as Hlen.
    simpl bt_emit.
    destruct (Hst O t eq_refl) as (Hml & Hmp).
    replace (i + Z.of_nat 0) with i in Hml, Hmp by lia.
    pose proof (bt_stored_tail _ _ _ _ Hst) as Hst'.
    apply wpb_bind. eapply wpb_load; [exact Hml|].
    inversion Hsp as [|pos b ts0 Hpos Hb Hrest|pos len offs ts0 Hok Ho Hfit Hbytes Hrest];
      subst; simpl token_len.
    + simpl. apply wpb_bind. apply wpb_ret.
      pose proof (lookup_lt_Some _ _ _ Hb) as Hlt.
      rewrite (nth_lookup_Some _ _ x00 _ Hb).
      rewrite (ulong_id inp) by lia.
      eapply wpb_mono; [apply (IH (i + 1) (cur + 1) _ _ ts); [reflexivity|exact Hst'|exact Hrest|lia]|].
      intros r w' (-> & ->). split; [|reflexivity].
      rewrite <- app_assoc. reflexivity.
    + pose proof Hok as (Hlen3 & _). change MIN_MATCH with 3 in Hlen3.
      replace (len =? 1) with false by (symmetry; apply Z.eqb_neq; lia).
      apply wpb_bind. apply wpb_bind. eapply wpb_load; [exact Hmp|]. apply wpb_ret.
      rewrite (ulong_id inp) by lia.
      replace (offs - 1 + 1) with offs by lia.
      eapply wpb_mono; [apply (IH (i + 1) (cur + len) _ _ ts); [reflexivity|exact Hst'|exact Hrest|lia]|].
      intros r w' (-> & ->). split; [|reflexivity].
      rewrite <- app_assoc. reflexivity.
Qed.

(** Phases 2 and 3. *)
Definition bt_phase23 : M (list byte * list token) :=
  bind (bt_gather inp (Z.to_nat N) N N) (fun next_token =>
  bind (bt_emit inp (Z.to_nat (N - next_token)) (next_token + 1) 0 lbw_init [])
    (fun r => ret (lbw_finalize (fst r), snd r))).

Lemma bt_phase23_spec w :
  bt_dp inp (wm_cells w) N N ->
  wpb (bt_words N) bt_phase23 w
    (fun r w' => pack_ok inp BTparse r /\
                 snd r = bt_back (wm_cells w) (Z.to_nat N) N []).
Proof.
  intros Hdp. pose proof BLOCK_SIZE_val as HBS. unfold bt_phase23.
  destruct Hdp as (Hd & Hb).
  destruct (Hb N ltac:(lia)) as (cN & HcN & HcNb).
  apply wpb_bind. eapply wpb_mono.
  - apply (bt_gather_spec (wm_cells w) (conj Hd Hb) (Z.to_nat N) N N [] w); try lia.
    + intros j Hj. auto.
    + simpl. lia.
    + intros k t Hk. discriminate.
    + constructor.
    + exists cN, cN. simpl. split; [exact HcN|]. split; [exact HcN|lia].
  - intros nt w1 (ts & Hnt & Hlen & Hst & Hsp & (cN' & HcN' & Htot) & Hts).
    assert (cN' = cN) by congruence. subst cN'.
    apply wpb_bind. eapply wpb_mono.
    + apply (bt_emit_spec _ (nt + 1) 0 lbw_init [] ts w1); [lia|exact Hst|exact Hsp|lia].
    + intros r w2 (-> & ->). apply wpb_ret. simpl.
      split; [|exact Hts]. unfold pack_ok. simpl fst. simpl snd.
      split; [exact Hsp|]. split; [lia|reflexivity].
Qed.

Variables max_depth accept_len : Z.
Hypothesis Haccept : 0 <= accept_len < 2 ^ 64.

Lemma crush_pack_btparse_split w :
  crush_pack_btparse inp max_depth accept_len w =
  bind (bt_phase1 inp max_depth accept_len) (fun _ => bt_phase23) w.
Proof.
  unfold crush_pack_btparse.
  replace (N =? 0) with false by (symmetry; apply Z.eqb_neq; lia).
  replace (N <? 4) with false by (symmetry; apply Z.ltb_ge; lia).
  unfold bt_phase1, bt_phase23, bind.
  destruct (bt_init_lookup inp w) as [[u0 w0]|]; [|reflexivity].
  destruct (bt_init_cost inp w0) as [[u1 w1]|]; [|reflexivity].
  destruct (store (bt_cost + 0) 0 w1) as [[u2 w2]|]; [|reflexivity].
  destruct (bt_parse inp max_depth accept_len _ 0 0 w2) as [[u3 w3]|]; [|reflexivity].
  destruct (bt_tail_literals inp w3) as [[u4 w4]|]; [|reflexivity].
  destruct (bt_gather inp _ N N w4) as [[nt w5]|]; [|reflexivity].
  destruct (bt_emit inp _ _ 0 lbw_init [] w5) as [[[lbw toks] w6]|]; reflexivity.
Qed.

(** The result of [crush_pack_btparse] on 4 bytes or more. *)
Lemma crush_pack_btparse_long w :
  wpb (bt_words N) (crush_pack_btparse inp max_depth accept_len) w
    (fun r w' => pack_ok inp BTparse r).
Proof.
  unfold wpb, wp. setoid_rewrite crush_pack_btparse_split.
  change (wpb (bt_words N) (bind (bt_phase1 inp max_depth accept_len) (fun _ => bt_phase23)) w
            (fun r w' => pack_ok inp BTparse r)).
  apply wpb_bind. eapply wpb_mono;
    [apply (bt_phase1_spec inp max_depth accept_len HN4 HNmax Haccept)|].
  intros u w1 (Hdp & _).
  eapply wpb_mono; [apply bt_phase23_spec, Hdp|]. intros r w' (H & _). exact H.
Qed.

(** It is the same from any two buffers. *)
Lemma crush_pack_btparse_same w1 w2 :
  wm_cells w1 = wm_cells w2 -> wm_stale w1 = [] -> wm_stale w2 = [] ->
  exists r w1' w2',
    crush_pack_btparse inp max_depth accept_len w1 = Some (r, w1') /\
    crush_pack_btparse inp max_depth accept_len w2 = Some (r, w2').
Proof.
  intros Hc Hs1 Hs2. rewrite !crush_pack_btparse_split.
  destruct (bt_phase1_spec inp max_depth accept_len HN4 HNmax Haccept w1)
    as (u1 & w1a & Hrun1 & (Hdp1 & Hst1) & _).
  destruct (ni_bt_phase1 inp max_depth accept_len w1 u1 w1a Hrun1 ltac:(congruence))
    as (_ & Hni).
  destruct (Hni w2 ltac:(congruence) Hs2) as (w2a & Hrun2 & Hc2 & _).
  destruct (bt_phase23_spec w1a Hdp1) as (r1 & w1b & Hr1 & ((_ & _ & Hf1) & Ht1) & _).
  destruct (bt_phase23_spec w2a ltac:(rewrite Hc2; exact Hdp1))
    as (r2 & w2b & Hr2 & ((_ & _ & Hf2) & Ht2) & _).
  assert (r2 = r1).
  { destruct r1 as [d1 t1], r2 as [d2 t2]. simpl in *. rewrite Hc2 in Ht2.
    assert (t2 = t1) by congruence. subst t2. congruence. }
  subst r2. exists r1, w1b, w2b. unfold bind. rewrite Hrun1, Hrun2. auto.
Qed.
End btparse_tokens.

(** * crush_pack_level as a whole *)

Lemma pack_ok_parser inp p q r : pack_ok inp p r -> pack_ok inp q r.
Proof.
  intros (Hs & Hb & Hf). split; [exact Hs|]. split; [exact Hb|].
  rewrite Hf. f_equal. apply put_tokens_parser. eapply spells_tokens_ok, Hs.
Qed.

(** Inputs of less than 4 bytes are written as literals. *)
Lemma pack_ok_short inp p :
  pack_ok inp p
    (if Z.of_nat (length inp) =? 0 then ([], [])
     else (lbw_finalize (put_literals lbw_init inp), map Literal inp)).
Proof.
  destruct (Z.of_nat (length inp) =? 0) eqn:E.
  - apply Z.eqb_eq in E. destruct inp; [|simpl in E; lia].
    split; [constructor|]. split; [simpl; lia|reflexivity].
  - apply (pack_ok_parser inp LEparse). split; [|split].
    + apply (spells_literals inp []).
    + simpl snd. rewrite total_bits_literals. lia.
    + simpl. rewrite put_literals_tokens. reflexivity.
Qed.

Lemma crush_pack_leparse_short inp max_depth accept_len w :
  Z.of_nat (length inp) < 4 ->
  crush_pack_leparse inp max_depth accept_len w =
  Some (if Z.of_nat (length inp) =? 0 then ([], [])
        else (lbw_finalize (put_literals lbw_init inp), map Literal inp), w).
Proof.
  intros H. unfold crush_pack_leparse.
  destruct (Z.of_nat (length inp) =? 0); [reflexivity|].
  replace (Z.of_nat (length inp) <? 4) with true by (symmetry; apply Z.ltb_lt; lia).
  reflexivity.
Qed.

Lemma crush_pack_btparse_short inp max_depth accept_len w :
  Z.of_nat (length inp) < 4 ->
  crush_pack_btparse inp max_depth accept_len w =
  Some (if Z.of_nat (length inp) =? 0 then ([], [])
        else (lbw_finalize (put_literals lbw_init inp), map Literal inp), w).
Proof.
  intros H. unfold crush_pack_btparse.
  destruct (Z.of_nat (length inp) =? 0); [reflexivity|].
  replace (Z.of_nat (length inp) <? 4) with true by (symmetry; apply Z.ltb_lt; lia).
  reflexivity.
Qed.

(** Two runs of a packer from buffers that differ in their first contents
    only: both end, with the same result [r]. *)
Definition same_result {T} (m : M T) (w1 w2 : workmem) (r : T) : Prop :=
  exists w1' w2', m w1 = Some (r, w1') /\ m w2 = Some (r, w2').

Lemma crush_pack_leparse_both inp max_depth accept_len w1 w2 :
  Z.of_nat (length inp) <= BLOCK_SIZE -> 0 <= max_depth < 2 ^ 64 ->
  wm_cells w1 = wm_cells w2 -> wm_stale w1 = [] -> wm_stale w2 = [] ->
  exists r, same_result (crush_pack_leparse inp max_depth accept_len) w1 w2 r /\
    pack_ok inp LEparse r.
Proof.
  intros HN Hd Hc Hs1 Hs2.
  destruct (Z.lt_ge_cases (Z.of_nat (length inp)) 4) as [Hlt|Hge].
  - eexists. split; [|apply pack_ok_short].
    exists w1, w2. split; apply crush_pack_leparse_short; exact Hlt.
  - destruct (crush_pack_leparse_long inp max_depth accept_len Hge HN Hd w1)
      as (r & w1' & Hrun & (Hok & Hst) & _).
    destruct (ni_crush_pack_leparse inp max_depth accept_len w1 r w1' Hrun
                ltac:(congruence)) as (_ & Hni).
    destruct (Hni w2 ltac:(congruence) Hs2) as (w2' & Hrun2 & _).
    exists r. split; [|exact Hok]. exists w1', w2'. auto.
Qed.

Lemma crush_pack_btparse_both inp max_depth accept_len w1 w2 :
  Z.of_nat (length inp) <= BLOCK_SIZE -> 0 <= accept_len < 2 ^ 64 ->
  wm_cells w1 = wm_cells w2 -> wm_stale w1 = [] -> wm_stale w2 = [] ->
  exists r, same_result (crush_pack_btparse inp max_depth accept_len) w1 w2 r /\
    pack_ok inp LEparse r.
Proof.
  intros HN Ha Hc Hs1 Hs2.
  destruct (Z.lt_ge_cases (Z.of_nat (length inp)) 4) as [Hlt|Hge].
  - eexists. split; [|apply pack_ok_short].
    exists w1, w2. split; apply crush_pack_btparse_short; exact Hlt.
  - destruct (crush_pack_btparse_same inp Hge HN max_depth accept_len Ha w1 w2 Hc Hs1 Hs2)
      as (r & w1' & w2' & Hrun1 & Hrun2).
    destruct (crush_pack_btparse_long inp Hge HN max_depth accept_len Ha w1)
      as (r' & w1'' & Hrun & Hok & _).
    assert (r' = r) by congruence. subst r'.
    exists r. split; [|eapply pack_ok_parser, Hok]. exists w1', w2'. auto.
Qed.

Lemma packed_both (m : M (list byte * list token)) w1 w2 r :
  same_result m w1 w2 r -> same_result (packed m) w1 w2 (Packed (fst r) (snd r)).
Proof.
  intros (w1' & w2' & H1 & H2). exists w1', w2'. unfold packed, bind, ret.
  rewrite H1, H2. auto.
Qed.

(** The result of [crush_pack_level] at the levels 5 to 10. *)
Lemma crush_pack_level_both inp level w1 w2 :
  5 <= level <= 10 -> Z.of_nat (length inp) <= BLOCK_SIZE ->
  wm_cells w1 = wm_cells w2 -> wm_stale w1 = [] -> wm_stale w2 = [] ->
  exists dst toks,
    same_result (crush_pack_level inp level) w1 w2 (Packed dst toks) /\
    pack_ok inp LEparse (dst, toks).
Proof.
  intros Hl HN Hc Hs1 Hs2.
  assert (Hu : 0 <= ULONG_MAX < 2 ^ 64) by (unfold ULONG_MAX; cbv; split; congruence).
  assert (Hcases : level = 5 \/ level = 6 \/ level = 7 \/ level = 8 \/ level = 9 \/ level = 10)
    by lia.
  destruct Hcases as [->|[->|[->|[->|[->| ->]]]]]; simpl crush_pack_level.
  1-3: match goal with |- context [crush_pack_leparse _ ?d ?a] =>
         destruct (crush_pack_leparse_both inp d a w1 w2 HN ltac:(lia) Hc Hs1 Hs2)
           as ([dst toks] & Hsame & Hok)
       end; exists dst, toks; split; [apply (packed_both _ _ _ _ Hsame)|exact Hok].
  1-2: match goal with |- context [crush_pack_btparse _ ?d ?a] =>
         destruct (crush_pack_btparse_both inp d a w1 w2 HN ltac:(lia) Hc Hs1 Hs2)
           as ([dst toks] & Hsame & Hok)
       end; exists dst, toks; split; [apply (packed_both _ _ _ _ Hsame)|exact Hok].
  destruct (crush_pack_btparse_both inp ULONG_MAX ULONG_MAX w1 w2 HN Hu Hc Hs1 Hs2)
    as ([dst toks] & Hsame & Hok).
  exists dst, toks. split; [apply (packed_both _ _ _ _ Hsame)|exact Hok].
Qed.

(** * The properties of the format and of the packers *)

(** The bytes of "abcdabcd", and a buffer of zeros. *)
Definition sample : list byte := [x61; x62; x63; x64; x61; x62; x63; x64].

Definition zero_init : Z -> Z := fun _ => 0.

Definition ones_init : Z -> Z := fun _ => 1.

(** The source position of the token of index [k]: the bytes that the
    tokens before it stand for. *)
Fixpoint tokens_span (toks : list token) : Z :=
  match toks with
  | [] => 0
  | t :: toks' => token_len t + tokens_span toks'
  end.

Lemma spells_match_at S pos toks :
  spells S pos toks ->
  forall k len offs, toks !! k = Some (Match len offs) ->
    token_ok (Match len offs) /\ offs <= pos + tokens_span (take k toks).
Proof.
  induction 1 as [|pos b toks Hpos Hb Hs IH|pos len0 offs0 toks Hok Ho Hfit Hbytes Hs IH];
    intros k len offs Hk.
  - destruct k; discriminate.
  - destruct k as [|k]; [discriminate|]. simpl in Hk.
    destruct (IH k len offs Hk) as (H1 & H2). split; [exact H1|].
    simpl take. simpl tokens_span. lia.
  - destruct k as [|k].
    + simpl in Hk. injection Hk as <- <-. split; [exact Hok|]. simpl. lia.
    + simpl in Hk. destruct (IH k len offs Hk) as (H1 & H2). split; [exact H1|].
      simpl take. simpl tokens_span. lia.
Qed.

Lemma crush_pack_level_result inp level init :
  5 <= level <= 10 -> Z.of_nat (length inp) <= BLOCK_SIZE ->
  exists dst toks w',
    crush_pack_level inp level (wm_start init) = Some (Packed dst toks, w') /\
    pack_ok inp LEparse (dst, toks).
Proof.
  intros Hl HN.
  destruct (crush_pack_level_both inp level (wm_start init) (wm_start init) Hl HN
              eq_refl eq_refl eq_refl) as (dst & toks & (w1 & _ & H1 & _) & Hok).
  exists dst, toks, w1. auto.
Qed.

Lemma packed_size_literals inp dst toks :
  Z.of_nat (length inp) <= BLOCK_SIZE -> pack_ok inp LEparse (dst, toks) ->
  Z.of_nat (length dst) <= (9 * Z.of_nat (length inp) + 7) / 8.
Proof.
  intros HN (Hs & Hb & Hf). simpl in Hs, Hb, Hf. rewrite Hf.
  rewrite packed_length by (eapply spells_tokens_ok, Hs).
  apply Z.div_le_mono; lia.
Qed.

(** ** C1 *)

(** C1 (round trip): a block [inp] of [N] bytes, at most [BLOCK_SIZE] as
    blocks are, packed by [crush_pack_level] at any of the levels 5 to 10,
    from any first contents [init] of [workmem], and then depacked by
    [crush_depack] with [depacked_size = N], gives [inp] back, and
    [crush_depack] returns [N]. *)
Theorem pack_depack_roundtrip inp level init :
  5 <= level <= 10 -> Z.of_nat (length inp) <= BLOCK_SIZE ->
  exists dst toks w',
    crush_pack_level inp level (wm_start init) = Some (Packed dst toks, w') /\
    crush_depack dst (Z.of_nat (length inp)) = Depacked inp /\
    depack_return (crush_depack dst (Z.of_nat (length inp))) =
      Some (Z.of_nat (length inp)).
Proof.
  intros Hl HN.
  destruct (crush_pack_level_result inp level init Hl HN)
    as (dst & toks & w' & Hrun & Hs & _ & Hf).
  simpl in Hs, Hf. exists dst, toks, w'. split; [exact Hrun|].
  assert (Hd : crush_depack dst (Z.of_nat (length inp)) = Depacked inp).
  { rewrite Hf. apply depack_put_tokens, Hs. }
  split; [exact Hd|]. rewrite Hd. reflexivity.
Qed.

Lemma pack_depack_roundtrip_sample :
  exists dst toks w',
    crush_pack_level sample 8 (wm_start zero_init) = Some (Packed dst toks, w') /\
    crush_depack dst (Z.of_nat (length sample)) = Depacked sample /\
    depack_return (crush_depack dst (Z.of_nat (length sample))) =
      Some (Z.of_nat (length sample)).
Proof.
  apply (pack_depack_roundtrip sample 8 zero_init); [lia|vm_compute; discriminate].
Defined.

(** ** C2 *)

(** C2 (the depacker and [depacked_size]): [crush_depack] does not stop at
    [depacked_size] inside a match.  The three bytes below are what level 5
    packs "aaaa" to (a literal and a match of length 3 and offset 1); with
    [depacked_size = 2] the call returns 4, having stored the bytes of
    index 2 and 3 as well. *)
Theorem crush_depack_past_size :
  crush_depack [xc2; x06; x00] 2 = Depacked [x61; x61; x61; x61] /\
  depack_return (crush_depack [xc2; x06; x00] 2) = Some 4 /\
  length (depack_written (crush_depack [xc2; x06; x00] 2)) = 4%nat.
Proof. vm_compute. repeat split. Qed.

(** ** C3 *)

(** C3 (the error of the depacker): [crush_depack] returns [CRUSH_ERROR],
    with [out] written so far, exactly when its rounds reach a point where
    fewer than [M] bytes are written and the next token is a match whose
    offset is greater than the number of bytes written; that match is not
    copied ([out] is what was written before it). *)
Theorem crush_depack_error_exactly src M out :
  crush_depack src M = DepackError out <->
  exists r, depack_reaches src M (r, out) /\
    Z.of_nat (length out) < M /\
    exists len offs r', get_token r = Some (Match len offs, r') /\
      Z.of_nat (length out) < offs.
Proof. apply crush_depack_error_iff. Qed.

(** ** C4 *)

(** C4 (the cost model): for a match of a length [len] in
    [MIN_MATCH..MAX_MATCH] and an offset [offs] in [1..W_SIZE],
    [crush_match_cost (offs - 1) len] is the number of bits that the packers
    write for it (a tag bit, the fields of the length, the slot and the bits
    of the offset), with either parser; a literal is written with 9 bits. *)
Theorem match_cost_is_bits_written p lbw len offs b :
  lbw_ok lbw -> MIN_MATCH <= len <= MAX_MATCH -> 1 <= offs <= W_SIZE ->
  wbits (put_match p lbw len (offs - 1)) = wbits lbw + crush_match_cost (offs - 1) len /\
  crush_match_cost (offs - 1) len =
    1 + fwidth (len_fields (len - MIN_MATCH)) + fwidth (offs_fields (offs - 1)) /\
  wbits (put_literal lbw b) = wbits lbw + 9.
Proof.
  intros Hw Hlen Hoffs.
  destruct (put_token_spec p lbw (Match len offs) Hw (conj Hlen Hoffs)) as (_ & _ & Hm).
  destruct (put_token_spec p lbw (Literal b) Hw I) as (_ & _ & Hb).
  rewrite match_cost_fields by assumption. simpl put_token in Hm, Hb.
  split; [exact Hm|]. split; [|exact Hb].
  unfold token_bits, token_fields. simpl fwidth.
  rewrite fwidth_app. lia.
Qed.

Lemma match_cost_is_bits_written_sample :
  wbits (put_match BTparse lbw_init 3 (1 - 1)) = wbits lbw_init + crush_match_cost (1 - 1) 3 /\
  crush_match_cost (1 - 1) 3 =
    1 + fwidth (len_fields (3 - MIN_MATCH)) + fwidth (offs_fields (1 - 1)) /\
  wbits (put_literal lbw_init x61) = wbits lbw_init + 9.
Proof.
  apply (match_cost_is_bits_written BTparse lbw_init 3 1 x61);
    [vm_compute; repeat split; discriminate|vm_compute; split; discriminate|
     vm_compute; split; discriminate].
Defined.

(** ** C5 *)

(** C5 (the codec of the tokens): a literal of any byte, or a match of a
    length in [3..566] and an offset in [1..2^21], written by [put_token]
    (with either parser) and flushed, is what [get_token] reads back. *)
Theorem get_token_put_token p t :
  token_ok t ->
  exists r', get_token (lbr_init (lbw_finalize (put_token p lbw_init t))) = Some (t, r').
Proof.
  intros Hok.
  destruct (put_token_spec p lbw_init t lbw_init_ok Hok) as (Hw & Hv & Hb).
  assert (Hr : reads (lbr_init (lbw_finalize (put_token p lbw_init t))) (token_fields t) 0).
  { apply reads_finalized.
    - exact Hw.
    - rewrite Hv. change (wval lbw_init) with 0. change (wbits lbw_init) with 0.
      change (2 ^ 0) with 1. lia.
    - rewrite Hb. change (wbits lbw_init) with 0. unfold token_bits. lia.
    - apply token_fields_ok, Hok. }
  destruct (get_token_spec _ t 0 Hok Hr) as (r' & Hg & _).
  exists r'. exact Hg.
Qed.

Lemma get_token_put_token_sample :
  exists r',
    get_token (lbr_init (lbw_finalize (put_token LEparse lbw_init (Match 566 2097152)))) =
    Some (Match 566 2097152, r').
Proof.
  apply (get_token_put_token LEparse (Match 566 2097152)).
  vm_compute. repeat split; discriminate.
Defined.

(** ** C6 *)

(** C6 (the bound on the packed size): for a block of [N] bytes, at most
    [BLOCK_SIZE], and a level from 5 to 10, [crush_pack_level] stores and
    returns at most [N + N / 8 + 64] bytes, which is
    [crush_max_packed_size N]. *)
Theorem packed_size_bound inp level init :
  5 <= level <= 10 -> Z.of_nat (length inp) <= BLOCK_SIZE ->
  exists r w',
    crush_pack_level inp level (wm_start init) = Some (r, w') /\
    0 <= pack_return r <= Z.of_nat (length inp) + Z.of_nat (length inp) / 8 + 64 /\
    crush_max_packed_size (Z.of_nat (length inp)) =
      Z.of_nat (length inp) + Z.of_nat (length inp) / 8 + 64.
Proof.
  intros Hl HN.
  destruct (crush_pack_level_result inp level init Hl HN)
    as (dst & toks & w' & Hrun & Hok).
  pose proof (packed_size_literals inp dst toks HN Hok) as Hb.
  pose proof BLOCK_SIZE_val as HBS.
  exists (Packed dst toks), w'. split; [exact Hrun|]. simpl pack_return.
  split.
  - split; [lia|]. eapply Z.le_trans; [exact Hb|].
    Z.div_mod_to_equations. lia.
  - unfold crush_max_packed_size. apply ulong_small.
    change (2 ^ 64) with 18446744073709551616.
    Z.div_mod_to_equations. lia.
Qed.

Lemma packed_size_bound_sample :
  exists r w',
    crush_pack_level sample 5 (wm_start zero_init) = Some (r, w') /\
    0 <= pack_return r <= Z.of_nat (length sample) + Z.of_nat (length sample) / 8 + 64 /\
    crush_max_packed_size (Z.of_nat (length sample)) =
      Z.of_nat (length sample) + Z.of_nat (length sample) / 8 + 64.
Proof.
  apply (packed_size_bound sample 5 zero_init); [lia|vm_compute; discriminate].
Defined.

(** ** C7 *)

(** C7 as it is written fails: for a source of 4 bytes, [2 * 4] is less
    than [2 ^ CRUSH_HASH_BITS], and the width is the full [CRUSH_HASH_BITS],
    not [floor (log2 4) = 2]. *)
Lemma hash_bits_not_shrunk_when_small :
  2 * Z.of_nat (length [x61; x62; x63; x64]) < 2 ^ CRUSH_HASH_BITS /\
  le_hash_bits [x61; x62; x63; x64] = CRUSH_HASH_BITS /\
  Z.log2 (Z.of_nat (length [x61; x62; x63; x64])) = 2 /\
  CRUSH_HASH_BITS = 17.
Proof. vm_compute. repeat split. Qed.

(** C7 (the width of the hash at the levels 5 to 7), as the code has it:
    when [2 * N < 2 ^ CRUSH_HASH_BITS] the full width [CRUSH_HASH_BITS] is
    used; otherwise the width is [floor (log2 N)]. *)
Theorem le_hash_bits_width inp :
  Z.of_nat (length inp) <= BLOCK_SIZE ->
  le_hash_bits inp =
    if 2 * Z.of_nat (length inp) <? 2 ^ CRUSH_HASH_BITS then CRUSH_HASH_BITS
    else Z.log2 (Z.of_nat (length inp)).
Proof.
  intros HN. pose proof BLOCK_SIZE_val as HBS. unfold le_hash_bits. cbv zeta.
  rewrite ulong_small by (change (2 ^ 64) with 18446744073709551616; lia).
  change LOOKUP_SIZE with (2 ^ CRUSH_HASH_BITS).
  destruct (Z.ltb_spec (2 * Z.of_nat (length inp)) (2 ^ CRUSH_HASH_BITS)) as [Hlt|Hge];
    [reflexivity|].
  change (2 ^ CRUSH_HASH_BITS) with 131072 in Hge.
  apply crush_log2_spec. change (2 ^ 64) with 18446744073709551616. lia.
Qed.

Lemma le_hash_bits_width_sample :
  le_hash_bits sample =
    if 2 * Z.of_nat (length sample) <? 2 ^ CRUSH_HASH_BITS then CRUSH_HASH_BITS
    else Z.log2 (Z.of_nat (length sample)).
Proof.
  apply (le_hash_bits_width sample). vm_compute. discriminate.
Defined.

(** ** C8 *)

(** The bytes 1 1 0 0 1 1 0 1 0 0 1 0 0 1 1 0 0. *)
Definition uneven : list byte :=
  [x01; x01; x00; x00; x01; x01; x00; x01; x00; x00; x01; x00; x00; x01; x01; x00; x00].

(** The number of bytes that [crush_pack_level] returns, from a buffer of
    zeros. *)
Definition packed_size (inp : list byte) (level : Z) : option Z :=
  option_map (fun x => pack_return (fst x)) (crush_pack_level inp level (wm_start zero_init)).

(** C8 as it is written fails: level 6 packs these 17 bytes to 12 bytes,
    level 5 to 11. *)
Lemma level_6_larger_than_level_5 :
  packed_size uneven 5 = Some 11 /\ packed_size uneven 6 = Some 12.
Proof. split; vm_compute; reflexivity. Qed.

(** C8 (the sizes at the levels 5 to 7), what holds of them: each is at
    most the size of the block written as literals only, 9 bits a byte. *)
Theorem fast_levels_size inp level init :
  5 <= level <= 7 -> Z.of_nat (length inp) <= BLOCK_SIZE ->
  exists r w',
    crush_pack_level inp level (wm_start init) = Some (r, w') /\
    pack_return r <= (9 * Z.of_nat (length inp) + 7) / 8.
Proof.
  intros Hl HN.
  destruct (crush_pack_level_result inp level init ltac:(lia) HN)
    as (dst & toks & w' & Hrun & Hok).
  exists (Packed dst toks), w'. split; [exact Hrun|].
  apply (packed_size_literals inp dst toks HN Hok).
Qed.

Lemma fast_levels_size_sample :
  exists r w',
    crush_pack_level uneven 6 (wm_start zero_init) = Some (r, w') /\
    pack_return r <= (9 * Z.of_nat (length uneven) + 7) / 8.
Proof.
  apply (fast_levels_size uneven 6 zero_init); [lia|vm_compute; discriminate].
Defined.

(** ** C9 *)

(** C9 (the tokens that are written): at the levels 5 to 10, a match that
    stands at the index [k] of the tokens written, hence at the source
    position [tokens_span (take k toks)], has an offset from 1 to that
    position, at most [W_SIZE], and a length from [MIN_MATCH = 3] to
    [MAX_MATCH = 566]. *)
Theorem written_matches_in_range inp level init :
  5 <= level <= 10 -> Z.of_nat (length inp) <= BLOCK_SIZE ->
  exists dst toks w',
    crush_pack_level inp level (wm_start init) = Some (Packed dst toks, w') /\
    forall k len offs, toks !! k = Some (Match len offs) ->
      1 <= offs <= tokens_span (take k toks) /\ offs <= W_SIZE /\
      MIN_MATCH <= len <= MAX_MATCH /\ MIN_MATCH = 3 /\ MAX_MATCH = 566 /\ len <> 2.
Proof.
  intros Hl HN.
  destruct (crush_pack_level_result inp level init Hl HN)
    as (dst & toks & w' & Hrun & Hs & _).
  simpl in Hs. exists dst, toks, w'. split; [exact Hrun|].
  intros k len offs Hk.
  destruct (spells_match_at inp 0 toks Hs k len offs Hk) as ((Hlen & Hoffs) & Hpos).
  change MIN_MATCH with 3 in *. change MAX_MATCH with 566 in *.
  repeat split; lia.
Qed.

Lemma written_matches_in_range_sample :
  exists dst toks w',
    crush_pack_level sample 9 (wm_start zero_init) = Some (Packed dst toks, w') /\
    forall k len offs, toks !! k = Some (Match len offs) ->
      1 <= offs <= tokens_span (take k toks) /\ offs <= W_SIZE /\
      MIN_MATCH <= len <= MAX_MATCH /\ MIN_MATCH = 3 /\ MAX_MATCH = 566 /\ len <> 2.
Proof.
  apply (written_matches_in_range sample 9 zero_init); [lia|vm_compute; discriminate].
Defined.

(** ** C10 *)

(** The words of [workmem] that a call loads before it has stored them. *)
Definition stale_loads (inp : list byte) (level : Z) : option (list Z) :=
  option_map (fun x => wm_stale (snd x)) (crush_pack_level inp level (wm_start zero_init)).

(** C10 as it is written fails in its reason: at level 8, on "abcd", the
    gathering of the tokens loads four words of [mpos] (the words 6 to 9 of
    [workmem]) that the call has never stored. *)
Lemma level_8_loads_unwritten_words :
  stale_loads [x61; x62; x63; x64] 8 = Some [6; 7; 8; 9].
Proof. vm_compute. reflexivity. Qed.

Lemma crush_pack_level_fast_stale inp level w :
  5 <= level <= 7 -> Z.of_nat (length inp) <= BLOCK_SIZE ->
  exists r w', crush_pack_level inp level w = Some (r, w') /\ wm_stale w' = wm_stale w.
Proof.
  intros Hl HN.
  assert (Hg : forall d a, 0 <= d < 2 ^ 64 ->
            exists r w', packed (crush_pack_leparse inp d a) w = Some (r, w') /\
              wm_stale w' = wm_stale w).
  { intros d a Hd. unfold packed, bind, ret.
    destruct (Z.lt_ge_cases (Z.of_nat (length inp)) 4) as [Hlt|Hge].
    - rewrite crush_pack_leparse_short by exact Hlt. eexists _, _. split; reflexivity.
    - destruct (crush_pack_leparse_long inp d a Hge HN Hd w)
        as (r & w' & Hrun & (_ & Hst) & _).
      rewrite Hrun. eexists _, _. split; [reflexivity|exact Hst]. }
  assert (Hcases : level = 5 \/ level = 6 \/ level = 7) by lia.
  destruct Hcases as [->|[->| ->]]; simpl crush_pack_level; apply Hg; lia.
Qed.

(** C10 (the first contents of [workmem]): at the levels 5 to 10, two calls
    on the same block that differ in the first contents of [workmem] only
    store the same bytes and return the same size; at the levels 5 to 7 no
    word of [workmem] is loaded before it is stored. *)
Theorem workmem_contents_do_not_matter inp level init1 init2 :
  5 <= level <= 10 -> Z.of_nat (length inp) <= BLOCK_SIZE ->
  exists dst toks w1 w2,
    crush_pack_level inp level (wm_start init1) = Some (Packed dst toks, w1) /\
    crush_pack_level inp level (wm_start init2) = Some (Packed dst toks, w2) /\
    (level <= 7 -> wm_stale w1 = [] /\ wm_stale w2 = []).
Proof.
  intros Hl HN.
  destruct (crush_pack_level_both inp level (wm_start init1) (wm_start init2) Hl HN
              eq_refl eq_refl eq_refl) as (dst & toks & (w1 & w2 & H1 & H2) & _).
  exists dst, toks, w1, w2. split; [exact H1|]. split; [exact H2|].
  intros H7.
  destruct (crush_pack_level_fast_stale inp level (wm_start init1) ltac:(lia) HN)
    as (r1 & w1' & Hr1 & Hs1).
  destruct (crush_pack_level_fast_stale inp level (wm_start init2) ltac:(lia) HN)
    as (r2 & w2' & Hr2 & Hs2).
  assert (w1' = w1) by congruence. assert (w2' = w2) by congruence. subst.
  split; assumption.
Qed.

Lemma workmem_contents_do_not_matter_sample :
  exists dst toks w1 w2,
    crush_pack_level sample 8 (wm_start zero_init) = Some (Packed dst toks, w1) /\
    crush_pack_level sample 8 (wm_start ones_init) = Some (Packed dst toks, w2) /\
    (8 <= 7 -> wm_stale w1 = [] /\ wm_stale w2 = []).
Proof.
  apply (workmem_contents_do_not_matter sample 8 zero_init ones_init);
    [lia|vm_compute; discriminate].
Defined.

(** * More of the code: bit input and output, the depacker on any bytes *)

(** ** Bits written and read back *)

(** [lbr_getbits] called once for each width of [nums], in order. *)
Fixpoint lbr_getbits_each (lbr : lsb_bitreader) (nums : list Z)
    : option (list Z * lsb_bitreader) :=
  match nums with
  | [] => Some ([], lbr)
  | num :: nums' =>
      match lbr_getbits lbr num with
      | Some (v, lbr1) =>
          match lbr_getbits_each lbr1 nums' with
          | Some (vs, lbr2) => Some (v :: vs, lbr2)
          | None => None
          end
      | None => None
      end
  end.

Lemma reads_each fs : forall r R,
  reads r fs R ->
  exists r', lbr_getbits_each r (map snd fs) = Some (map fst fs, r') /\ reads r' [] R.
Proof.
  induction fs as [|[v n] fs IH]; intros r R Hr; simpl.
  - exists r. auto.
  - destruct (reads_getbits r v n fs R Hr) as (r1 & Hg & Hr1 & _).
    rewrite Hg. destruct (IH r1 R Hr1) as (r2 & He & Hr2).
    rewrite He. exists r2. auto.
Qed.

(** X1 (the bit writer and the bit reader): values of 1 to 24 bits each,
    written by [lbw_putbits] from [lbw_init] and flushed by [lbw_finalize],
    take the least whole number of bytes that holds all their bits, and
    [lbr_getbits], called with the same widths on these bytes, gives the
    values back in order. *)
Theorem putbits_getbits_round_trip fs :
  Forall field_ok fs ->
  Z.of_nat (length (lbw_finalize (put_fields lbw_init fs))) = (fwidth fs + 7) / 8 /\
  exists r',
    lbr_getbits_each (lbr_init (lbw_finalize (put_fields lbw_init fs))) (map snd fs) =
    Some (map fst fs, r').
Proof.
  intros Hfs.
  destruct (put_fields_spec fs lbw_init lbw_init_ok Hfs) as (Hok & Hv & Hb).
  change (wval lbw_init) with 0 in Hv. change (wbits lbw_init) with 0 in Hb, Hv.
  change (2 ^ 0) with 1 in Hv.
  destruct (lbw_finalize_spec _ Hok) as (_ & Hlen).
  split; [rewrite Hlen, Hb; reflexivity|].
  assert (Hr : reads (lbr_init (lbw_finalize (put_fields lbw_init fs))) fs 0).
  { apply reads_finalized; [exact Hok|lia|lia|exact Hfs]. }
  destruct (reads_each fs _ 0 Hr) as (r' & He & _). exists r'. exact He.
Qed.

Lemma putbits_getbits_round_trip_sample :
  Z.of_nat (length (lbw_finalize (put_fields lbw_init [(5, 3); (0, 1); (1000, 17)]))) =
    (fwidth [(5, 3); (0, 1); (1000, 17)] + 7) / 8 /\
  exists r',
    lbr_getbits_each (lbr_init (lbw_finalize (put_fields lbw_init [(5, 3); (0, 1); (1000, 17)])))
      (map snd [(5, 3); (0, 1); (1000, 17)]) =
    Some (map fst [(5, 3); (0, 1); (1000, 17)], r').
Proof.
  apply (putbits_getbits_round_trip [(5, 3); (0, 1); (1000, 17)]).
  repeat constructor; vm_compute; congruence.
Defined.

(** ** crush_log2 *)

(** X2 ([crush_log2]): for [n] from 1 to [ULONG_MAX], [crush_log2 n] is the
    index of the highest bit set in [n]. *)
Theorem crush_log2_highest_bit n :
  0 < n < 2 ^ 64 -> 0 <= crush_log2 n < 64 /\ 2 ^ crush_log2 n <= n < 2 ^ (crush_log2 n + 1).
Proof.
  intros Hn. rewrite crush_log2_spec by exact Hn.
  pose proof (Z.log2_spec n ltac:(lia)) as Hs. pose proof (Z.log2_nonneg n) as H0.
  split; [|rewrite <- Z.add_1_r in Hs; exact Hs].
  split; [exact H0|]. apply Z.log2_lt_pow2; lia.
Qed.

Lemma crush_log2_highest_bit_sample :
  0 <= crush_log2 1000 < 64 /\ 2 ^ crush_log2 1000 <= 1000 < 2 ^ (crush_log2 1000 + 1).
Proof. apply (crush_log2_highest_bit 1000). vm_compute. split; reflexivity. Defined.

(** ** The two offset codes *)

(** X3 (the offset code of the two packers): crush_leparse.h finds the slot
    of an offset by a loop and crush_btparse.h by [crush_log2]; for every
    offset of the format (the offset minus one is below [W_SIZE]) and every
    match length they write the same bits. *)
Theorem put_match_same_bits lbw len offs :
  0 <= offs < W_SIZE -> put_match LEparse lbw len offs = put_match BTparse lbw len offs.
Proof.
  intros Ho. unfold put_match. change W_SIZE with (2 ^ 21) in Ho.
  rewrite !put_offs_fields by exact Ho. reflexivity.
Qed.

Lemma put_match_same_bits_sample :
  put_match LEparse lbw_init 10 70000 = put_match BTparse lbw_init 10 70000.
Proof. apply (put_match_same_bits lbw_init 10 70000). vm_compute. split; congruence. Defined.

(** ** bcrush.c: write_le32 and read_le32 *)

(** [octet(v)]: the low-order 8 bits. *)
Definition octet (v : Z) : byte := byte_of v.

(** [write_le32(p, val)]: the four bytes stored to [p]. *)
Definition write_le32 (val : Z) : list byte :=
  [octet val; octet (Z.shiftr val 8); octet (Z.shiftr val 16); octet (Z.shiftr val 24)].

(** [read_le32(p)], on [unsigned long]. *)
Definition read_le32 (p : list byte) : Z :=
  Z.lor (Z.lor (Z.lor (ulong (byte_val (octet (byte_at p 0))))
                      (ulong (Z.shiftl (ulong (byte_val (octet (byte_at p 1)))) 8)))
               (ulong (Z.shiftl (ulong (byte_val (octet (byte_at p 2)))) 16)))
        (ulong (Z.shiftl (ulong (byte_val (octet (byte_at p 3)))) 24)).

Lemma read_le32_le_val a b c d :
  read_le32 [a; b; c; d] = le_val [a; b; c; d].
Proof.
  unfold read_le32, octet, byte_at. simpl nth. rewrite !byte_of_val.
  pose proof (byte_val_range a). pose proof (byte_val_range b).
  pose proof (byte_val_range c). pose proof (byte_val_range d).
  rewrite !shiftl_pow2 by lia.
  rewrite !(ulong_small (byte_val _)) by (change (2 ^ 64) with 18446744073709551616; lia).
  rewrite !ulong_small
    by (change (2 ^ 64) with 18446744073709551616; change (2 ^ 8) with 256;
        change (2 ^ 16) with 65536; change (2 ^ 24) with 16777216; lia).
  rewrite (lor_shifted (byte_val a) (byte_val b) 8) by (change (2 ^ 8) with 256; lia).
  rewrite (lor_shifted _ (byte_val c) 16)
    by (change (2 ^ 8) with 256; change (2 ^ 16) with 65536; lia).
  rewrite (lor_shifted _ (byte_val d) 24)
    by (change (2 ^ 8) with 256; change (2 ^ 16) with 65536;
        change (2 ^ 24) with 16777216; lia).
  simpl le_val. change (2 ^ 8) with 256; change (2 ^ 16) with 65536;
    change (2 ^ 24) with 16777216. lia.
Qed.

Lemma le_val_write_le32 val : 0 <= val -> le_val (write_le32 val) = val mod 2 ^ 32.
Proof.
  intros Hv. unfold write_le32, octet. simpl le_val. rewrite !byte_val_of.
  rewrite !shiftr_pow2 by lia.
  change (2 ^ 8) with 256; change (2 ^ 16) with 65536;
    change (2 ^ 24) with 16777216; change (2 ^ 32) with 4294967296.
  Z.div_mod_to_equations. lia.
Qed.

(** X4 ([write_le32] and [read_le32]): the four bytes that [write_le32]
    stores for [val] are read back by [read_le32] as the low 32 bits of
    [val], and four bytes read by [read_le32] are stored again by
    [write_le32] as they were. *)
Theorem le32_round_trip val a b c d :
  0 <= val ->
  read_le32 (write_le32 val) = val mod 2 ^ 32 /\
  write_le32 (read_le32 [a; b; c; d]) = [a; b; c; d].
Proof.
  intros Hv. split.
  - rewrite <- (le_val_write_le32 val Hv). apply read_le32_le_val.
  - apply le_val_inj; [reflexivity|].
    rewrite le_val_write_le32 by (rewrite read_le32_le_val; apply le_val_nonneg).
    rewrite read_le32_le_val. apply Z.mod_small.
    split; [apply le_val_nonneg|]. apply (le_val_bound [a; b; c; d]).
Qed.

Lemma le32_round_trip_sample :
  read_le32 (write_le32 67108864) = 67108864 mod 2 ^ 32 /\
  write_le32 (read_le32 [x01; x02; x03; xff]) = [x01; x02; x03; xff].
Proof. apply (le32_round_trip 67108864 x01 x02 x03 xff). lia. Defined.

(** ** The depacker on any bytes *)

Lemma lbr_getbits_lt r num v r' :
  0 <= num <= 32 -> lbr_getbits r num = Some (v, r') -> 0 <= v < 2 ^ num.
Proof.
  intros Hn. unfold lbr_getbits.
  destruct (lbr_refill r num) as [r1|]; simpl; [|discriminate].
  unfold lbr_getbits_no_refill. intros H. injection H as Hv _. subst v.
  rewrite land_mask by lia.
  pose proof (Z.mod_pos_bound (lbr_tag r1) (2 ^ num) ltac:(apply pow2_gt0; lia)) as Hm.
  assert (2 ^ num <= 2 ^ 32) by (apply Z.pow_le_mono_r; lia).
  rewrite u32_small by lia. exact Hm.
Qed.

Lemma get_match_len_lt r l r' : get_match_len r = Some (l, r') -> 0 <= l < F.
Proof.
  unfold get_match_len. intros H.
  change F with 564.
  change A with 4 in H; change B with 8 in H; change C with 12 in H;
  change D with 20 in H; change E with 52 in H.
  change A_BITS with 2 in H; change B_BITS with 2 in H; change C_BITS with 2 in H;
  change D_BITS with 3 in H; change E_BITS with 5 in H; change F_BITS with 9 in H.
  repeat (inv_bind H;
    match goal with
    | H : context [if negb (?x =? 0) then _ else _] |- _ => destruct (negb (x =? 0))
    | _ => idtac
    end;
    try (injection H as H1 H2; subst;
         repeat match goal with
         | HE : lbr_getbits _ ?n = Some _ |- _ =>
             apply lbr_getbits_lt in HE; [|lia];
             let v := eval compute in (2 ^ n) in change (2 ^ n) with v in HE
         end; lia)).
  all: try (apply lbr_getbits_lt in H; [|lia]; change (2 ^ 2) with 4 in H; lia).
Qed.

Lemma get_match_offs_range r offs r' :
  get_match_offs r = Some (offs, r') -> 1 <= offs <= W_SIZE.
Proof.
  unfold get_match_offs. intros H. inv_bind H. inv_bind H.
  injection H as H1 H2. subst.
  change W_SIZE with 2097152.
  match goal with HE : lbr_getbits _ SLOT_BITS = Some _ |- _ =>
    apply lbr_getbits_lt in HE; [|change SLOT_BITS with 4; lia];
    change (2 ^ SLOT_BITS) with 16 in HE end.
  change (W_BITS - NUM_SLOTS) with 5 in *. change (W_BITS - (NUM_SLOTS - 1)) with 6 in *.
  match goal with
  | HE : (if ?c then _ else _) = Some (?v, _) |- _ =>
      assert (0 <= v < 2097152); [|lia]; destruct c eqn:Hc
  end.
  - match goal with HE : _ = Some _ |- _ => inv_bind HE; injection HE as H1 H2; subst end.
    match goal with HE : lbr_getbits _ _ = Some _ |- _ =>
      apply lbr_getbits_lt in HE; [|lia] end.
    rewrite shiftl_pow2 by lia. rewrite Z.mul_1_l.
    match goal with |- context [2 ^ ?m] =>
      assert (2 ^ m <= 2 ^ 20) by (apply Z.pow_le_mono_r; lia);
      assert (0 < 2 ^ m) by (apply pow2_gt0; lia) end.
    change (2 ^ 20) with 1048576 in *.
    rewrite u32_small by (change (2 ^ 32) with 4294967296; lia). lia.
  - match goal with HE : lbr_getbits _ 6 = Some _ |- _ =>
      apply lbr_getbits_lt in HE; [|lia]; change (2 ^ 6) with 64 in HE end. lia.
Qed.

Lemma get_token_range r len offs r' :
  get_token r = Some (Match len offs, r') ->
  MIN_MATCH <= len <= MAX_MATCH /\ 1 <= offs <= W_SIZE.
Proof.
  unfold get_token. intros H. inv_bind H.
  destruct (negb (x =? 0)).
  - inv_bind H. inv_bind H. injection H as H1 H2 H3. subst.
    match goal with HE : get_match_len _ = Some _ |- _ =>
      apply get_match_len_lt in HE end.
    match goal with HE : get_match_offs _ = Some _ |- _ =>
      apply get_match_offs_range in HE end.
    unfold MAX_MATCH. split; [lia|assumption].
  - inv_bind H. discriminate H.
Qed.

(** X5 (the tokens the depacker can read): whatever bytes it is given, a
    match that [crush_depack] decodes has a length from [MIN_MATCH] to
    [MAX_MATCH] and an offset from 1 to [W_SIZE]. *)
Theorem get_token_in_format r len offs r' :
  get_token r = Some (Match len offs, r') ->
  MIN_MATCH <= len <= MAX_MATCH /\ 1 <= offs <= W_SIZE.
Proof. apply get_token_range. Qed.

Lemma get_token_in_format_sample :
  get_token (lbr_init [x03; x01]) = Some (Match 3 2, mk_lbr [] 0 2) /\
  MIN_MATCH <= 3 <= MAX_MATCH /\ 1 <= 2 <= W_SIZE.
Proof.
  split; [vm_compute; reflexivity|].
  apply (get_token_in_format (lbr_init [x03; x01]) 3 2 (mk_lbr [] 0 2)).
  vm_compute. reflexivity.
Defined.

Lemma depack_loop_bound fuel : forall r out M,
  M <= Z.of_nat (length out) + Z.of_nat fuel ->
  Z.of_nat (length out) <= Z.max 0 (M + MAX_MATCH - 1) ->
  match depack_loop fuel r out M with
  | Depacked out' => M <= Z.of_nat (length out') <= Z.max 0 (M + MAX_MATCH - 1)
  | DepackError out' | DepackOverread out' => Z.of_nat (length out') < M
  end.
Proof.
  induction fuel as [|fuel IH]; intros r out M Hf Hb; simpl.
  - lia.
  - destruct (Z.of_nat (length out) <? M) eqn:Hlt.
    + apply Z.ltb_lt in Hlt.
      destruct (get_token r) as [[[b|len offs] r1]|] eqn:Ht; [| |exact Hlt].
      * apply IH; rewrite length_app; simpl; change MAX_MATCH with 566; lia.
      * destruct (Z.of_nat (length out) <? offs); [exact Hlt|].
        apply get_token_range in Ht.
        change MIN_MATCH with 3 in Ht. change MAX_MATCH with 566 in *.
        apply IH; rewrite copy_match_length; lia.
    + apply Z.ltb_ge in Hlt. lia.
Qed.

(** X6 (how far [crush_depack] writes): whatever the bytes of [src], a call
    that returns a size has written at least [depacked_size] and at most
    [depacked_size + MAX_MATCH - 1] bytes to [dst] (the last match is
    copied whole), and a call that returns [CRUSH_ERROR], or that runs
    past the end of [src], has written fewer than [depacked_size] bytes. *)
Theorem crush_depack_written_bound src M :
  0 <= M ->
  match crush_depack src M with
  | Depacked out => M <= Z.of_nat (length out) <= M + MAX_MATCH - 1
  | DepackError out | DepackOverread out => Z.of_nat (length out) < M
  end.
Proof.
  intros HM. unfold crush_depack.
  pose proof (depack_loop_bound (Z.to_nat M) (lbr_init src) [] M) as H.
  simpl length in H. change MAX_MATCH with 566 in *.
  specialize (H ltac:(lia) ltac:(lia)).
  destruct (depack_loop (Z.to_nat M) (lbr_init src) [] M); lia.
Qed.

Lemma crush_depack_written_bound_sample :
  match crush_depack [xc2; x06; x00] 2 with
  | Depacked out => 2 <= Z.of_nat (length out) <= 2 + MAX_MATCH - 1
  | DepackError out | DepackOverread out => Z.of_nat (length out) < 2
  end.
Proof. apply (crush_depack_written_bound [xc2; x06; x00] 2). lia. Defined.

(** ** The copy of a match *)

(** X7 (the copy of a match in [crush_depack]): copying [n] bytes from the
    position [mpos] of the bytes [out] written so far keeps [out] and adds
    [n] bytes after it, each one equal to the byte [dst_size - mpos] places
    before it in the result, also where the match runs into the bytes it
    has just added. *)
Theorem copy_match_repeats n out mpos :
  0 <= mpos < Z.of_nat (length out) ->
  exists ext, copy_match n out mpos = out ++ ext /\ length ext = n /\
    forall k, (k < n)%nat ->
      (out ++ ext) !! (length out + k)%nat = (out ++ ext) !! (Z.to_nat mpos + k)%nat.
Proof.
  revert out mpos.
  induction n as [|n IH]; intros out mpos Hm.
  - exists []. simpl. rewrite app_nil_r. split; [reflexivity|]. split; [reflexivity|].
    intros k Hk. lia.
  - simpl copy_match.
    destruct (lookup_lt_is_Some_2 out (Z.to_nat mpos) ltac:(lia)) as [b Hb].
    rewrite (nth_lookup_Some _ _ _ _ Hb).
    destruct (IH (out ++ [b]) (mpos + 1)) as (ext & He & Hl & Hk).
    { rewrite length_app. simpl. lia. }
    exists (b :: ext). rewrite He, <- app_assoc. simpl.
    split; [reflexivity|]. split; [lia|].
    intros [|k] Hlt.
    + rewrite !Nat.add_0_r. rewrite lookup_app_r by lia.
      rewrite Nat.sub_diag. simpl. rewrite lookup_app_l by lia. congruence.
    + specialize (Hk k ltac:(lia)). rewrite <- app_assoc in Hk. simpl in Hk.
      rewrite length_app in Hk. simpl in Hk.
      replace (length out + S k)%nat with (length out + 1 + k)%nat by lia.
      replace (Z.to_nat mpos + S k)%nat with (Z.to_nat (mpos + 1) + k)%nat by lia.
      exact Hk.
Qed.

Lemma copy_match_repeats_sample :
  exists ext, copy_match 5 [x61; x62] 0 = [x61; x62] ++ ext /\ length ext = 5%nat /\
    forall k, (k < 5)%nat ->
      ([x61; x62] ++ ext) !! (length [x61; x62] + k)%nat =
      ([x61; x62] ++ ext) !! (Z.to_nat 0 + k)%nat.
Proof. apply (copy_match_repeats 5 [x61; x62] 0). simpl. lia. Defined.

(** ** Bytes after the packed data *)

Lemma reads_finalized_rest w fs rest :
  lbw_ok w -> wval w = sval fs 0 -> wbits w = fwidth fs -> Forall field_ok fs ->
  exists R, reads (lbr_init (lbw_finalize w ++ rest)) fs R.
Proof.
  intros Hok Hv Hb Hfs. destruct (lbw_finalize_spec w Hok) as (Hval & Hlen).
  pose proof (fwidth_nonneg fs Hfs) as Hw.
  set (L := Z.of_nat (length (lbw_finalize w))) in *.
  assert (HL : fwidth fs <= 8 * L) by (rewrite Hlen, Hb; Z.div_mod_to_equations; lia).
  exists (2 ^ (8 * L - fwidth fs) * le_val rest).
  split; [apply lbr_init_ok|]. split; [|split; [|exact Hfs]].
  - rewrite rd_val_init, le_val_app, Hval, Hv. fold L.
    rewrite (sval_tail fs (_ * _)) by exact Hfs.
    rewrite Z.mul_assoc, <- pow2_split by lia.
    replace (fwidth fs + (8 * L - fwidth fs)) with (8 * L) by lia. reflexivity.
  - rewrite rd_bits_init, length_app. fold L. lia.
Qed.

Lemma depack_put_tokens_rest p S toks rest :
  spells S 0 toks ->
  crush_depack (lbw_finalize (put_tokens p lbw_init toks) ++ rest) (Z.of_nat (length S))
    = Depacked S.
Proof.
  intros Hsp. pose proof (spells_tokens_ok _ _ _ Hsp) as Hts.
  destruct (put_tokens_spec p toks lbw_init lbw_init_ok Hts) as (Hok & Hv & Hb).
  destruct (reads_finalized_rest (put_tokens p lbw_init toks) (stream_fields toks) rest)
    as (R & HR).
  - exact Hok.
  - rewrite Hv. unfold wval, wbits, lbw_init; simpl. lia.
  - rewrite Hb, fwidth_stream. unfold wbits, lbw_init; simpl. lia.
  - apply stream_fields_ok; assumption.
  - unfold crush_depack.
    change (@nil byte) with (take (Z.to_nat 0) S).
    apply (depack_loop_spells S toks 0 Hsp _ _ R); try lia. exact HR.
Qed.

(** X8 (bytes after the packed data): [crush_depack] is not told where the
    packed data ends, and does not need it: with any bytes [rest] after
    the output of [crush_pack_level] for a block [inp], depacking
    [length inp] bytes gives [inp] as without them. *)
Theorem crush_depack_ignores_rest inp level init rest :
  5 <= level <= 10 -> Z.of_nat (length inp) <= BLOCK_SIZE ->
  exists dst toks w',
    crush_pack_level inp level (wm_start init) = Some (Packed dst toks, w') /\
    crush_depack (dst ++ rest) (Z.of_nat (length inp)) = Depacked inp.
Proof.
  intros Hl HN.
  destruct (crush_pack_level_result inp level init Hl HN)
    as (dst & toks & w' & Hrun & Hs & _ & Hf).
  simpl in Hs, Hf. exists dst, toks, w'. split; [exact Hrun|].
  rewrite Hf. apply depack_put_tokens_rest, Hs.
Qed.

Lemma crush_depack_ignores_rest_sample :
  exists dst toks w',
    crush_pack_level sample 5 (wm_start zero_init) = Some (Packed dst toks, w') /\
    crush_depack (dst ++ [xff; x00; xff]) (Z.of_nat (length sample)) = Depacked sample.
Proof.
  apply (crush_depack_ignores_rest sample 5 zero_init [xff; x00; xff]);
    [lia|vm_compute; discriminate].
Defined.

(** ** The size of the packed data *)

(** No token stands for more than [MAX_MATCH] bytes or takes fewer than 9
    bits. *)
Lemma spells_bits_floor S pos toks :
  spells S pos toks -> 9 * (Z.of_nat (length S) - pos) <= MAX_MATCH * total_bits toks.
Proof.
  change MAX_MATCH with 566.
  induction 1 as [|pos b toks Hpos Hb Hs IH|pos len offs toks Hok Ho Hfit Hbytes Hs IH];
    simpl total_bits.
  - lia.
  - rewrite token_bits_literal. lia.
  - pose proof (token_bits_match_range S len offs Hok) as Hr.
    destruct Hok as [Hl _]. change MAX_MATCH with 566 in Hl. lia.
Qed.

(** X9 (what [crush_pack_level] returns): at the levels 5 to 10 the size
    returned is 0 for the empty block only, so the test [packedsize == 0]
    of [compress_file] never fires on a block that was read; and a block
    of [N] bytes never packs to fewer than [9 * N / (8 * MAX_MATCH)]
    bytes. *)
Theorem packed_size_floor inp level init :
  5 <= level <= 10 -> Z.of_nat (length inp) <= BLOCK_SIZE ->
  exists r w',
    crush_pack_level inp level (wm_start init) = Some (r, w') /\
    (pack_return r = 0 <-> inp = []) /\
    9 * Z.of_nat (length inp) <= 8 * MAX_MATCH * pack_return r.
Proof.
  intros Hl HN.
  destruct (crush_pack_level_result inp level init Hl HN)
    as (dst & toks & w' & Hrun & Hs & Hb & Hf).
  simpl in Hs, Hb, Hf.
  exists (Packed dst toks), w'. split; [exact Hrun|]. simpl pack_return.
  pose proof (spells_bits_floor _ _ _ Hs) as Hfl.
  assert (Hlen : Z.of_nat (length dst) = (total_bits toks + 7) / 8).
  { rewrite Hf. apply packed_length. eapply spells_tokens_ok, Hs. }
  change MAX_MATCH with 566 in *.
  split; [split|].
  - intros H0. destruct inp as [|b inp]; [reflexivity|]. exfalso.
    simpl length in Hfl. rewrite H0 in Hlen.
    Z.div_mod_to_equations. lia.
  - intros ->. simpl length in Hb.
    assert (total_bits toks <= 0) by lia.
    assert (0 <= total_bits toks) by lia.
    rewrite Hlen. Z.div_mod_to_equations. lia.
  - rewrite Hlen. Z.div_mod_to_equations. lia.
Qed.

Lemma packed_size_floor_sample :
  exists r w',
    crush_pack_level sample 7 (wm_start zero_init) = Some (r, w') /\
    (pack_return r = 0 <-> sample = []) /\
    9 * Z.of_nat (length sample) <= 8 * MAX_MATCH * pack_return r.
Proof.
  apply (packed_size_floor sample 7 zero_init); [lia|vm_compute; discriminate].
Defined.

(** X10 (the sizes at the levels 8 to 10): the packed size of a block of
    [N] bytes is at most that of the block written as literals only,
    [(9 * N + 7) / 8] bytes. *)
Theorem optimal_levels_size inp level init :
  8 <= level <= 10 -> Z.of_nat (length inp) <= BLOCK_SIZE ->
  exists r w',
    crush_pack_level inp level (wm_start init) = Some (r, w') /\
    pack_return r <= (9 * Z.of_nat (length inp) + 7) / 8.
Proof.
  intros Hl HN.
  destruct (crush_pack_level_result inp level init ltac:(lia) HN)
    as (dst & toks & w' & Hrun & Hok).
  exists (Packed dst toks), w'. split; [exact Hrun|].
  apply (packed_size_literals inp dst toks HN Hok).
Qed.

Lemma optimal_levels_size_sample :
  exists r w',
    crush_pack_level uneven 10 (wm_start zero_init) = Some (r, w') /\
    pack_return r <= (9 * Z.of_nat (length uneven) + 7) / 8.
Proof.
  apply (optimal_levels_size uneven 10 zero_init); [lia|vm_compute; discriminate].
Defined.

(** ** How far the depacker reads *)

Ltac getbits_step :=
  match goal with
  | Hok : lbr_ok ?r |- context [lbr_getbits ?r ?n] =>
      let r' := fresh "r" in
      let Hg := fresh "Hg" in
      let Hok' := fresh "Hok" in
      let Hb := fresh "Hb" in
      destruct (lbr_getbits_spec r n Hok ltac:(lia) ltac:(lia))
        as (r' & Hg & Hok' & _ & Hb);
      rewrite Hg; cbn [mbind option_bind]; clear Hg
  end.

(** A token takes at most 39 bits: the tag, 14 bits of length, the slot
    and 20 bits of offset. *)
Lemma get_token_total r :
  lbr_ok r -> 39 <= rd_bits r ->
  exists t r', get_token r = Some (t, r') /\ lbr_ok r' /\
    match t with
    | Literal _ => rd_bits r' = rd_bits r - 9
    | Match _ _ => rd_bits r - 39 <= rd_bits r'
    end.
Proof.
  intros Hok Hbits. unfold get_token, get_match_len, get_match_offs.
  change A_BITS with 2; change B_BITS with 2; change C_BITS with 2;
  change D_BITS with 3; change E_BITS with 5; change F_BITS with 9;
  change SLOT_BITS with 4; change (W_BITS - NUM_SLOTS) with 5;
  change (W_BITS - (NUM_SLOTS - 1)) with 6.
  getbits_step.
  destruct (negb (rd_val r mod 2 ^ 1 =? 0)).
  - assert (Hoffs : forall ra l, lbr_ok ra -> rd_bits r - 15 <= rd_bits ra ->
      exists t r',
        (get_match_offs ra ≫= λ '(offs, lbr), Some (Match (l + MIN_MATCH) offs, lbr))
          = Some (t, r') /\ lbr_ok r' /\
        match t with
        | Literal _ => rd_bits r' = rd_bits r - 9
        | Match _ _ => rd_bits r - 39 <= rd_bits r'
        end).
    { intros ra l Hoka Hra. unfold get_match_offs.
      change SLOT_BITS with 4; change (W_BITS - NUM_SLOTS) with 5;
      change (W_BITS - (NUM_SLOTS - 1)) with 6.
      getbits_step.
      pose proof (Z.mod_pos_bound (rd_val ra) (2 ^ 4) ltac:(lia)) as Hs.
      change (2 ^ 4) with 16 in *.
      destruct (5 <? rd_val ra mod 16 + 5).
      - getbits_step. eexists _, _. split; [reflexivity|]. split; [assumption|]. lia.
      - getbits_step. eexists _, _. split; [reflexivity|]. split; [assumption|]. lia. }
    unfold get_match_offs in Hoffs.
    change SLOT_BITS with 4 in Hoffs; change (W_BITS - NUM_SLOTS) with 5 in Hoffs;
    change (W_BITS - (NUM_SLOTS - 1)) with 6 in Hoffs.
    do 5 (getbits_step;
          match goal with |- context [negb (?x =? 0)] => destruct (negb (x =? 0)) end;
          [getbits_step; apply Hoffs; [assumption|lia]|]).
    getbits_step. apply Hoffs; [assumption|lia].
  - getbits_step. eexists _, _. split; [reflexivity|]. split; [assumption|]. lia.
Qed.

Lemma depack_loop_reads fuel : forall r out M out',
  lbr_ok r -> 13 * (M - Z.of_nat (length out)) + 26 <= rd_bits r ->
  depack_loop fuel r out M <> DepackOverread out'.
Proof.
  induction fuel as [|fuel IH]; intros r out M out' Hok Hbits; simpl; [discriminate|].
  destruct (Z.of_nat (length out) <? M) eqn:Hlt; [|discriminate].
  apply Z.ltb_lt in Hlt.
  destruct (get_token_total r Hok ltac:(lia)) as (t & r' & Ht & Hok' & Hb).
  rewrite Ht. destruct t as [b|len offs].
  - apply IH; [exact Hok'|]. rewrite length_app. simpl. lia.
  - destruct (Z.of_nat (length out) <? offs); [discriminate|].
    apply get_token_range in Ht. change MIN_MATCH with 3 in Ht.
    apply IH; [exact Hok'|]. rewrite copy_match_length. lia.
Qed.

(** X11 (how far [crush_depack] reads): whatever bytes [src] holds, if
    there are at least [(13 * depacked_size + 26) / 8] of them, rounded
    up, the depacker does not read past their end: it returns a size or
    [CRUSH_ERROR]. *)
Theorem crush_depack_reads_bound src M :
  13 * M + 26 <= 8 * Z.of_nat (length src) ->
  depack_return (crush_depack src M) <> None.
Proof.
  intros H. unfold crush_depack.
  pose proof (depack_loop_reads (Z.to_nat M) (lbr_init src) [] M) as Hr.
  destruct (depack_loop (Z.to_nat M) (lbr_init src) [] M) as [out|out|out] eqn:Hd;
    [discriminate|discriminate|].
  exfalso. apply (Hr out); [apply lbr_init_ok| |reflexivity].
  rewrite rd_bits_init. simpl length. lia.
Qed.

Lemma crush_depack_reads_bound_sample :
  depack_return (crush_depack [xff; xff; xff; xff; xff; xff; xff] 2) <> None.
Proof.
  apply (crush_depack_reads_bound [xff; xff; xff; xff; xff; xff; xff] 2).
  simpl length. lia.
Defined.

(** ** The words of workmem that a call touches *)

(** crush.c: [crush_workmem_size_level], in bytes. *)
Definition crush_workmem_size_level (src_size level : Z) : Z :=
  match level with
  | 5 | 6 | 7 => crush_leparse_workmem_size src_size
  | 8 | 9 | 10 => crush_btparse_workmem_size src_size
  | _ => ulong (-1)
  end.

(** The size in bytes of a word of [workmem]: crush_leparse.h lays arrays
    of [unsigned long] over it, crush_btparse.h arrays of [uint32_t]. *)
Definition workmem_word_size (level : Z) : Z :=
  match level with
  | 5 | 6 | 7 => 8
  | _ => 4
  end.

Lemma mem_in_start B init : mem_in B (wm_start init).
Proof.
  split.
  - intros a v H. simpl in H. rewrite lookup_empty in H. discriminate.
  - intros a H. destruct H.
Qed.

Lemma crush_pack_leparse_mem inp max_depth accept_len init :
  Z.of_nat (length inp) <= BLOCK_SIZE -> 0 <= max_depth < 2 ^ 64 ->
  exists r w', crush_pack_leparse inp max_depth accept_len (wm_start init) = Some (r, w') /\
    mem_in (le_words (Z.of_nat (length inp))) w'.
Proof.
  intros HN Hd.
  destruct (Z.lt_ge_cases (Z.of_nat (length inp)) 4) as [Hlt|Hge].
  - rewrite crush_pack_leparse_short by exact Hlt. eexists _, _.
    split; [reflexivity|apply mem_in_start].
  - destruct (crush_pack_leparse_long inp max_depth accept_len Hge HN Hd (wm_start init))
      as (r & w' & Hrun & _ & Hm).
    exists r, w'. split; [exact Hrun|apply Hm, mem_in_start].
Qed.

Lemma crush_pack_btparse_mem inp max_depth accept_len init :
  Z.of_nat (length inp) <= BLOCK_SIZE -> 0 <= accept_len < 2 ^ 64 ->
  exists r w', crush_pack_btparse inp max_depth accept_len (wm_start init) = Some (r, w') /\
    mem_in (bt_words (Z.of_nat (length inp))) w'.
Proof.
  intros HN Ha.
  destruct (Z.lt_ge_cases (Z.of_nat (length inp)) 4) as [Hlt|Hge].
  - rewrite crush_pack_btparse_short by exact Hlt. eexists _, _.
    split; [reflexivity|apply mem_in_start].
  - destruct (crush_pack_btparse_long inp Hge HN max_depth accept_len Ha (wm_start init))
      as (r & w' & Hrun & _ & Hm).
    exists r, w'. split; [exact Hrun|apply Hm, mem_in_start].
Qed.

Lemma le_words_size N :
  0 <= N <= BLOCK_SIZE -> crush_leparse_workmem_size N = 8 * le_words N.
Proof.
  intros HN. rewrite BLOCK_SIZE_val in HN. unfold crush_leparse_workmem_size, le_words.
  change LOOKUP_SIZE with 131072.
  rewrite (ulong_small (2 * N)), (ulong_small (3 * N)), (ulong_small (N + 131072))
    by (change (2 ^ 64) with 18446744073709551616; lia).
  destruct (131072 <? 2 * N);
    rewrite ulong_small by (change (2 ^ 64) with 18446744073709551616; lia); lia.
Qed.

Lemma bt_words_size N :
  0 <= N <= BLOCK_SIZE -> crush_btparse_workmem_size N = 4 * bt_words N.
Proof.
  intros HN. rewrite BLOCK_SIZE_val in HN. unfold crush_btparse_workmem_size, bt_words.
  change LOOKUP_SIZE with 131072.
  rewrite ulong_small by (change (2 ^ 64) with 18446744073709551616; lia). lia.
Qed.

(** X12 (the words of [workmem] that [crush_pack_level] touches): at the
    levels 5 to 10, for a block of [N] bytes, at most [BLOCK_SIZE], every
    word of [workmem] that the call stores, and every word that it loads
    (a load is of a word stored before, or is noted in [wm_stale]), lies
    inside the first [crush_workmem_size_level N level] bytes. *)
Theorem workmem_accesses_in_bounds inp level init :
  5 <= level <= 10 -> Z.of_nat (length inp) <= BLOCK_SIZE ->
  exists r w',
    crush_pack_level inp level (wm_start init) = Some (r, w') /\
    forall a, is_Some (wm_cells w' !! a) \/ In a (wm_stale w') ->
      0 <= a /\
      (a + 1) * workmem_word_size level <=
        crush_workmem_size_level (Z.of_nat (length inp)) level.
Proof.
  intros Hl HN.
  assert (Hle : forall d a, 0 <= d < 2 ^ 64 -> level = 5 \/ level = 6 \/ level = 7 ->
    exists r w', packed (crush_pack_leparse inp d a) (wm_start init) = Some (r, w') /\
      forall x, is_Some (wm_cells w' !! x) \/ In x (wm_stale w') ->
        0 <= x /\
        (x + 1) * workmem_word_size level <=
          crush_workmem_size_level (Z.of_nat (length inp)) level).
  { intros d a Hd Hlev.
    destruct (crush_pack_leparse_mem inp d a init HN Hd) as (r & w' & Hrun & Hc & Hs).
    unfold packed, bind, ret. rewrite Hrun. eexists _, _. split; [reflexivity|].
    intros x Hx.
    assert (Hb : 0 <= x < le_words (Z.of_nat (length inp))).
    { destruct Hx as [[v Hv]|Hin]; [eapply Hc, Hv|apply Hs, Hin]. }
    replace (crush_workmem_size_level (Z.of_nat (length inp)) level)
      with (8 * le_words (Z.of_nat (length inp)))
      by (symmetry; destruct Hlev as [->|[->| ->]]; apply le_words_size; lia).
    replace (workmem_word_size level) with 8
      by (destruct Hlev as [->|[->| ->]]; reflexivity).
    lia. }
  assert (Hbt : forall d a, 0 <= a < 2 ^ 64 -> level = 8 \/ level = 9 \/ level = 10 ->
    exists r w', packed (crush_pack_btparse inp d a) (wm_start init) = Some (r, w') /\
      forall x, is_Some (wm_cells w' !! x) \/ In x (wm_stale w') ->
        0 <= x /\
        (x + 1) * workmem_word_size level <=
          crush_workmem_size_level (Z.of_nat (length inp)) level).
  { intros d a Ha Hlev.
    destruct (crush_pack_btparse_mem inp d a init HN Ha) as (r & w' & Hrun & Hc & Hs).
    unfold packed, bind, ret. rewrite Hrun. eexists _, _. split; [reflexivity|].
    intros x Hx.
    assert (Hb : 0 <= x < bt_words (Z.of_nat (length inp))).
    { destruct Hx as [[v Hv]|Hin]; [eapply Hc, Hv|apply Hs, Hin]. }
    replace (crush_workmem_size_level (Z.of_nat (length inp)) level)
      with (4 * bt_words (Z.of_nat (length inp)))
      by (symmetry; destruct Hlev as [->|[->| ->]]; apply bt_words_size; lia).
    replace (workmem_word_size level) with 4
      by (destruct Hlev as [->|[->| ->]]; reflexivity).
    lia. }
  assert (Hcases : level = 5 \/ level = 6 \/ level = 7 \/ level = 8 \/ level = 9 \/ level = 10)
    by lia.
  destruct Hcases as [E|[E|[E|[E|[E|E]]]]].
  - destruct (Hle 1 16 ltac:(change (2 ^ 64) with 18446744073709551616; lia) ltac:(lia)) as (r & w' & H1 & H2). subst level. eauto.
  - destruct (Hle 8 32 ltac:(change (2 ^ 64) with 18446744073709551616; lia) ltac:(lia)) as (r & w' & H1 & H2). subst level. eauto.
  - destruct (Hle 64 64 ltac:(change (2 ^ 64) with 18446744073709551616; lia) ltac:(lia)) as (r & w' & H1 & H2). subst level. eauto.
  - destruct (Hbt 16 96 ltac:(change (2 ^ 64) with 18446744073709551616; lia) ltac:(lia)) as (r & w' & H1 & H2). subst level. eauto.
  - destruct (Hbt 32 224 ltac:(change (2 ^ 64) with 18446744073709551616; lia) ltac:(lia)) as (r & w' & H1 & H2). subst level. eauto.
  - destruct (Hbt ULONG_MAX ULONG_MAX ltac:(unfold ULONG_MAX; change (2 ^ 64) with 18446744073709551616; lia) ltac:(lia))
      as (r & w' & H1 & H2). subst level. eauto.
Qed.

Lemma workmem_accesses_in_bounds_sample :
  exists r w',
    crush_pack_level sample 9 (wm_start zero_init) = Some (r, w') /\
    forall a, is_Some (wm_cells w' !! a) \/ In a (wm_stale w') ->
      0 <= a /\
      (a + 1) * workmem_word_size 9 <=
        crush_workmem_size_level (Z.of_nat (length sample)) 9.
Proof.
  apply (workmem_accesses_in_bounds sample 9 zero_init); [lia|vm_compute; discriminate].
Defined.

(** ** Blocks that are packed one after the other *)

(** What a block packs to at the levels 5 to 10. *)
Lemma crush_pack_level_block data level init :
  5 <= level <= 10 -> 1 <= Z.of_nat (length data) <= BLOCK_SIZE ->
  exists dst toks w',
    crush_pack_level data level (wm_start init) = Some (Packed dst toks, w') /\
    1 <= Z.of_nat (length dst) <= crush_max_packed_size (Z.of_nat (length data)) /\
    forall rest, crush_depack (dst ++ rest) (Z.of_nat (length data)) = Depacked data.
Proof.
  intros Hl HN.
  destruct (crush_pack_level_result data level init Hl ltac:(lia))
    as (dst & toks & w' & Hrun & Hok).
  pose proof (packed_size_literals data dst toks ltac:(lia) Hok) as Hup.
  destruct Hok as (Hs & Hb & Hf). simpl in Hs, Hb, Hf.
  pose proof (spells_bits_floor _ _ _ Hs) as Hfl.
  assert (Hlen : Z.of_nat (length dst) = (total_bits toks + 7) / 8).
  { rewrite Hf. apply packed_length. eapply spells_tokens_ok, Hs. }
  pose proof BLOCK_SIZE_val as HBS.
  exists dst, toks, w'. split; [exact Hrun|]. split; [split|].
  - change MAX_MATCH with 566 in Hfl. rewrite Hlen. Z.div_mod_to_equations. lia.
  - unfold crush_max_packed_size.
    rewrite ulong_small
      by (change (2 ^ 64) with 18446744073709551616; Z.div_mod_to_equations; lia).
    Z.div_mod_to_equations. lia.
  - intros rest. rewrite Hf. apply depack_put_tokens_rest, Hs.
Qed.

(** The contents of [workmem] after a call: the words stored by the call
    over what the buffer held before. *)
Definition wm_after (w : workmem) : Z -> Z :=
  fun a => match wm_cells w !! a with
           | Some v => v
           | None => wm_init w a
           end.

(** bcrush.c, the loop of [compress_file]:
    [while ((n_read = fread(data, 1, BLOCK_SIZE, oldfile)) > 0)].  [reads]
    is what the calls of [fread] deliver, one after the other ([fread]
    gives 0 after the last of them), [wm] the contents of [workmem], which
    is allocated once and used for every block, and [file] what has been
    written to [packedfile] so far.  The result is [res] and the bytes
    written; [None] when [fwrite] is asked for more bytes than [packed]
    holds.  What [be_verbose] prints to [stderr] is left out. *)
Fixpoint compress_file_loop (level : Z) (reads : list (list byte)) (wm : Z -> Z)
    (file : list byte) : option (Z * list byte) :=
  match reads with
  | [] => Some (0, file)
  | data :: reads' =>
      let n_read := Z.of_nat (length data) in
      if 0 <? n_read then
        match crush_pack_level data level (wm_start wm) with
        | Some (r, w') =>
            let packedsize := pack_return r in
            if packedsize =? 0 then Some (1, file)
            else
              match r with
              | Packed packed _ =>
                  let header := write_le32 n_read in
                  compress_file_loop level reads' (wm_after w') (file ++ header ++ packed)
              | PackError => None
              end
        | None => None
        end
      else Some (0, file)
  end.

(** The file that holds the blocks [blocks], packed to [packs]: for each
    block a header of four bytes with its length, then its packed
    bytes. *)
Fixpoint framed (blocks packs : list (list byte)) : list byte :=
  match blocks, packs with
  | data :: blocks', packed :: packs' =>
      write_le32 (Z.of_nat (length data)) ++ packed ++ framed blocks' packs'
  | _, _ => []
  end.

(** A packed block from which [crush_depack] gives [data] back, whatever
    follows it in the file. *)
Definition depacks_to (data packed : list byte) : Prop :=
  1 <= Z.of_nat (length packed) <= crush_max_packed_size (Z.of_nat (length data)) /\
  forall rest, crush_depack (packed ++ rest) (Z.of_nat (length data)) = Depacked data.

Lemma compress_file_loop_frames level reads : forall wm file,
  5 <= level <= 10 ->
  Forall (fun data => 1 <= Z.of_nat (length data) <= BLOCK_SIZE) reads ->
  exists packs,
    compress_file_loop level reads wm file = Some (0, file ++ framed reads packs) /\
    Forall2 depacks_to reads packs.
Proof.
  induction reads as [|data reads IH]; intros wm file Hl Hr.
  - exists []. simpl. rewrite app_nil_r. split; [reflexivity|constructor].
  - inversion Hr as [|d ds Hd Hds]; subst.
    destruct (crush_pack_level_block data level wm Hl Hd)
      as (dst & toks & w' & Hrun & Hsz & Hdep).
    destruct (IH (wm_after w')
                (file ++ write_le32 (Z.of_nat (length data)) ++ dst) Hl Hds)
      as (packs & Hloop & Hall).
    exists (dst :: packs). split; [|constructor; [split; assumption|exact Hall]].
    cbn [compress_file_loop].
    replace (0 <? Z.of_nat (length data)) with true by (symmetry; apply Z.ltb_lt; lia).
    rewrite Hrun. cbv beta iota zeta delta [pack_return].
    replace (Z.of_nat (length dst) =? 0) with false by (symmetry; apply Z.eqb_neq; lia).
    rewrite Hloop. cbn [framed]. rewrite <- !app_assoc. reflexivity.
Qed.

(** X13 (the loop of [compress_file]): at the levels 5 to 10, when every
    call of [fread] delivers from 1 to [BLOCK_SIZE] bytes, the loop ends
    with [res = 0], whatever [workmem] held at first, and has written, for
    each block in turn, its length as four bytes (which [read_le32] reads
    back) and then its packed bytes, at least one and at most
    [crush_max_packed_size] of them, from which [crush_depack] gives the
    block back whatever follows them in the file. *)
Theorem compress_file_writes_frames level reads wm :
  5 <= level <= 10 ->
  Forall (fun data => 1 <= Z.of_nat (length data) <= BLOCK_SIZE) reads ->
  exists packs,
    compress_file_loop level reads wm [] = Some (0, framed reads packs) /\
    Forall2 depacks_to reads packs /\
    Forall (fun data => read_le32 (write_le32 (Z.of_nat (length data))) =
                        Z.of_nat (length data)) reads.
Proof.
  intros Hl Hr.
  destruct (compress_file_loop_frames level reads wm [] Hl Hr) as (packs & Hrun & Hall).
  exists packs. split; [exact Hrun|]. split; [exact Hall|].
  eapply Forall_impl; [exact Hr|]. intros data Hd. simpl in Hd.
  unfold write_le32 at 1. rewrite read_le32_le_val.
  fold (write_le32 (Z.of_nat (length data))). rewrite le_val_write_le32 by lia.
  apply Z.mod_small. rewrite BLOCK_SIZE_val in Hd. change (2 ^ 32) with 4294967296. lia.
Qed.

Lemma compress_file_writes_frames_sample :
  exists packs,
    compress_file_loop 5 [sample; uneven] zero_init [] =
      Some (0, framed [sample; uneven] packs) /\
    Forall2 depacks_to [sample; uneven] packs /\
    Forall (fun data => read_le32 (write_le32 (Z.of_nat (length data))) =
                        Z.of_nat (length data)) [sample; uneven].
Proof.
  apply (compress_file_writes_frames 5 [sample; uneven] zero_init); [lia|].
  repeat constructor; vm_compute; discriminate.
Defined.

(** ** crush.c: the entry for fuzzing *)

Inductive fuzz_result :=
  | FuzzReturn (v : Z)
  | FuzzAbort.

(** [memcmp(s1, s2, n)] on buffers that hold [n] bytes or more: 0 when the
    first [n] bytes are the same, else the difference of the first two
    that differ. *)
Fixpoint memcmp (s1 s2 : list byte) (n : nat) : Z :=
  match n, s1, s2 with
  | S n', a :: s1', b :: s2' =>
      if byte_val a =? byte_val b then memcmp s1' s2' n' else byte_val a - byte_val b
  | _, _, _ => 0
  end.

(** [LLVMFuzzerTestOneInput(data, size)], compiled with
    [CRUSH_FUZZ_LEVEL = level].  [allocated] tells whether the three calls
    of [malloc] give a buffer; [workmem], [packed] and [depacked] are the
    contents of the buffers as [malloc] gives them, [packed] of
    [crush_max_packed_size(size)] bytes and [depacked] of [size] bytes.
    [None] when a call stores or loads outside [packed] or [depacked]. *)
Definition LLVMFuzzerTestOneInput (level : Z) (data : list byte) (allocated : bool)
    (workmem : Z -> Z) (packed depacked : list byte) : option fuzz_result :=
  let size := Z.of_nat (length data) in
  if 64 * 1024 * 1024 <? size then Some (FuzzReturn 0)
  else if negb allocated then Some FuzzAbort
  else
    match crush_pack_level data level (wm_start workmem) with
    | Some (r, _) =>
        let dst := match r with Packed dst _ => dst | PackError => [] end in
        if Z.of_nat (length packed) <? Z.of_nat (length dst) then None
        else
          let packed := dst ++ drop (length dst) packed in
          match crush_depack packed size with
          | Depacked out | DepackError out =>
              if Z.of_nat (length depacked) <? Z.of_nat (length out) then None
              else
                let depacked := out ++ drop (length out) depacked in
                if memcmp data depacked (length data) =? 0 then Some (FuzzReturn 0)
                else Some FuzzAbort
          | DepackOverread _ => None
          end
    | None => None
    end.

Lemma memcmp_same s t : memcmp s (s ++ t) (length s) = 0.
Proof.
  induction s as [|a s IH]; simpl; [reflexivity|].
  rewrite Z.eqb_refl. exact IH.
Qed.

(** X14 (the fuzzing entry): compiled for a level from 5 to 10, and given
    its three buffers by [malloc], [LLVMFuzzerTestOneInput] returns 0 on
    every input: the packed data fit in [packed], the depacker stays inside
    [packed] and [depacked], and [memcmp] finds the input in [depacked];
    [abort] is not reached. *)
Theorem fuzz_entry_returns level data workmem packed depacked :
  5 <= level <= 10 ->
  Z.of_nat (length packed) = crush_max_packed_size (Z.of_nat (length data)) ->
  length depacked = length data ->
  LLVMFuzzerTestOneInput level data true workmem packed depacked = Some (FuzzReturn 0).
Proof.
  intros Hl Hp Hd. unfold LLVMFuzzerTestOneInput.
  change (64 * 1024 * 1024) with BLOCK_SIZE.
  destruct (BLOCK_SIZE <? Z.of_nat (length data)) eqn:Hbig; [reflexivity|].
  apply Z.ltb_ge in Hbig. cbn [negb].
  destruct (crush_pack_level_result data level workmem Hl Hbig)
    as (dst & toks & w' & Hrun & Hok).
  pose proof (packed_size_literals data dst toks Hbig Hok) as Hup.
  destruct Hok as (Hs & Hb & Hf). simpl in Hs, Hb, Hf.
  pose proof BLOCK_SIZE_val as HBS.
  rewrite Hrun. cbv beta iota zeta.
  assert (Hfit : Z.of_nat (length dst) <= Z.of_nat (length packed)).
  { rewrite Hp. unfold crush_max_packed_size.
    rewrite ulong_small
      by (change (2 ^ 64) with 18446744073709551616; Z.div_mod_to_equations; lia).
    Z.div_mod_to_equations. lia. }
  replace (Z.of_nat (length packed) <? Z.of_nat (length dst)) with false
    by (symmetry; apply Z.ltb_ge; lia).
  assert (Hdep : crush_depack (dst ++ drop (length dst) packed) (Z.of_nat (length data))
                 = Depacked data).
  { rewrite Hf. apply depack_put_tokens_rest, Hs. }
  rewrite Hdep.
  replace (Z.of_nat (length depacked) <? Z.of_nat (length data)) with false
    by (symmetry; apply Z.ltb_ge; lia).
  rewrite memcmp_same. reflexivity.
Qed.

Lemma fuzz_entry_returns_sample :
  LLVMFuzzerTestOneInput 5 sample true ones_init (repeat xff 73) (repeat x00 8) =
  Some (FuzzReturn 0).
Proof.
  apply (fuzz_entry_returns 5 sample ones_init (repeat xff 73) (repeat x00 8));
    [lia|vm_compute; reflexivity|reflexivity].
Defined.

(** ** A larger [depacked_size] *)

Lemma copy_match_appends n : forall out mpos,
  exists ext, copy_match n out mpos = out ++ ext.
Proof.
  induction n as [|n IH]; intros out mpos; simpl.
  - exists []. rewrite app_nil_r. reflexivity.
  - destruct (IH (out ++ [nth (Z.to_nat mpos) out x00]) (mpos + 1)) as (ext & He).
    rewrite He, <- app_assoc. eauto.
Qed.

Lemma depack_loop_extends fuel : forall r out M,
  exists ext, depack_written (depack_loop fuel r out M) = out ++ ext.
Proof.
  induction fuel as [|fuel IH]; intros r out M; simpl.
  - exists []. rewrite app_nil_r. reflexivity.
  - destruct (Z.of_nat (length out) <? M);
      [|exists []; rewrite app_nil_r; reflexivity].
    destruct (get_token r) as [[[b|len offs] r1]|];
      [| |exists []; rewrite app_nil_r; reflexivity].
    + destruct (IH r1 (out ++ [b]) M) as (ext & He). rewrite He, <- app_assoc. eauto.
    + destruct (Z.of_nat (length out) <? offs);
        [exists []; rewrite app_nil_r; reflexivity|].
      destruct (copy_match_appends (Z.to_nat len) out (Z.of_nat (length out) - offs))
        as (e1 & Hc).
      destruct (IH r1 (copy_match (Z.to_nat len) out (Z.of_nat (length out) - offs)) M)
        as (ext & He).
      rewrite He, Hc, <- app_assoc. eauto.
Qed.

Lemma depack_loop_longer fuel : forall fuel' r out M M',
  M <= M' ->
  M <= Z.of_nat (length out) + Z.of_nat fuel ->
  M' <= Z.of_nat (length out) + Z.of_nat fuel' ->
  (exists ext, depack_written (depack_loop fuel' r out M') =
               depack_written (depack_loop fuel r out M) ++ ext) /\
  match depack_loop fuel r out M with
  | Depacked _ => True
  | _ => depack_loop fuel' r out M' = depack_loop fuel r out M
  end.
Proof.
  induction fuel as [|fuel IH]; intros fuel' r out M M' HM Hf Hf'.
  - simpl. split; [apply depack_loop_extends|exact I].
  - simpl. destruct (Z.of_nat (length out) <? M) eqn:Hlt.
    + apply Z.ltb_lt in Hlt. destruct fuel' as [|fuel']; [lia|]. simpl.
      replace (Z.of_nat (length out) <? M') with true by (symmetry; apply Z.ltb_lt; lia).
      destruct (get_token r) as [[[b|len offs] r1]|] eqn:Ht.
      * apply IH; [exact HM| |]; rewrite length_app; simpl; lia.
      * destruct (Z.of_nat (length out) <? offs).
        -- split; [exists []; rewrite app_nil_r; reflexivity|reflexivity].
        -- apply get_token_match_len in Ht. change MIN_MATCH with 3 in Ht.
           apply IH; [exact HM| |]; rewrite copy_match_length; lia.
      * split; [exists []; rewrite app_nil_r; reflexivity|reflexivity].
    + simpl. split; [apply depack_loop_extends|exact I].
Qed.

(** X15 (a larger [depacked_size]): on the same bytes, what
    [crush_depack] writes for [depacked_size = M] is the beginning of what
    it writes for any larger [depacked_size]; and a call that does not
    return a size ([CRUSH_ERROR], or a read past the end of [src]) ends in
    the same way for every larger [depacked_size]. *)
Theorem crush_depack_longer src M M' :
  0 <= M <= M' ->
  (exists ext, depack_written (crush_depack src M') =
               depack_written (crush_depack src M) ++ ext) /\
  match crush_depack src M with
  | Depacked _ => True
  | _ => crush_depack src M' = crush_depack src M
  end.
Proof.
  intros HM. unfold crush_depack. apply depack_loop_longer; simpl length; lia.
Qed.

Lemma crush_depack_longer_sample :
  (exists ext, depack_written (crush_depack [xc2; x06; x00] 4) =
               depack_written (crush_depack [xc2; x06; x00] 1) ++ ext) /\
  match crush_depack [xc2; x06; x00] 1 with
  | Depacked _ => True
  | _ => crush_depack [xc2; x06; x00] 4 = crush_depack [xc2; x06; x00] 1
  end.
Proof. apply (crush_depack_longer [xc2; x06; x00] 1 4). lia. Defined.

(** ** The asserts of the bit writer *)

(** X16 (the [assert]s of the bit writer): after any values of 1 to 24
    bits, each one fitting its width, have been written from [lbw_init],
    the [assert]s that [lbw_putbits] meets for one more such value hold:
    [lbw->msb >= 0] at the end of [lbw_flush], and [num <= 32 - lbw->msb]
    and [(bits & (~0ULL << num)) == 0] in [lbw_putbits_no_flush]. *)
Theorem lbw_putbits_asserts_hold fs bits num :
  Forall field_ok fs -> field_ok (bits, num) ->
  0 <= lbw_msb (lbw_flush (put_fields lbw_init fs) num) /\
  num <= 32 - lbw_msb (lbw_flush (put_fields lbw_init fs) num) /\
  Z.land bits (Z.shiftl (-1) num) = 0.
Proof.
  intros Hfs [Hn Hb]. simpl in Hn, Hb.
  destruct (put_fields_spec fs lbw_init lbw_init_ok Hfs) as (Hok & _).
  apply lbw_putbits_asserts; [exact Hok|lia|exact Hb].
Qed.

Lemma lbw_putbits_asserts_hold_sample :
  0 <= lbw_msb (lbw_flush (put_fields lbw_init [(5, 3); (1000, 17); (70000, 20)]) 24) /\
  24 <= 32 - lbw_msb (lbw_flush (put_fields lbw_init [(5, 3); (1000, 17); (70000, 20)]) 24) /\
  Z.land 16777215 (Z.shiftl (-1) 24) = 0.
Proof.
  apply (lbw_putbits_asserts_hold [(5, 3); (1000, 17); (70000, 20)] 16777215 24).
  - repeat constructor; vm_compute; congruence.
  - split; vm_compute; split; congruence.
Defined.

(** ** The hash and the match length *)

(** X17 ([crush_hash3_bits]): for a width [bits] from 1 to 32 the hash of
    any three bytes is below [2 ^ bits], the number of entries of the
    table it indexes. *)
Theorem crush_hash3_bits_in_table p i bits :
  0 < bits <= 32 -> 0 <= crush_hash3_bits p i bits < 2 ^ bits.
Proof. apply crush_hash3_bits_range. Qed.

Lemma crush_hash3_bits_in_table_sample :
  0 <= crush_hash3_bits sample 1 CRUSH_HASH_BITS < 2 ^ CRUSH_HASH_BITS.
Proof. apply (crush_hash3_bits_in_table sample 1 CRUSH_HASH_BITS). vm_compute. split; congruence. Defined.

(** X18 (the loop that measures a match): started with the length [len]
    the loop [while (len < len_limit && in[pos + len] == in[cur + len])
    ++len] ends with a length from [len] to [len_limit]; the bytes at
    [pos] and at [cur] agree from [len] up to it, and if it is below
    [len_limit] the next two bytes differ. *)
Theorem find_match_len_longest inp pos cur len len_limit :
  0 <= len <= len_limit ->
  len <= find_match_len inp pos cur len len_limit <= len_limit /\
  (forall k, len <= k < find_match_len inp pos cur len len_limit ->
     byte_at inp (pos + k) = byte_at inp (cur + k)) /\
  (find_match_len inp pos cur len len_limit < len_limit ->
     byte_at inp (pos + find_match_len inp pos cur len len_limit)
       <> byte_at inp (cur + find_match_len inp pos cur len len_limit)).
Proof. apply find_match_len_spec. Qed.

Lemma find_match_len_longest_sample :
  0 <= find_match_len sample 0 4 0 4 <= 4 /\
  (forall k, 0 <= k < find_match_len sample 0 4 0 4 ->
     byte_at sample (0 + k) = byte_at sample (4 + k)) /\
  (find_match_len sample 0 4 0 4 < 4 ->
     byte_at sample (0 + find_match_len sample 0 4 0 4)
       <> byte_at sample (4 + find_match_len sample 0 4 0 4)).
Proof. apply (find_match_len_longest sample 0 4 0 4). lia. Defined.

(** ** The cost of a match *)

(** X19 ([crush_match_cost]): for an offset of the format (the offset
    minus one is below [W_SIZE]) and a length of [MIN_MATCH] or more the
    cost is from 14 to 39 bits, and below [MAX_MATCH] one more byte of
    length adds at most 9 bits, the cost of a literal. *)
Theorem crush_match_cost_bounds pos len :
  0 <= pos < W_SIZE -> MIN_MATCH <= len ->
  14 <= crush_match_cost pos len <= 39 /\
  (len < MAX_MATCH -> crush_match_cost pos (len + 1) <= crush_match_cost pos len + 9).
Proof.
  change W_SIZE with 2097152. intros Hp Hl. split.
  - clear Hl. unfold crush_match_cost.
    change (Z.shiftl 2 (W_BITS - NUM_SLOTS)) with 64.
    change (W_BITS - (NUM_SLOTS - 1)) with 6. change SLOT_BITS with 4.
    change A_BITS with 2; change B_BITS with 2; change C_BITS with 2;
    change D_BITS with 3; change E_BITS with 5; change F_BITS with 9.
    assert (Hlog : 64 <= pos -> 6 <= crush_log2 pos <= 20).
    { intros H64.
      rewrite crush_log2_spec by (change (2 ^ 64) with 18446744073709551616; lia).
      split; [apply Z.log2_le_pow2; [lia|]; change (2 ^ 6) with 64; lia|].
      assert (Z.log2 pos < 21); [|lia]. apply Z.log2_lt_pow2; [lia|].
      change (2 ^ 21) with 2097152. lia. }
    split_ltb; lia.
  - intros Hmax. apply crush_match_cost_step; [|lia].
    change (2 ^ 26) with 67108864. lia.
Qed.

Lemma crush_match_cost_bounds_sample :
  14 <= crush_match_cost 2097151 565 <= 39 /\
  (565 < MAX_MATCH -> crush_match_cost 2097151 (565 + 1) <= crush_match_cost 2097151 565 + 9).
Proof. apply (crush_match_cost_bounds 2097151 565); vm_compute; try split; congruence. Defined.

(** ** The buffers of compress_file *)

(** X20 (the buffers of [compress_file]): [compress_file] allocates
    [packed] and [workmem] once, for a block of [BLOCK_SIZE] bytes; for
    every block of [N <= BLOCK_SIZE] bytes and every level from 5 to 10
    these are at least as large as what [crush_max_packed_size] and
    [crush_workmem_size_level] give for [N]. *)
Theorem block_buffers_suffice N level :
  0 <= N <= BLOCK_SIZE -> 5 <= level <= 10 ->
  crush_max_packed_size N <= crush_max_packed_size BLOCK_SIZE /\
  crush_workmem_size_level N level <= crush_workmem_size_level BLOCK_SIZE level.
Proof.
  intros HN Hl. pose proof BLOCK_SIZE_val as HBS. split.
  - unfold crush_max_packed_size.
    rewrite !ulong_small
      by (change (2 ^ 64) with 18446744073709551616; Z.div_mod_to_equations; lia).
    Z.div_mod_to_equations. lia.
  - assert (Hcases : level = 5 \/ level = 6 \/ level = 7 \/
                     level = 8 \/ level = 9 \/ level = 10) by lia.
    assert (Hle : crush_leparse_workmem_size N <= crush_leparse_workmem_size BLOCK_SIZE).
    { rewrite !le_words_size by lia. unfold le_words. rewrite HBS.
      change LOOKUP_SIZE with 131072. change (131072 <? 2 * 67108864) with true.
      cbv iota. destruct (Z.ltb_spec 131072 (2 * N)); lia. }
    assert (Hbt : crush_btparse_workmem_size N <= crush_btparse_workmem_size BLOCK_SIZE).
    { rewrite !bt_words_size by lia. unfold bt_words. lia. }
    destruct Hcases as [->|[->|[->|[->|[->| ->]]]]]; assumption.
Qed.

Lemma block_buffers_suffice_sample :
  crush_max_packed_size 1000 <= crush_max_packed_size BLOCK_SIZE /\
  crush_workmem_size_level 1000 6 <= crush_workmem_size_level BLOCK_SIZE 6.
Proof. apply (block_buffers_suffice 1000 6); [vm_compute; split; congruence|lia]. Defined.

(** ** The asserts of the bit reader *)

Lemma lbr_refill_loop_bits fuel : forall r num r',
  lbr_refill_loop fuel r num = Some r' -> num - lbr_msb r <= 8 * Z.of_nat fuel ->
  0 <= lbr_msb r -> num <= rd_bits r.
Proof.
  induction fuel as [|fuel IH]; intros r num r' H Hf Hm; simpl in H.
  - unfold rd_bits. lia.
  - destruct (lbr_msb r <? num) eqn:Hc.
    + destruct (lbr_src r) as [|b rest] eqn:Hsrc; [discriminate|].
      apply IH in H; simpl; [|lia|lia].
      unfold rd_bits in *. simpl in H. rewrite Hsrc. simpl length. lia.
    + apply Z.ltb_ge in Hc. unfold rd_bits. lia.
Qed.

Lemma lbr_getbits_keeps_ok r num v r' :
  lbr_ok r -> 0 <= num <= 25 -> lbr_getbits r num = Some (v, r') -> lbr_ok r'.
Proof.
  intros Hok Hn H.
  assert (Hb : num <= rd_bits r).
  { unfold lbr_getbits in H.
    destruct (lbr_refill r num) as [r1|] eqn:Hr; [|discriminate].
    unfold lbr_refill in Hr. destruct Hok as [Hm _].
    eapply lbr_refill_loop_bits; [exact Hr|lia|lia]. }
  destruct (lbr_getbits_spec r num Hok Hn Hb) as (r2 & Hg & Hok2 & _).
  rewrite Hg in H. injection H as _ <-. exact Hok2.
Qed.

Lemma lbr_getbits_each_ok nums : forall r vs r',
  lbr_ok r -> Forall (fun n => 0 <= n <= 25) nums ->
  lbr_getbits_each r nums = Some (vs, r') -> lbr_ok r'.
Proof.
  induction nums as [|n nums IH]; intros r vs r' Hok Hn H; simpl in H.
  - injection H as _ <-. exact Hok.
  - inversion Hn as [|n' nums' Hn1 Hn2]; subst.
    destruct (lbr_getbits r n) as [[v r1]|] eqn:Hg; [|discriminate].
    destruct (lbr_getbits_each r1 nums) as [[vs1 r2]|] eqn:He; [|discriminate].
    injection H as _ <-.
    eapply IH; [|exact Hn2|exact He]. eapply lbr_getbits_keeps_ok; eassumption.
Qed.

(** X21 (the [assert]s of the bit reader): after any calls of
    [lbr_getbits] on any bytes, with widths of at most 25 bits (the
    depacker asks for at most 20), a further [lbr_refill] for such a width
    that finds the bytes it needs ends with [lbr->msb <= 32], and with
    [num <= lbr->msb], which [lbr_getbits_no_refill] asserts. *)
Theorem lbr_asserts_hold src nums vs r num r1 :
  Forall (fun n => 0 <= n <= 25) nums -> 0 <= num <= 25 ->
  lbr_getbits_each (lbr_init src) nums = Some (vs, r) ->
  lbr_refill r num = Some r1 ->
  0 <= lbr_msb r1 <= 32 /\ num <= lbr_msb r1.
Proof.
  intros Hnums Hnum He Hr.
  pose proof (lbr_getbits_each_ok nums _ _ _ (lbr_init_ok src) Hnums He) as Hok.
  assert (Hb : num <= rd_bits r).
  { unfold lbr_refill in Hr. destruct Hok as [Hm _].
    eapply lbr_refill_loop_bits; [exact Hr|lia|lia]. }
  destruct (lbr_refill_loop_spec (Z.to_nat num) r num Hok Hnum Hb)
    as (r2 & Hr2 & [Hm _] & Hle & _).
  { destruct Hok. lia. }
  unfold lbr_refill in Hr. rewrite Hr2 in Hr. injection Hr as <-.
  split; [exact Hm|exact Hle].
Qed.

Lemma lbr_asserts_hold_sample :
  0 <= lbr_msb (mk_lbr [] 1020 10) <= 32 /\ 8 <= lbr_msb (mk_lbr [] 1020 10).
Proof.
  apply (lbr_asserts_hold [x03; x01; xff] [1; 1; 2; 4; 6] [1; 1; 0; 0; 1]
           (mk_lbr [xff] 0 2) 8 (mk_lbr [] 1020 10)).
  - repeat constructor; lia.
  - lia.
  - vm_compute. reflexivity.
  - vm_compute. reflexivity.
Defined.

(** ** bcrush.c: ratio *)

Definition LLONG_MAX : Z := 2 ^ 63 - 1.
Definition LLONG_MIN : Z := - 2 ^ 63.

(** A value that [long long] holds. *)
Definition in_llong (z : Z) : bool := (LLONG_MIN <=? z) && (z <=? LLONG_MAX).

(** [ratio(x, y)], on [long long], with the division of C (towards zero)
    and the conversion to [unsigned int]; [None] when [x *= 100] or
    [x / y] leaves [long long] ([y] is not 0 at the division, after
    [if (y == 0) y = 1]). *)
Definition ratio (x y : Z) : option Z :=
  '(x, y) ←
    (if x <=? LLONG_MAX / 100
     then (if in_llong (x * 100) then Some (x * 100, y) else None)
     else Some (x, Z.quot y 100));
  let y := if y =? 0 then 1 else y in
  if in_llong (Z.quot x y) then Some (u32 (Z.quot x y)) else None.

(** X22 ([ratio]): for sizes [x] and [y] that are not negative, as
    [compress_file] passes them, [ratio] goes through without an overflow
    of [long long]; for [x] up to
    [LLONG_MAX / 100] and [y] above 0 the result is [100 * x / y] rounded
    down, as [unsigned int], and with [y = 0] it is [100 * x]. *)
Theorem ratio_is_percent x y :
  0 <= x <= LLONG_MAX -> 0 <= y <= LLONG_MAX ->
  exists r, ratio x y = Some r /\
    (x <= LLONG_MAX / 100 -> r = u32 (100 * x / (if y =? 0 then 1 else y))).
Proof.
  unfold ratio, in_llong, LLONG_MAX, LLONG_MIN.
  change (2 ^ 63 - 1) with 9223372036854775807.
  change (- 2 ^ 63) with (-9223372036854775808).
  change (9223372036854775807 / 100) with 92233720368547758.
  intros Hx Hy.
  destruct (x <=? 92233720368547758) eqn:Hc.
  - apply Z.leb_le in Hc.
    replace ((-9223372036854775808 <=? x * 100) && (x * 100 <=? 9223372036854775807))
      with true by (symmetry; apply andb_true_iff; split; apply Z.leb_le; lia).
    cbn [mbind option_bind].
    set (d := if y =? 0 then 1 else y).
    assert (Hd : 0 < d) by (unfold d; destruct (Z.eqb_spec y 0); lia).
    rewrite Z.quot_div_nonneg by lia.
    assert (Hq : 0 <= x * 100 / d <= x * 100).
    { split; [apply Z.div_pos; lia|]. apply Z.div_le_upper_bound; nia. }
    replace ((-9223372036854775808 <=? x * 100 / d) && (x * 100 / d <=? 9223372036854775807))
      with true by (symmetry; apply andb_true_iff; split; apply Z.leb_le; lia).
    eexists. split; [reflexivity|].
    intros _. rewrite (Z.mul_comm 100 x). reflexivity.
  - apply Z.leb_gt in Hc. cbn [mbind option_bind].
    set (d := if Z.quot y 100 =? 0 then 1 else Z.quot y 100).
    assert (Hy100 : 0 <= Z.quot y 100) by (apply Z.quot_pos; lia).
    assert (Hd : 0 < d) by (unfold d; destruct (Z.eqb_spec (Z.quot y 100) 0); lia).
    rewrite Z.quot_div_nonneg by lia.
    assert (Hq : 0 <= x / d <= x).
    { split; [apply Z.div_pos; lia|]. apply Z.div_le_upper_bound; nia. }
    replace ((-9223372036854775808 <=? x / d) && (x / d <=? 9223372036854775807))
      with true by (symmetry; apply andb_true_iff; split; apply Z.leb_le; lia).
    eexists. split; [reflexivity|]. intros H. lia.
Qed.

Lemma ratio_is_percent_sample :
  exists r, ratio 1500 4000 = Some r /\
    (1500 <= LLONG_MAX / 100 -> r = u32 (100 * 1500 / (if 4000 =? 0 then 1 else 4000))).
Proof. apply (ratio_is_percent 1500 4000); vm_compute; split; congruence. Defined.
